(** * TFSegmentUtils: the batch-generation engine of [datasource.py] and the
      [augment] decorator and [randPatch] of [augments.py], embedded
      shallowly.

    Layout: Part I gives the definitions (Python results and exceptions, the
    fragment of numpy the code uses, then one module per source class);
    Part II gives the lemmas and the theorems about them. *)

From Stdlib Require Import ZArith QArith Lia.
From stdpp Require Import base list strings.

Local Open Scope nat_scope.

(** ** Part I. Definitions *)

(** *** Python: exceptions and results *)

Module Py.

(** The exception classes the modelled code can raise. *)
Inductive exn : Type :=
| IndexError
| ValueError
| KeyError
| AssertionError (msg : string)
| Exception (msg : string).

(** A call either returns a value or raises. *)
Inductive result (A : Type) : Type :=
| Ok (a : A)
| Raise (e : exn).
Arguments Ok {A} a.
Arguments Raise {A} e.

Definition bind {A B} (r : result A) (k : A -> result B) : result B :=
  match r with
  | Ok a => k a
  | Raise e => Raise e
  end.

(** [[f(x) for x in l]]: the first raise aborts the comprehension. *)
Fixpoint mapR {A B} (f : A -> result B) (l : list A) : result (list B) :=
  match l with
  | [] => Ok []
  | x :: l' =>
      bind (f x) (fun y => bind (mapR f l') (fun ys => Ok (y :: ys)))
  end.

(** Python's [zip]: stops at the shorter argument. *)
Fixpoint zip {A B} (l : list A) (m : list B) : list (A * B) :=
  match l, m with
  | x :: l', y :: m' => (x, y) :: zip l' m'
  | _, _ => []
  end.

(** [range(n)] *)
Definition range (n : nat) : list nat := seq 0 n.

End Py.

Import Py.

#[global] Instance result_ret : MRet result := @Ok.
#[global] Instance result_bind : MBind result := fun A B k r => Py.bind r k.

(** *** numpy: the operations the sources call

    An array is its dtype, its shape and its elements in row-major order.
    Elements are integers standing for the stored scalars: a stored scalar is
    kept as it is when it is assigned into an array of another dtype
    (numpy's value cast is not part of this model). Indices are naturals, so
    Python's negative indexing is outside the model. *)

Module Np.

Inductive dtype : Type := float32 | float64 | int32 | int64 | uint8.

#[global] Instance dtype_eq_dec : EqDecision dtype.
Proof. solve_decision. Defined.

Definition itemsize (d : dtype) : nat :=
  match d with
  | float32 => 4 | float64 => 8 | int32 => 4 | int64 => 8 | uint8 => 1
  end.

Record ndarray : Type := mkArray {
  dtype_of : dtype;
  shape : list nat;
  data : list Z
}.

(** Number of elements of an array of shape [s]. *)
Definition size_of (s : list nat) : nat := foldr Nat.mul 1 s.

(** [a.nbytes] *)
Definition nbytes (a : ndarray) : nat := itemsize (dtype_of a) * size_of (shape a).

(** [np.zeros(s, d)] *)
Definition zeros (s : list nat) (d : dtype) : ndarray :=
  mkArray d s (replicate (size_of s) 0%Z).

(** [a.copy()]: a fresh array with the same contents. *)
Definition copy (a : ndarray) : ndarray := a.

(** [a[i]] for an integer [i]: the [i]-th sub-array along the first axis;
    [IndexError] on a 0-d array or when [i] is out of bounds. *)
Definition getitem (a : ndarray) (i : nat) : result ndarray :=
  match shape a with
  | [] => Raise IndexError
  | n :: s =>
      if decide (i < n)
      then Ok (mkArray (dtype_of a) s
                 (take (size_of s) (drop (i * size_of s) (data a))))
      else Raise IndexError
  end.

(** [a[inds]] for a list (or integer array) of indices: the selected
    sub-arrays stacked along a new first axis. *)
Definition getitems (a : ndarray) (inds : list nat) : result ndarray :=
  match shape a with
  | [] => Raise IndexError
  | n :: s =>
      rows ← mapR (getitem a) inds;
      Ok (mkArray (dtype_of a) (length inds :: s) (concat (map data rows)))
  end.

(** Splitting a flat list into consecutive pieces of [k] elements. *)
Fixpoint chunks (n k : nat) (d : list Z) : list (list Z) :=
  match n with
  | 0 => []
  | S n' => take k d :: chunks n' k (drop k d)
  end.

(** Broadcasting the data [d] of shape [sv] to the shape [st] of the same
    rank: an axis of length 1 is repeated, any other axis must agree. *)
Fixpoint broadcast (sv st : list nat) (d : list Z) : option (list Z) :=
  match sv, st with
  | [], [] => Some d
  | a :: sv', b :: st' =>
      if decide (a = b)
      then (fun rs => concat rs) <$> mapM (M := option) (broadcast sv' st') (chunks a (size_of sv') d)
      else if decide (a = 1)
      then (fun r => concat (replicate b r)) <$> broadcast sv' st' d
      else None
  | _, _ => None
  end.

(** Aligning the value's shape with the target's rank as numpy does for an
    assignment: missing leading axes count as 1, surplus leading axes must
    be 1. *)
Fixpoint align (sv : list nat) (rank : nat) : option (list nat) :=
  if decide (length sv <= rank)
  then Some (replicate (rank - length sv) 1 ++ sv)
  else match sv with
       | 1 :: sv' => align sv' rank
       | _ => None
       end.

(** The data of [v] as it is stored into a target of shape [st];
    [ValueError] when the shapes cannot be broadcast together. *)
Definition broadcast_to (v : ndarray) (st : list nat) : result (list Z) :=
  match align (shape v) (length st) with
  | None => Raise ValueError
  | Some sv =>
      match broadcast sv st (data v) with
      | Some d => Ok d
      | None => Raise ValueError
      end
  end.

(** [a[i] = v]: row [i] of [a] is overwritten in place; the array keeps its
    shape and dtype. The elements of [v] are stored as they are: the cast
    numpy makes when [v] has another dtype is not followed, so what is
    proved of the elements stored is proved for a [v] of the dtype of
    [a]. *)
Definition setitem (a : ndarray) (i : nat) (v : ndarray) : result ndarray :=
  match shape a with
  | [] => Raise IndexError
  | n :: s =>
      if decide (i < n)
      then
        d ← broadcast_to v s;
        Ok (mkArray (dtype_of a) (shape a)
              (take (i * size_of s) (data a) ++ d
               ++ drop (i * size_of s + size_of s) (data a)))
      else Raise IndexError
  end.

(** [a[...] = b]: the whole of [a] is overwritten in place. *)
Definition assign_all (a b : ndarray) : result ndarray :=
  d ← broadcast_to b (shape a);
  Ok (mkArray (dtype_of a) (shape a) d).

(** The dtype two arrays are promoted to when they are joined. *)
Definition is_float (d : dtype) : bool :=
  match d with float32 | float64 => true | _ => false end.

Definition promote (d1 d2 : dtype) : dtype :=
  if decide (d1 = d2) then d1
  else if is_float d1 || is_float d2
       then (match d1, d2 with
             | float32, uint8 | uint8, float32 => float32
             | _, _ => float64
             end)
       else (match d1, d2 with
             | int32, uint8 | uint8, int32 => int32
             | _, _ => int64
             end).

(** [np.concatenate([a, b])] along the first axis: the other axes must
    agree, 0-d arrays cannot be joined. *)
Definition concatenate (a b : ndarray) : result ndarray :=
  match shape a, shape b with
  | n :: s, m :: s' =>
      if decide (s = s')
      then Ok (mkArray (promote (dtype_of a) (dtype_of b)) ((n + m) :: s)
                 (data a ++ data b))
      else Raise ValueError
  | _, _ => Raise ValueError
  end.

(** [a.shape[0]]: [IndexError] on a 0-d array. *)
Definition shape0 (a : ndarray) : result nat :=
  match shape a with
  | [] => Raise IndexError
  | n :: _ => Ok n
  end.

(** A well-formed array holds exactly as many elements as its shape says. *)
Definition wf (a : ndarray) : Prop := length (data a) = size_of (shape a).

(** The exceptions numpy's indexing and assignment raise. *)
Definition from_numpy (e : exn) : Prop := e = IndexError \/ e = ValueError.

(** [a[r:r+ph, c:c+pw]] for bounds that are not negative: both slices are
    clipped to the array, the other axes are kept whole; [IndexError] on an
    array of fewer than two axes. *)
Definition getpatch (a : ndarray) (r ph c pw : nat) : result ndarray :=
  match shape a with
  | h :: w :: s =>
      let rows := take ph (drop r (chunks h (w * size_of s) (data a))) in
      Ok (mkArray (dtype_of a) (Nat.min ph (h - r) :: Nat.min pw (w - c) :: s)
            (concat (map (fun row => take (pw * size_of s)
                                       (drop (c * size_of s) row)) rows)))
  | _ => Raise IndexError
  end.

(** [a.max()]: [ValueError] on an array without elements. *)
Definition amax (a : ndarray) : result Z :=
  match data a with
  | [] => Raise ValueError
  | x :: l => Ok (foldr Z.max x l)
  end.

(** [np.random.randint(low, high)]: a value of the half-open range, which
    the environment supplies as [draw]; [ValueError] when the range is
    empty. *)
Definition randint (low high : Z) (draw : nat) : result nat :=
  if decide (low < high)%Z then Ok draw else Raise ValueError.

End Np.

Import Np.

(** *** datasource.py: [DataSource]

    The store is modelled with its default generator [defaultDataGen]. A stage
    of the augmentation pipeline is a callable on a record tuple; its random
    choices are taken as already made, so a stage is a function that returns
    a tuple or raises: a stage of this module draws nothing from the random
    generator. Stages that draw at every call are followed in [Seeded]. The
    index sample [np.random.choice] draws is supplied by the environment as
    the argument [draw]. *)

Module DataSource.

Definition stage : Type := list ndarray -> result (list ndarray).

Record t : Type := mkSource {
  arrays : list ndarray;
  selectProbs : option (list Q);
  augments : list stage
}.

(** [np.random.choice(n, batchSize, p=selectProbs)]: the environment's
    sample [draw], after numpy's checks of the population size and of the
    length of the weights. The values of the weights are not examined
    here: numpy raises [ValueError] as well for weights that are negative
    or do not add up to 1, so what is proved of a sample that is returned
    is proved for stores without weights. *)
Definition random_choice (n batchSize : nat) (p : option (list Q))
    (draw : list nat) : result (list nat) :=
  if decide (n = 0 ∧ batchSize ≠ 0) then Raise ValueError
  else match p with
       | Some ps => if decide (length ps = n) then Ok draw else Raise ValueError
       | None => Ok draw
       end.

(** What numpy guarantees of a sample of [batchSize] indices below [n]. *)
Definition valid_draw (n batchSize : nat) (draw : list nat) : Prop :=
  length draw = batchSize ∧ Forall (fun i => i < n) draw.

(** [self.arrays[0]] *)
Definition first_array (self : t) : result ndarray :=
  match arrays self with
  | [] => Raise IndexError
  | a :: _ => Ok a
  end.

Definition defaultDataGen (self : t) (batchSize : nat) (selectProbs : option (list Q))
    (chosenInds : option (list nat)) (draw : list nat) : result (list ndarray) :=
  chosenInds ← match chosenInds with
               | Some c => Ok c
               | None =>
                   a0 ← first_array self;
                   n ← shape0 a0;
                   random_choice n batchSize selectProbs draw
               end;
  mapR (fun a => getitems a chosenInds) (arrays self).

(** [stop] only asserts that the generator type is a known one. *)
Definition stop (genType : string) : result unit :=
  if decide (genType ∈ ["local"; "thread"; "process"]%string)
  then Ok () else Raise (AssertionError "").

Definition getRandomBatch (self : t) (batchSize : nat) (draw : list nat)
    : result (list ndarray) :=
  defaultDataGen self batchSize (selectProbs self) None draw.

Definition getIndexBatch (self : t) (chosenInds : list nat) : result (list ndarray) :=
  defaultDataGen self 0 None (Some chosenInds) [].

(** The loop of [getAugmentedArrays]: each stage is called on the tuple the
    previous one returned. *)
Fixpoint runStages (augments : list stage) (arrays : list ndarray)
    : result (list ndarray) :=
  match augments with
  | [] => Ok arrays
  | aug :: rest => arrays' ← aug arrays; runStages rest arrays'
  end.

Definition getAugmentedArrays (self : t) (arrays : list ndarray)
    : result (list ndarray) :=
  runStages (augments self) arrays.

(** [for out,aug in zip(outarrs,augArrays): aug[i]=out]. The buffers are
    mutated in place, so what was written before a raise stays written:
    the function returns the buffers together with the outcome. *)
Fixpoint writeRow (i : nat) (outarrs augArrays : list ndarray)
    : result () * list ndarray :=
  match outarrs, augArrays with
  | out :: outarrs', aug :: augArrays' =>
      match setitem aug i out with
      | Ok aug' =>
          let (r, rest) := writeRow i outarrs' augArrays' in (r, aug' :: rest)
      | Raise e => (Raise e, aug :: augArrays')
      end
  | _, _ => (Ok (), augArrays)
  end.

(** The body of the loop of [applyAugments] and of [applyAugmentsProc] for
    one index [i]. *)
Definition augmentRow (augments : list stage) (arrays : list ndarray) (i : nat)
    (augArrays : list ndarray) : result () * list ndarray :=
  match (inarrs ← mapR (fun a => getitem a i) arrays; runStages augments inarrs) with
  | Raise e => (Raise e, augArrays)
  | Ok outarrs => writeRow i outarrs augArrays
  end.

Fixpoint augmentRows (augments : list stage) (arrays : list ndarray)
    (indices : list nat) (augArrays : list ndarray) : result () * list ndarray :=
  match indices with
  | [] => (Ok (), augArrays)
  | i :: rest =>
      match augmentRow augments arrays i augArrays with
      | (Ok _, augArrays') => augmentRows augments arrays rest augArrays'
      | (Raise e, augArrays') => (Raise e, augArrays')
      end
  end.

Definition applyAugments (self : t) (arrays augArrays : list ndarray)
    (indices : option (list nat)) : result () * list ndarray :=
  match (match indices with
         | Some l => Ok l
         | None =>
             match arrays with
             | [] => Raise IndexError
             | a0 :: _ => n ← shape0 a0; Ok (range n)
             end
         end) with
  | Raise e => (Raise e, augArrays)
  | Ok indices => augmentRows (augments self) arrays indices augArrays
  end.

(** [applyAugmentsProc], run in a pool process on the shared input and
    output arrays and the pipeline the pool was initialised with. *)
Definition applyAugmentsProc (inArrays augs : list ndarray) (augments : list stage)
    (indices : list nat) : result () * list ndarray :=
  augmentRows augments inArrays indices augs.

(** **** [localBatchGen] *)

(** Entering the context: the output buffers are allocated from the shape
    and dtype of the augmented record 0. *)
Definition localBatchGen (self : t) (batchSize : nat) : result (list ndarray) :=
  inArrays ← getIndexBatch self [0];
  firsts ← mapR (fun a => getitem a 0) inArrays;
  augTest ← getAugmentedArrays self firsts;
  Ok (map (fun a => zeros (batchSize :: shape a) (dtype_of a)) augTest).

(** [_getBatch]: the returned tuple is the buffer tuple [augs] itself. *)
Definition _getBatch (self : t) (batchSize : nat) (draw : list nat)
    (augs : list ndarray) : result (list ndarray) * list ndarray :=
  match getRandomBatch self batchSize draw with
  | Raise e => (Raise e, augs)
  | Ok batch =>
      match applyAugments self batch augs (Some (range batchSize)) with
      | (Ok _, augs') => (Ok augs', augs')
      | (Raise e, augs') => (Raise e, augs')
      end
  end.

(** **** [np.array_split(np.arange(batchSize), sections)] *)

Fixpoint split_sizes (l : list nat) (sizes : list nat) : list (list nat) :=
  match sizes with
  | [] => []
  | s :: sizes' => take s l :: split_sizes (drop s l) sizes'
  end.

Definition array_split (l : list nat) (sections : nat) : result (list (list nat)) :=
  if decide (sections = 0) then Raise ValueError
  else
    let each := length l / sections in
    let extras := length l mod sections in
    Ok (split_sizes l
          (replicate extras (each + 1) ++ replicate (sections - extras) each)).

(** [min(batchSize, numThreads or mp.cpu_count())] *)
Definition workerCount (batchSize : nat) (requested : option nat) (cpu_count : nat) : nat :=
  batchSize `min` (match requested with
                   | Some (S k) => S k
                   | _ => cpu_count
                   end).

(** **** The Handoff Slot: [queue.Queue(1)] and [mp.Queue(1)]

      What travels through the slot is a tuple of arrays or, in the process
      strategy, the exception object the producer caught. *)

Inductive item : Type :=
| Batch (arrays : list ndarray)
| Failure (e : exn).

(** How one pass of a producer loop ends: a batch was put and the loop goes
    on; an exception was put and the thread returned; or the exception left
    the thread's target function, nothing was put and the thread is gone. *)
Inductive pass : Type :=
| Published (arrays : list ndarray)
| Reported (e : exn)
| Died (e : exn).

(** What the passes of a producer put into the slot, in order; the flag
    tells whether the producer is still in its loop afterwards. *)
Definition slot_item (p : pass) : option item :=
  match p with
  | Published b => Some (Batch b)
  | Reported e => Some (Failure e)
  | Died _ => None
  end.

(** **** [threadBatchGen] *)

(** Entering the context up to the start of the producer thread: the chunk
    table and the buffers left by one pull of a local generator. *)
Definition threadBatchGen (self : t) (batchSize : nat) (numThreads : option nat)
    (cpu_count : nat) (draw0 : list nat)
    : result (list (list nat) * list ndarray) :=
  let numThreads := workerCount batchSize numThreads cpu_count in
  threadIndices ← array_split (range batchSize) numThreads;
  gen ← localBatchGen self batchSize;
  match _getBatch self batchSize draw0 gen with
  | (Ok augs, _) => _ ← stop "local"; Ok (threadIndices, augs)
  | (Raise e, _) => _ ← stop "local"; Raise e
  end.

(** The worker threads of one pass, one per chunk, all joined before the
    producer goes on. A worker whose target raises ends there: the
    exception stays in that thread and [join] returns normally. The workers
    write disjoint rows; they are run here in the order they are started. *)
Fixpoint runThreads (self : t) (batch : list ndarray)
    (threadIndices : list (list nat)) (augs : list ndarray) : list ndarray :=
  match threadIndices with
  | [] => augs
  | indices :: rest =>
      let (_, augs') := applyAugments self batch augs (Some indices) in
      runThreads self batch rest augs'
  end.

(** One pass of the loop of [_batchThread] in [threadBatchGen]. *)
Definition threadPass (self : t) (batchSize : nat) (threadIndices : list (list nat))
    (draw : list nat) (augs : list ndarray) : pass * list ndarray :=
  match getRandomBatch self batchSize draw with
  | Raise e => (Died e, augs)
  | Ok batch =>
      let augs' := runThreads self batch threadIndices augs in
      (Published (map copy augs'), augs')
  end.

(** **** [processBatchGen] *)

Definition fork_message : string :=
  "Generating batches with processes requires fork() semantics not present in Windows."%string.

(** [str.lower] on ASCII letters. *)
Definition lower_ascii (c : Ascii.ascii) : Ascii.ascii :=
  let n := Ascii.nat_of_ascii c in
  if decide (65 <= n ∧ n <= 90) then Ascii.ascii_of_nat (n + 32) else c.

Fixpoint lower (s : string) : string :=
  match s with
  | EmptyString => EmptyString
  | String c s' => String (lower_ascii c) (lower s')
  end.

(** The shared input and output arrays of the process strategy. [toShared]
    and [fromShared] keep contents, shape and dtype, and the pool processes
    map the same memory, so the pair is one store for parent and pool. *)
Record shared : Type := mkShared {
  inArrays : list ndarray;
  augs : list ndarray
}.

Definition toShared (a : ndarray) : ndarray := a.
Definition fromShared (a : ndarray) : ndarray := a.

(** What entering a context has started besides computing values. *)
Inductive started : Type :=
| NothingStarted
| ProducerStarted.

(** Entering the context: the platform assertion comes first, the producer
    thread is started last. *)
Definition processBatchGen (self : t) (platform_system : string) (batchSize : nat)
    (numProcs : option nat) (cpu_count : nat) (draw0 : list nat)
    : result (list (list nat) * shared) * started :=
  if decide (lower platform_system = "windows"%string)
  then (Raise (AssertionError fork_message), NothingStarted)
  else
    let numProcs := workerCount batchSize numProcs cpu_count in
    match (procIndices ← array_split (range batchSize) numProcs;
           gen ← localBatchGen self batchSize;
           augs ← match _getBatch self batchSize draw0 gen with
                  | (Ok augs, _) => _ ← stop "local"; Ok (map toShared augs)
                  | (Raise e, _) => _ ← stop "local"; Raise e
                  end;
           inArrays ← getIndexBatch self (range batchSize);
           Ok (procIndices, mkShared (map toShared inArrays) augs)) with
    | Ok g => (Ok g, ProducerStarted)
    | Raise e => (Raise e, NothingStarted)
    end.

(** [for a,b in zip(inArrays,batch): a[...]=b] *)
Fixpoint refreshInputs (inArrays batch : list ndarray) : result () * list ndarray :=
  match inArrays, batch with
  | a :: inArrays', b :: batch' =>
      match assign_all a b with
      | Ok a' =>
          let (r, rest) := refreshInputs inArrays' batch' in (r, a' :: rest)
      | Raise e => (Raise e, a :: inArrays')
      end
  | _, _ => (Ok (), inArrays)
  end.

(** [p.map(applyAugmentsProc,procIndices)]: every chunk is a task of the
    pool; [map] returns when all are done and re-raises in the parent the
    first exception a task raised. The first is taken in the order of the
    list; when several tasks raise, the pool re-raises the one that arrives
    first, so the theorems use of this order only that [map] raises when a
    task does, and what it raises when the tasks that raise raise the
    same. *)
Fixpoint poolMap (augments : list stage) (procIndices : list (list nat))
    (sh : shared) : result () * shared :=
  match procIndices with
  | [] => (Ok (), sh)
  | indices :: rest =>
      let (r, augs') := applyAugmentsProc (inArrays sh) (augs sh) augments indices in
      let (r', sh') := poolMap augments rest (mkShared (inArrays sh) augs') in
      (match r with Ok _ => r' | Raise e => Raise e end, sh')
  end.

(** One pass of the loop of [_batchThread] in [processBatchGen]; any
    exception is caught by the [except] around the loop and put into the
    slot. *)
Definition processPass (self : t) (batchSize : nat) (procIndices : list (list nat))
    (maugs : list stage) (draw : list nat) (sh : shared) : pass * shared :=
  match getRandomBatch self batchSize draw with
  | Raise e => (Reported e, sh)
  | Ok batch =>
      match refreshInputs (map fromShared (inArrays sh)) batch with
      | (Raise e, ins) => (Reported e, mkShared ins (augs sh))
      | (Ok _, ins) =>
          let sh1 := mkShared ins (augs sh) in
          match (match maugs with
                 | [] => (Ok (), sh1)
                 | _ :: _ => poolMap maugs procIndices sh1
                 end) with
          | (Raise e, sh2) => (Reported e, sh2)
          | (Ok _, sh2) => (Published (map copy (map fromShared (augs sh2))), sh2)
          end
      end
  end.

(** [_get]: what [pull] does in the process strategy. *)
Definition _get (v : item) : result (list ndarray) :=
  match v with
  | Batch b => Ok b
  | Failure e => Raise e
  end.

(** The producer loop over the samples the environment supplies, one per
    pass: the items put into the slot in order, and the state the loop
    stopped in. The loop ends with the first pass that does not publish. *)
Fixpoint produce {S : Type} (onePass : list nat -> S -> pass * S)
    (draws : list (list nat)) (st : S) : list pass * S :=
  match draws with
  | [] => ([], st)
  | draw :: rest =>
      match onePass draw st with
      | (Published b, st') =>
          let (ps, st'') := produce onePass rest st' in (Published b :: ps, st'')
      | (p, st') => ([p], st')
      end
  end.

(** **** Well-formed stores and batch-shaped tuples *)

(** A store of [n] aligned records: at least one backing array, every array
    with [n] rows, and selection weights, when given, of that length. *)
Definition store_ok (self : t) (n : nat) : Prop :=
  arrays self <> []
  /\ Forall (fun a => exists s, shape a = n :: s) (arrays self)
  /\ match selectProbs self with
     | Some ps => length ps = n
     | None => True
     end.

(** One array per backing array, of [batchSize] rows of that array's record
    shape and of its dtype. *)
Definition batch_shaped (self : t) (batchSize : nat) (b : list ndarray) : Prop :=
  map shape b = map (fun a => batchSize :: tail (shape a)) (arrays self)
  /\ map dtype_of b = map dtype_of (arrays self).

(** A stage that returns well-formed arrays on well-formed arrays. *)
Definition stage_wf (st : stage) : Prop :=
  forall arrs outs, Forall wf arrs -> st arrs = Ok outs -> Forall wf outs.

(** Row [k] of the buffer [aug'] holds the value [out] as numpy stores it
    into a row of the buffer [aug]: broadcast to the row's shape, under the
    buffer's dtype. *)
Definition row_holds (aug aug' : ndarray) (k : nat) (out : ndarray) : Prop :=
  exists d, broadcast_to out (tail (shape aug)) = Ok d
            /\ getitem aug' k = Ok (mkArray (dtype_of aug) (tail (shape aug)) d).

(** What the pipeline returns for the rows of [batch] is stored into the
    buffers without a cast: output [j] has the dtype of buffer [j]. *)
Definition stored_uncast (self : t) (batch augs : list ndarray) : Prop :=
  forall k inarrs outarrs j o aug,
    mapR (fun a => getitem a k) batch = Ok inarrs ->
    getAugmentedArrays self inarrs = Ok outarrs ->
    outarrs !! j = Some o -> augs !! j = Some aug ->
    dtype_of o = dtype_of aug.

(** The buffer [aug'] is the buffer [aug] with some rows rewritten, the rows
    outside [l] being as they were. *)
Definition same_but (l : list nat) (aug aug' : ndarray) : Prop :=
  shape aug' = shape aug /\ dtype_of aug' = dtype_of aug /\ wf aug'
  /\ forall k, k ∉ l -> getitem aug' k = getitem aug k.

(** The items the consumer pulls out of the slot, in order. *)
Definition slot_items (ps : list pass) : list item := omap slot_item ps.

End DataSource.

(** *** Stages that draw random numbers

    The stages of the repository draw from [np.random] when they are
    called. This module follows the row loop with the state [G] of the
    generator a stage finds and leaves: the inline loop and the worker
    threads use the generator of the process they run in, and every process
    of the pool has the copy of it that [fork] gave it. *)

Module Seeded.
Import DataSource.

Section Generator.
Context {G : Type}.

(** A stage called on a record tuple with the generator in a given state:
    what it returns or raises, and the state it leaves. *)
Definition stage : Type := list ndarray -> G -> result (list ndarray) * G.

(** A stage that is a function of the record tuple alone: it draws nothing
    and leaves the generator as it is. *)
Definition lift (f : DataSource.stage) : stage := fun arrays g => (f arrays, g).

(** The loop of [getAugmentedArrays]. *)
Fixpoint runStages (augments : list stage) (arrays : list ndarray) (g : G)
    : result (list ndarray) * G :=
  match augments with
  | [] => (Ok arrays, g)
  | aug :: rest =>
      match aug arrays g with
      | (Ok arrays', g') => runStages rest arrays' g'
      | (Raise e, g') => (Raise e, g')
      end
  end.

(** The body of the loop of [applyAugments] and of [applyAugmentsProc] for
    one index [i]. *)
Definition augmentRow (augments : list stage) (arrays : list ndarray) (i : nat)
    (augArrays : list ndarray) (g : G) : result () * list ndarray * G :=
  match mapR (fun a => getitem a i) arrays with
  | Raise e => (Raise e, augArrays, g)
  | Ok inarrs =>
      match runStages augments inarrs g with
      | (Raise e, g') => (Raise e, augArrays, g')
      | (Ok outarrs, g') => (writeRow i outarrs augArrays, g')
      end
  end.

Fixpoint augmentRows (augments : list stage) (arrays : list ndarray)
    (indices : list nat) (augArrays : list ndarray) (g : G)
    : result () * list ndarray * G :=
  match indices with
  | [] => (Ok (), augArrays, g)
  | i :: rest =>
      match augmentRow augments arrays i augArrays g with
      | (Ok _, augArrays', g') => augmentRows augments arrays rest augArrays' g'
      | (Raise e, augArrays', g') => (Raise e, augArrays', g')
      end
  end.

(** [applyAugments], as the inline strategy calls it on the whole index
    range and a worker thread on its chunk. *)
Definition applyAugments (augments : list stage) (arrays augArrays : list ndarray)
    (indices : option (list nat)) (g : G) : result () * list ndarray * G :=
  match (match indices with
         | Some l => Ok l
         | None =>
             match arrays with
             | [] => Raise IndexError
             | a0 :: _ => n ← shape0 a0; Ok (range n)
             end
         end) with
  | Raise e => (Raise e, augArrays, g)
  | Ok indices => augmentRows augments arrays indices augArrays g
  end.

(** The worker threads that are not done, each running to its end, in the
    order they were started. A worker whose target raises ends there. *)
Fixpoint finishThreads (augments : list stage) (batch : list ndarray)
    (workers : list (list nat)) (augs : list ndarray) (g : G)
    : list ndarray * G :=
  match workers with
  | [] => (augs, g)
  | indices :: rest =>
      let '(_, augs', g') := applyAugments augments batch augs (Some indices) g in
      finishThreads augments batch rest augs' g'
  end.

(** The worker threads of one pass, one per chunk, until all are joined.
    They share the buffers and the generator of the process. [turns] names
    the workers in the order the interpreter lets them run, one row of
    the loop of [applyAugments] per turn; [workers] holds the rows each has
    still to do. After the turns listed the workers run to their end one
    after the other. (Threads also change places inside a row; a row is
    the unit here.) *)
Fixpoint runThreads (augments : list stage) (batch : list ndarray)
    (turns : list nat) (workers : list (list nat)) (augs : list ndarray) (g : G)
    : list ndarray * G :=
  match turns with
  | [] => finishThreads augments batch workers augs g
  | w :: turns' =>
      match workers !! w with
      | Some (i :: rows) =>
          let '(r, augs', g') := augmentRow augments batch i augs g in
          runThreads augments batch turns'
            (<[w := match r with Ok _ => rows | Raise _ => [] end]> workers)
            augs' g'
      | _ => runThreads augments batch turns' workers augs g
      end
  end.

(** The generators of the pool's processes after process [w] has left its
    own in state [g]. *)
Definition set_gen (gens : nat -> G) (w : nat) (g : G) : nat -> G :=
  fun w' => if decide (w' = w) then g else gens w'.

(** [p.map(applyAugmentsProc,procIndices)]: every chunk is a task that one
    process of the pool runs on the shared arrays with its own generator;
    [assign] gives the process that takes the chunk at each position, and
    the tasks of one process run in the order of the list. [gens] holds the
    state of the generator of every process. The tasks write disjoint rows,
    so they are followed here one after the other. The outcome of every task
    is returned: [map] returns when none of them raised, and re-raises one
    of the exceptions otherwise. *)
Fixpoint poolMap (augments : list stage) (assign : nat -> nat) (k : nat)
    (procIndices : list (list nat)) (gens : nat -> G) (sh : shared)
    : list (result ()) * (nat -> G) * shared :=
  match procIndices with
  | [] => ([], gens, sh)
  | indices :: rest =>
      let '(r, augs', g') :=
        augmentRows augments (inArrays sh) indices (augs sh) (gens (assign k)) in
      let '(rs, gens', sh') :=
        poolMap augments assign (S k) rest (set_gen gens (assign k) g')
          (mkShared (inArrays sh) augs') in
      (r :: rs, gens', sh')
  end.

End Generator.

End Seeded.

(** *** The blocking behaviour of the Handoff Slot

    [Queue.get(block)] on the capacity-1 queue: with an item in the slot the
    call returns it; on an empty slot it raises [queue.Empty] when [block]
    is false and waits for a [put] when [block] is true (no timeout is
    given anywhere in the sources). *)

Module Handoff.
Import DataSource.

Inductive got : Type :=
| Item (v : item)
| RaisesEmpty
| Waits.

Definition get (block : bool) (slot : option item) : got * option item :=
  match slot with
  | Some v => (Item v, None)
  | None => (if block then Waits else RaisesEmpty, None)
  end.

(** Where the producer thread is once [isRunning] is false: inside a pass
    that will end by putting [v]; at [put] with [v] in hand; or returned
    from its target function (the loop test failed, the [except] clause
    ran, or an exception ended the thread). *)
Inductive producer : Type :=
| InPass (v : item)
| AtPut (v : item)
| Returned.

(** Where the thread running the [finally] block is. *)
Inductive releaser : Type :=
| Draining
| Released.

Record state : Type := mkState {
  slot : option item;
  prod : producer;
  rel : releaser
}.

(** The argument the [finally] blocks of [threadBatchGen] and
    [processBatchGen] pass to [batchQueue.get]. *)
Definition release_block : bool := true.

(** The steps of the two threads after [isRunning=False] and [stop]. The
    drain is [try: batchQueue.get(block) except queue.Empty: pass]. *)
Inductive step (block : bool) : state -> state -> Prop :=
| step_pass v s r :
    step block (mkState s (InPass v) r) (mkState s (AtPut v) r)
| step_put v r :
    step block (mkState None (AtPut v) r) (mkState (Some v) Returned r)
| step_drain s s' p v :
    get block s = (Item v, s') ->
    step block (mkState s p Draining) (mkState s' p Released)
| step_empty s s' p :
    get block s = (RaisesEmpty, s') ->
    step block (mkState s p Draining) (mkState s' p Released).

Inductive steps (block : bool) : state -> state -> Prop :=
| steps_refl st : steps block st st
| steps_step st1 st2 st3 :
    step block st1 st2 -> steps block st2 st3 -> steps block st1 st3.

(** The release completes on some schedule. *)
Definition can_release (block : bool) (st : state) : Prop :=
  exists st', steps block st st' /\ rel st' = Released.

(** The state in which a [finally] block reaches its drain when the
    producer has returned and the consumer has pulled what it had put: the
    process strategy after [pull] raised the reported exception, or either
    strategy after the thread ended on its own. *)
Definition producer_gone : state := mkState None Returned Draining.

(** The same moment with the producer still inside a pass. *)
Definition producer_busy (v : item) : state := mkState None (InPass v) Draining.

End Handoff.

(** *** datasource.py: [BufferDataSource] *)

Module BufferDataSource.
Import DataSource.

(** The loop of [appendBuffer] from index [i] on, over the [n] indices
    still to visit. Assignments made before a raise stay made. *)
Fixpoint appendLoop (n i : nat) (own arrays : list ndarray)
    : result () * list ndarray :=
  match n with
  | 0 => (Ok (), own)
  | S n' =>
      match own !! i, arrays !! i with
      | Some a, Some b =>
          match concatenate a b with
          | Ok c => appendLoop n' (S i) (<[i:=c]> own) arrays
          | Raise e => (Raise e, own)
          end
      | _, _ => (Raise IndexError, own)
      end
  end.

(** [np.ones((size,))/size] *)
Definition uniform (size : nat) : list Q :=
  replicate size (1 / inject_Z (Z.of_nat size))%Q.

Definition appendBuffer (self : t) (new : list ndarray) : result () * t :=
  let (r, own) :=
    match arrays self with
    | [] => (Ok (), new)
    | _ :: _ => appendLoop (length (arrays self)) 0 (arrays self) new
    end in
  let self1 := mkSource own (selectProbs self) (augments self) in
  match r with
  | Raise e => (Raise e, self1)
  | Ok _ =>
      match selectProbs self with
      | None => (Ok (), self1)
      | Some _ =>
          match (a0 ← first_array self1; shape0 a0) with
          | Ok size => (Ok (), mkSource own (Some (uniform size)) (augments self))
          | Raise e => (Raise e, self1)
          end
      end
  end.

Definition bufferSize (self : t) : result nat :=
  match arrays self with
  | [] => Ok 0
  | a0 :: _ => shape0 a0
  end.

Definition clearBuffer (self : t) : result () * t :=
  match bufferSize self with
  | Raise e => (Raise e, self)
  | Ok n =>
      if decide (0 < n)
      then (Ok (), mkSource [] (take 0 <$> selectProbs self) (augments self))
      else (Ok (), self)
  end.

End BufferDataSource.

(** *** datasource.py: [FileDataSource]

    [imageCache] is a Python dict: its keys are unique and are iterated in
    insertion order, so it is kept as an association list in that order. *)

Module FileDataSource.

Definition dict : Type := list (string * ndarray).

(** [d[k]] *)
Fixpoint dict_get (k : string) (d : dict) : option ndarray :=
  match d with
  | [] => None
  | (k', v) :: d' => if decide (k = k') then Some v else dict_get k d'
  end.

(** [d[k]=v]: a present key keeps its place, a new key goes last. *)
Fixpoint dict_set (k : string) (v : ndarray) (d : dict) : dict :=
  match d with
  | [] => [(k, v)]
  | (k', v') :: d' =>
      if decide (k = k') then (k, v) :: d' else (k', v') :: dict_set k v d'
  end.

(** [del d[k]] *)
Fixpoint dict_del (k : string) (d : dict) : dict :=
  match d with
  | [] => []
  | (k', v') :: d' =>
      if decide (k = k') then d' else (k', v') :: dict_del k d'
  end.

(** [list(d)] *)
Definition dict_keys (d : dict) : list string := map fst d.

Record t : Type := mkFiles {
  arrays : list (list string);
  imageCache : dict;
  currentSize : Z;
  maxSize : Z;
  selectProbs : option (list Q)
}.

Definition set_cache (self : t) (c : dict) (size : Z) : t :=
  mkFiles (arrays self) c size (maxSize self) (selectProbs self).

(** [__init__]: all file lists must have the length of the first. *)
Definition init (filelists : list (list string)) (maxSize : Z)
    (selectProbs : option (list Q)) : result t :=
  match filelists with
  | f0 :: _ =>
      if decide (Forall (fun f => length f = length f0) filelists)
      then Ok (mkFiles filelists [] 0 maxSize selectProbs)
      else Raise (AssertionError "All members of `filelists' must be the same length")
  | [] => Ok (mkFiles [] [] 0 maxSize selectProbs)
  end.

Section WithFiles.

(** [loadFile]: what decoding the file at a path gives. *)
Variable loadFile : string -> result ndarray.

Definition _getCachedFile (path : string) (self : t) : result ndarray * t :=
  match dict_get path (imageCache self) with
  | Some im => (Ok im, self)
  | None =>
      match loadFile path with
      | Raise e => (Raise e, self)
      | Ok im =>
          (Ok im,
           set_cache self (dict_set path im (imageCache self))
             (currentSize self + Z.of_nat (nbytes im)))
      end
  end.

(** The [while] loop of [_removeFiles] over the remaining candidates. *)
Fixpoint removeLoop (candidates : list string) (self : t) : result () * t :=
  match candidates with
  | [] => (Ok (), self)
  | c :: candidates' =>
      if decide (currentSize self > maxSize self)%Z
      then match dict_get c (imageCache self) with
           | None => (Raise KeyError, self)
           | Some im =>
               removeLoop candidates'
                 (set_cache self (dict_del c (imageCache self))
                    (currentSize self - Z.of_nat (nbytes im)))
           end
      else (Ok (), self)
  end.

Definition _removeFiles (self : t) : result () * t :=
  if decide (maxSize self <= 0)%Z then (Ok (), self)
  else removeLoop (dict_keys (imageCache self)) self.

(** [for i,c in enumerate(chosen): out[i]=self._getCachedFile(c)] *)
Fixpoint fillRows (i : nat) (chosen : list string) (out : ndarray) (self : t)
    : result ndarray * t :=
  match chosen with
  | [] => (Ok out, self)
  | c :: chosen' =>
      match _getCachedFile c self with
      | (Raise e, self') => (Raise e, self')
      | (Ok im, self') =>
          match setitem out i im with
          | Raise e => (Raise e, self')
          | Ok out' => fillRows (S i) chosen' out' self'
          end
      end
  end.

(** The body of [for arr in self.arrays] in [_dataGen]. *)
Definition fetchArray (chosenInds : list nat) (arr : list string) (self : t)
    : result ndarray * t :=
  match mapR (fun i => match arr !! i with
                       | Some p => Ok p
                       | None => Raise IndexError
                       end) chosenInds with
  | Raise e => (Raise e, self)
  | Ok [] => (Raise IndexError, self)
  | Ok (c0 :: chosen') =>
      match _getCachedFile c0 self with
      | (Raise e, self') => (Raise e, self')
      | (Ok im, self') =>
          fillRows 0 (c0 :: chosen')
            (zeros (length chosenInds :: shape im) (dtype_of im)) self'
      end
  end.

Fixpoint fetchArrays (chosenInds : list nat) (arrs : list (list string)) (self : t)
    : result (list ndarray) * t :=
  match arrs with
  | [] => (Ok [], self)
  | arr :: arrs' =>
      match fetchArray chosenInds arr self with
      | (Raise e, self') => (Raise e, self')
      | (Ok out, self') =>
          match fetchArrays chosenInds arrs' self' with
          | (Raise e, self'') => (Raise e, self'')
          | (Ok outs, self'') => (Ok (out :: outs), self'')
          end
      end
  end.

Definition _dataGen (batchSize : nat) (selectProbs : option (list Q))
    (chosenInds : option (list nat)) (draw : list nat) (self : t)
    : result (list ndarray) * t :=
  match (match chosenInds with
         | Some c => Ok c
         | None =>
             match arrays self with
             | [] => Raise IndexError
             | a0 :: _ =>
                 DataSource.random_choice (length a0) batchSize selectProbs draw
             end
         end) with
  | Raise e => (Raise e, self)
  | Ok chosenInds =>
      match fetchArrays chosenInds (arrays self) self with
      | (Raise e, self') => (Raise e, self')
      | (Ok outs, self') =>
          match _removeFiles self' with
          | (Raise e, self'') => (Raise e, self'')
          | (Ok _, self'') => (Ok outs, self'')
          end
      end
  end.

End WithFiles.

(** Total bytes of the images held in a cache. *)
Definition cached_bytes (d : dict) : Z :=
  foldr (fun kv acc => Z.of_nat (nbytes kv.2) + acc)%Z 0%Z d.

(** The invariant tying [currentSize] to [imageCache]. *)
Definition size_inv (self : t) : Prop :=
  currentSize self = cached_bytes (imageCache self).

(** How many of the oldest entries the loop of [_removeFiles] takes out of
    the cache [d] when the recorded size is [cur] and the budget [max]. *)
Fixpoint evict_count (cur max : Z) (d : dict) : nat :=
  match d with
  | [] => 0
  | (_, im) :: d' =>
      if decide (cur > max)%Z
      then S (evict_count (cur - Z.of_nat (nbytes im)) max d')
      else 0
  end.

(** The states a file store goes through: the one [__init__] builds, and
    the one any call of [_dataGen] leaves, whether it returned or raised. *)
Inductive reachable (loadFile : string -> result ndarray) : t -> Prop :=
| reach_init filelists maxSize selectProbs self :
    init filelists maxSize selectProbs = Ok self ->
    reachable loadFile self
| reach_fetch batchSize probs chosenInds draw self :
    reachable loadFile self ->
    reachable loadFile (_dataGen loadFile batchSize probs chosenInds draw self).2.

(** Every cached image is the one [loadFile] gives for its path. *)
Definition cache_faithful (loadFile : string -> result ndarray) (self : t) : Prop :=
  forall p im, dict_get p (imageCache self) = Some im -> loadFile p = Ok im.

(** The files of a store all decode to well-formed images of shape [s] and
    dtype [d]. *)
Definition images_of (loadFile : string -> result ndarray) (s : list nat)
    (d : dtype) (self : t) : Prop :=
  forall arr p, arr ∈ arrays self -> p ∈ arr ->
    exists im, loadFile p = Ok im /\ shape im = s /\ dtype_of im = d /\ wf im.

End FileDataSource.

(** *** augments.py: the [augment] decorator

    [_func] calls two things it does not define: [trainutils.randChoice] and
    the decorated [func], which builds the transform. Both are kept as
    calls of a small program type, so that what [_func] calls, how often and
    in which order can be stated; a handler supplies their answers. *)

Module Augments.

Section Augment.

(** [R] is an array of the record tuple, [K] the keyword arguments meant
    for [func]. *)
Context {R K : Type}.

(** The keyword arguments of a call: [prob] and [applyIndices] when they
    are given, and the rest. [applyIndices=None] can be given. *)
Record kwargs : Type := mkKwargs {
  kw_prob : option Q;
  kw_applyIndices : option (option (list Z));
  kw_rest : K
}.

Inductive prog (A : Type) : Type :=
| Ret (a : A)
| Throw (e : exn)
| RandChoice (p : Q) (k : bool -> prog A)
| Func (args : list R) (kw : K) (k : (R -> result R) -> prog A).
Arguments Ret {A} a.
Arguments Throw {A} e.
Arguments RandChoice {A} p k.
Arguments Func {A} args kw k.

(** [kwargs.pop(key, default)] *)
Definition pop {A} (given : option A) (default : A) : A :=
  match given with
  | Some v => v
  | None => default
  end.

(** [_applyIndices or range(len(args))]: [None] and the empty list are
    both false. *)
Definition indices_or_all (applyIndices : option (list Z)) (n : nat) : list Z :=
  match applyIndices with
  | Some (i :: l) => i :: l
  | _ => map Z.of_nat (range n)
  end.

(** [tuple((op(im) if i in indices else im) for i,im in enumerate(args))]:
    the positions are visited in order, and the first call of [op] that
    raises ends the construction of the tuple. *)
Definition applyAt (op : R -> result R) (indices : list Z) (args : list R)
    : result (list R) :=
  mapR (fun r => r)
    (imap (fun i im => if decide (Z.of_nat i ∈ indices) then op im else Ok im) args).

(** [_func], for the decorator arguments [prob] and [applyIndices]. *)
Definition _func (prob : Q) (applyIndices : option (list Z))
    (args : list R) (kw : kwargs) : prog (list R) :=
  let _prob := pop (kw_prob kw) prob in
  let apply :=
    let _applyIndices := pop (kw_applyIndices kw) applyIndices in
    Func args (kw_rest kw) (fun op =>
      let indices := indices_or_all _applyIndices (length args) in
      match applyAt op indices args with
      | Ok out => Ret out
      | Raise e => Throw e
      end) in
  if Qlt_le_dec _prob 1
  then RandChoice _prob (fun chosen => if negb chosen then Ret args else apply)
  else apply.

(** Running a program against handlers for the two calls, with the state
    [G] of the random generator threaded through; the calls made are
    logged in order. The decorated [func] returns the transform or raises,
    and so does the transform on an array; an exception of either leaves
    [_func] as it is. *)
Inductive event : Type :=
| RandChoiceCalled (p : Q) (answer : bool)
| FuncCalled (args : list R) (kw : K).

Fixpoint run {A G} (randChoice : Q -> G -> bool * G)
    (func : list R -> K -> G -> result (R -> result R) * G)
    (m : prog A) (g : G) : result A * list event * G :=
  match m with
  | Ret a => (Ok a, [], g)
  | Throw e => (Raise e, [], g)
  | RandChoice p k =>
      let (b, g') := randChoice p g in
      let '(a, log, g'') := run randChoice func (k b) g' in
      (a, RandChoiceCalled p b :: log, g'')
  | Func args kw k =>
      match func args kw g with
      | (Raise e, g') => (Raise e, [FuncCalled args kw], g')
      | (Ok op, g') =>
          let '(a, log, g'') := run randChoice func (k op) g' in
          (a, FuncCalled args kw :: log, g'')
      end
  end.

(** The outcome of the lines of [_func] after the coin, from the
    generator state [g1] they start in: the call of [func], then the
    tuple. *)
Definition applied {G} (func : list R -> K -> G -> result (R -> result R) * G)
    (applyIndices : option (list Z)) (args : list R) (kw : kwargs) (g1 : G)
    : result (list R) * list event * G :=
  match func args (kw_rest kw) g1 with
  | (Raise e, g2) => (Raise e, [FuncCalled args (kw_rest kw)], g2)
  | (Ok op, g2) =>
      (applyAt op
         (indices_or_all (pop (kw_applyIndices kw) applyIndices) (length args))
         args,
       [FuncCalled args (kw_rest kw)], g2)
  end.

(** Following the words of the specification: the positions of the target
    index set are replaced, all positions when no set is given. *)
Definition spec_targets (applyIndices : option (list Z)) (n : nat) : list Z :=
  match applyIndices with
  | Some l => l
  | None => map Z.of_nat (range n)
  end.

End Augment.

Arguments kwargs : clear implicits.
Arguments prog : clear implicits.
Arguments event : clear implicits.

End Augments.

(** *** augments.py: [randPatch]

    The function [randPatch] builds the transform that cuts one patch out
    of every array of a record. Its keyword [patchSize] is taken as a pair
    of sizes that are not negative. The pairs [np.random.randint] answers
    in the calls for the row and the column offset are the environment's:
    [draws k] is the [k]-th pair. *)

Module Transforms.

(** [t[i]] on a tuple, with Python's negative indices. *)
Definition tuple_getitem {A} (t : list A) (i : Z) : result A :=
  let j := if decide (i < 0)%Z then (i + Z.of_nat (length t))%Z else i in
  if decide (0 <= j)%Z
  then match t !! Z.to_nat j with
       | Some x => Ok x
       | None => Raise IndexError
       end
  else Raise IndexError.

(** [h,w=testim.shape[:2]]: unpacking fails with [ValueError] on an array
    of fewer than two axes. *)
Definition shape2 (a : ndarray) : result (nat * nat) :=
  match shape a with
  | h :: w :: _ => Ok (h, w)
  | _ => Raise ValueError
  end.

(** [ry=np.random.randint(0,h-ph); rx=np.random.randint(0,w-pw)] *)
Definition offsets (h w ph pw : nat) (draw : nat * nat) : result (nat * nat) :=
  ry ← randint 0 (Z.of_nat h - Z.of_nat ph) draw.1;
  rx ← randint 0 (Z.of_nat w - Z.of_nat pw) draw.2;
  Ok (ry, rx).

(** [for i in range(maxcount)]: the loop that looks for a patch of [testim]
    with a positive element; [k] counts the pairs drawn so far. *)
Fixpoint search (testim : ndarray) (h w ph pw : nat) (draws : nat -> nat * nat)
    (k count ry rx : nat) : result (nat * nat) :=
  match count with
  | 0 => Ok (ry, rx)
  | S count' =>
      patch ← getpatch testim ry ph rx pw;
      m ← amax patch;
      if decide (m > 0)%Z then Ok (ry, rx)
      else
        next ← offsets h w ph pw (draws k);
        search testim h w ph pw draws (S k) count' next.1 next.2
  end.

(** The offsets [ry], [rx] the body of [randPatch] ends with. *)
Definition randPatch_offsets (arrs : list ndarray) (patchSize : nat * nat)
    (maxcount : nat) (nonzeroIndex : Z) (draws : nat -> nat * nat)
    : result (nat * nat) :=
  testim ← tuple_getitem arrs nonzeroIndex;
  hw ← shape2 testim;
  first ← offsets hw.1 hw.2 patchSize.1 patchSize.2 (draws 0);
  if decide (nonzeroIndex <> (-1))%Z
  then search testim hw.1 hw.2 patchSize.1 patchSize.2 draws 1 maxcount
         first.1 first.2
  else Ok first.

(** [randPatch]: the transform [lambda im: im[ry:ry+ph,rx:rx+pw]]. *)
Definition randPatch (arrs : list ndarray) (patchSize : nat * nat)
    (maxcount : nat) (nonzeroIndex : Z) (draws : nat -> nat * nat)
    : result (ndarray -> result ndarray) :=
  yx ← randPatch_offsets arrs patchSize maxcount nonzeroIndex draws;
  Ok (fun im => getpatch im yx.1 patchSize.1 yx.2 patchSize.2).

(** What numpy guarantees of the pairs drawn for an image of [h] rows and
    [w] columns. *)
Definition valid_draws (h w ph pw : nat) (draws : nat -> nat * nat) : Prop :=
  forall k, (draws k).1 < h - ph /\ (draws k).2 < w - pw.

(** The element of [im] at row [r] and column [c]: [im[r][c]]. *)
Definition at2 (im : ndarray) (r c : nat) : result ndarray :=
  row ← getitem im r; getitem row c.

(** The patch of [testim] at the [k]-th drawn pair has a positive element. *)
Definition lit (testim : ndarray) (ph pw : nat) (draws : nat -> nat * nat)
    (k : nat) : Prop :=
  exists patch m,
    getpatch testim (draws k).1 ph (draws k).2 pw = Ok patch
    /\ amax patch = Ok m /\ (m > 0)%Z.

End Transforms.

(** *** Concrete stores used to run the definitions *)

Module Examples.
Import DataSource.

(** Three image files of four bytes each and a budget of eight bytes. *)
Definition loadFile (path : string) : result ndarray :=
  Ok (mkArray uint8 [2; 2] (replicate 4 (Z.of_nat (String.length path)))).

Definition files : FileDataSource.t :=
  FileDataSource.mkFiles [["a"; "bb"; "ccc"]%string] [] 0 8 None.

Definition fetched : result (list ndarray) * FileDataSource.t :=
  FileDataSource._dataGen loadFile 3 None (Some [0; 1; 2]) [] files.

Definition fetched_outs : list ndarray :=
  match fetched.1 with
  | Ok outs => outs
  | Raise _ => []
  end.

(** A store of three records, each a pair of numbers with a label. *)
Definition records : ndarray := mkArray int64 [3; 2] [10; 11; 20; 21; 30; 31]%Z.
Definition labels : ndarray := mkArray int64 [3] [1; 2; 3]%Z.
Definition source : t := mkSource [records; labels] None [].

(** One more record for the buffering store. *)
Definition moreRecords : ndarray := mkArray int64 [1; 2] [40; 41]%Z.
Definition moreLabels : ndarray := mkArray int64 [1] [4]%Z.
Definition recordsOnly : t := mkSource [records] None [].

(** The same store with a one-stage pipeline that doubles every element, a
    batch drawn from it and the output buffers its local generator
    allocates. *)
Definition doubled : stage :=
  fun arrs =>
    Ok (map (fun a => mkArray (dtype_of a) (shape a) (map (Z.mul 2) (data a))) arrs).

Definition augmented : t := mkSource [records; labels] None [doubled].

Definition batch201 : list ndarray :=
  match getRandomBatch augmented 3 [2; 0; 1] with
  | Ok b => b
  | Raise _ => []
  end.

Definition buffers : list ndarray :=
  match localBatchGen augmented 3 with
  | Ok b => b
  | Raise _ => []
  end.

Definition inlineOut : list ndarray :=
  [mkArray int64 [3; 2] [60; 62; 20; 22; 40; 42]%Z; mkArray int64 [3] [6; 2; 4]%Z].

(** A store of two scalar records and no pipeline, entered with the process
    strategy for batches of one record; the local pull made on entering
    drew record 0. *)
Definition pair : t := mkSource [mkArray int64 [2] [10; 20]%Z] None [].

Definition pairShared : shared :=
  mkShared [mkArray int64 [1] [10]%Z] [mkArray int64 [1] [10]%Z].

(** A stage that fails on records whose first element is 30 or more, in a
    pipeline on the three-record store: record 0 passes, record 2 fails. *)
Definition picky : stage :=
  fun arrs =>
    match arrs with
    | a :: _ =>
        match data a with
        | x :: _ => if decide (30 <= x)%Z then Raise (Exception "too large") else Ok arrs
        | [] => Ok arrs
        end
    | [] => Ok arrs
    end.

Definition guarded : t := mkSource [records; labels] None [picky].

(** The buffers both strategies hold for [guarded] after entering with
    batches of two records, the local pull having drawn record 0 twice. *)
Definition guardedBuffers : list ndarray :=
  [mkArray int64 [2; 2] [10; 11; 10; 11]%Z; mkArray int64 [2] [1; 1]%Z].

(** The store [guarded] after its arrays were dropped. *)
Definition emptied : t := mkSource [] None [picky].

(** A store of a single record. *)
Definition single : t := mkSource [mkArray float32 [1; 2] [7; 8]%Z] None [].

(** A random generator that answers [randChoice] from a list of coin flips,
    and a decorated function whose transform adds one. *)
Definition coin (p : Q) (g : list bool) : bool * list bool :=
  match g with
  | b :: g' => (b, g')
  | [] => (true, [])
  end.

Definition succ_func (args : list Z) (kw : ()) (g : list bool)
    : result (Z -> result Z) * list bool :=
  (Ok (fun z => Ok (Z.succ z)), g).

(** A decorated function that raises, and one whose transform raises on
    negative numbers. *)
Definition failing_func (args : list Z) (kw : ()) (g : list bool)
    : result (Z -> result Z) * list bool :=
  (Raise ValueError, g).

Definition sqrt_func (args : list Z) (kw : ()) (g : list bool)
    : result (Z -> result Z) * list bool :=
  (Ok (fun z => if decide (z < 0)%Z then Raise ValueError else Ok (Z.sqrt z)), g).

End Examples.

(** *** More concrete cases, on the stores above *)

Module Cases.
Import DataSource.

(** Output buffers of two rows for the store [Examples.source], and the
    batch of its records 2 and 0. *)
Definition buffers2 : list ndarray := [zeros [2; 2] int64; zeros [2] int64].

Definition batch20 : list ndarray :=
  [mkArray int64 [2; 2] [30; 31; 10; 11]%Z; mkArray int64 [2] [3; 1]%Z].

(** The same batch with every element doubled. *)
Definition doubled20 : list ndarray :=
  [mkArray int64 [2; 2] [60; 62; 20; 22]%Z; mkArray int64 [2] [6; 2]%Z].

(** The shared arrays of the process strategy on [Examples.augmented] for
    batches of two rows, as entering leaves them. *)
Definition shared2 : shared :=
  mkShared
    [mkArray int64 [2; 2] [10; 11; 20; 21]%Z; mkArray int64 [2] [1; 2]%Z]
    buffers2.

(** The store [Examples.source] with two selection weights for its three
    records. *)
Definition badWeights : t :=
  mkSource [Examples.records; Examples.labels] (Some [1 # 2; 1 # 2]%Q) [].

(** A store whose arrays have no rows, and a store without arrays, as a
    buffering source is before its first append. *)
Definition noRecords : t :=
  mkSource [mkArray int64 [0; 2] []; mkArray int64 [0] []] None [].

Definition noArrays : t := mkSource [] None [].

(** The image [Examples.loadFile] decodes from a path of [n] characters. *)
Definition image (n : Z) : ndarray := mkArray uint8 [2; 2] (replicate 4 n).

(** The file store of [Examples.files] with its three images cached, which
    is four bytes over its budget of eight. *)
Definition overBudget : FileDataSource.t :=
  FileDataSource.mkFiles [["a"; "bb"; "ccc"]%string]
    [("a", image 1); ("bb", image 2); ("ccc", image 3)]%string 12 8 None.

(** The same file lists with nothing cached and no budget: [maxSize=0]
    switches eviction off. *)
Definition unbounded : FileDataSource.t :=
  FileDataSource.mkFiles [["a"; "bb"; "ccc"]%string] [] 0 0 None.

(** An image of three rows and three columns with one positive element,
    in the middle, and a generator that always answers offset 0. *)
Definition dot : ndarray := mkArray uint8 [3; 3] [0; 0; 0; 0; 5; 0; 0; 0; 0]%Z.

Definition origin (k : nat) : nat * nat := (0, 0).

(** A generator whose state is the next number it gives, and a stage that
    draws one number at every call and adds it to every element. *)
Definition jitter : Seeded.stage (G := nat) :=
  fun arrs g =>
    (Ok (map (fun a => mkArray (dtype_of a) (shape a)
                         (map (fun x => x + Z.of_nat g)%Z (data a))) arrs),
     S g).

(** A batch of two scalar records and the buffers for it. *)
Definition two : list ndarray := [mkArray int64 [2] [10; 20]%Z].

Definition twoBuffers : list ndarray := [zeros [2] int64].

(** A loader for which no file can be read. *)
Definition unreadable (path : string) : result ndarray :=
  Raise (Exception "cannot identify image file").

End Cases.

(** ** Part II. Lemmas and theorems *)

(** *** The file cache of [FileDataSource] *)

Section FileCache.
Import FileDataSource.

Variable loadFile : string -> result ndarray.

Lemma cached_bytes_app d1 d2 :
  cached_bytes (d1 ++ d2) = (cached_bytes d1 + cached_bytes d2)%Z.
Proof.
  induction d1 as [|[k v] d1 IH]; simpl; [reflexivity|].
  unfold cached_bytes in *; simpl. rewrite IH. lia.
Qed.

Lemma cached_bytes_nonneg d : (0 <= cached_bytes d)%Z.
Proof.
  induction d as [|[k v] d IH]; unfold cached_bytes in *; simpl; lia.
Qed.

Lemma dict_set_absent k v d :
  dict_get k d = None -> dict_set k v d = d ++ [(k, v)].
Proof.
  induction d as [|[k' v'] d IH]; simpl; [reflexivity|].
  destruct (decide (k = k')); [discriminate|].
  intros H. by rewrite IH.
Qed.

Lemma getCachedFile_inv path self :
  size_inv self -> size_inv (_getCachedFile loadFile path self).2.
Proof.
  unfold size_inv, _getCachedFile. intros Hinv.
  destruct (dict_get path (imageCache self)) eqn:Hget; simpl; [done|].
  destruct (loadFile path) as [im|e]; simpl; [|done].
  rewrite (dict_set_absent _ _ _ Hget), cached_bytes_app, Hinv.
  unfold cached_bytes; simpl. lia.
Qed.

(** The loop of [_removeFiles], started on the keys of the cache, takes
    out the first [evict_count] entries and nothing else. *)
Lemma removeLoop_keys d : forall self,
  imageCache self = d ->
  removeLoop (dict_keys d) self =
    (Ok (),
     set_cache self
       (drop (evict_count (currentSize self) (maxSize self) d) d)
       (currentSize self
        - cached_bytes (take (evict_count (currentSize self) (maxSize self) d) d))).
Proof.
  induction d as [|[k v] d IH]; intros self Hd; simpl.
  - unfold set_cache. rewrite <- Hd. destruct self; simpl. f_equal. f_equal. lia.
  - destruct (decide (currentSize self > maxSize self)%Z) as [Hgt|Hle].
    + rewrite Hd. simpl. destruct (decide (k = k)); [|done].
      rewrite IH by reflexivity. simpl. f_equal. unfold set_cache; simpl.
      f_equal. unfold cached_bytes; simpl. lia.
    + simpl. unfold set_cache. rewrite <- Hd. destruct self; simpl.
      f_equal. f_equal. lia.
Qed.

(** No proper prefix of what is taken out would have sufficed. *)
Lemma evict_count_minimal max d : forall cur j,
  j < evict_count cur max d ->
  (cur - cached_bytes (take j d) > max)%Z.
Proof.
  induction d as [|[k v] d IH]; intros cur j Hj; simpl in *; [lia|].
  destruct (decide (cur > max)%Z); [|lia].
  destruct j as [|j]; simpl.
  - unfold cached_bytes; simpl. lia.
  - specialize (IH (cur - Z.of_nat (nbytes v))%Z j ltac:(lia)).
    unfold cached_bytes in *; simpl. lia.
Qed.

(** The loop stops under the budget or with the cache empty. *)
Lemma evict_count_stop max d : forall cur,
  (cur - cached_bytes (take (evict_count cur max d) d) <= max)%Z
  \/ drop (evict_count cur max d) d = [].
Proof.
  induction d as [|[k v] d IH]; intros cur; simpl; [by right|].
  destruct (decide (cur > max)%Z); simpl.
  - destruct (IH (cur - Z.of_nat (nbytes v))%Z) as [H|H]; [left|by right].
    unfold cached_bytes in *; simpl. lia.
  - left. unfold cached_bytes; simpl. lia.
Qed.

Lemma evict_count_le cur max d : evict_count cur max d <= length d.
Proof.
  revert cur. induction d as [|[k v] d IH]; intros cur; simpl; [lia|].
  destruct (decide (cur > max)%Z); simpl; [specialize (IH (cur - Z.of_nat (nbytes v))%Z)|]; lia.
Qed.

Lemma removeFiles_inv self :
  size_inv self -> size_inv (_removeFiles self).2.
Proof.
  unfold _removeFiles. intros Hinv.
  destruct (decide (maxSize self <= 0)%Z); [done|].
  rewrite removeLoop_keys by reflexivity. unfold size_inv in *; simpl.
  rewrite Hinv.
  rewrite <- (take_drop (evict_count (cached_bytes (imageCache self)) (maxSize self)
                          (imageCache self)) (imageCache self)) at 1.
  rewrite cached_bytes_app. lia.
Qed.

(** Whatever [_getCachedFile] preserves, loading a batch preserves. *)
Section Preserved.
Variable P : t -> Prop.
Hypothesis P_getCachedFile :
  forall path self, P self -> P (_getCachedFile loadFile path self).2.

Lemma fillRows_preserves chosen : forall i out self,
  P self -> P (fillRows loadFile i chosen out self).2.
Proof.
  induction chosen as [|c chosen IH]; intros i out self HP; simpl; [done|].
  pose proof (P_getCachedFile c self HP) as H1.
  destruct (_getCachedFile loadFile c self) as [[im|e] self']; simpl in *; [|done].
  destruct (setitem out i im); simpl; [by apply IH|done].
Qed.

Lemma fetchArray_preserves chosenInds arr self :
  P self -> P (fetchArray loadFile chosenInds arr self).2.
Proof.
  unfold fetchArray. intros HP.
  destruct (mapR _ chosenInds) as [[|c0 chosen]|e]; try done.
  pose proof (P_getCachedFile c0 self HP) as H1.
  destruct (_getCachedFile loadFile c0 self) as [[im|e] self'] eqn:E; [|done].
  by apply (fillRows_preserves (c0 :: chosen)).
Qed.

Lemma fetchArrays_preserves chosenInds arrs : forall self,
  P self -> P (fetchArrays loadFile chosenInds arrs self).2.
Proof.
  induction arrs as [|arr arrs IH]; intros self HP; simpl; [done|].
  pose proof (fetchArray_preserves chosenInds arr self HP) as H1.
  destruct (fetchArray loadFile chosenInds arr self) as [[out|e] self']; simpl in *; [|done].
  specialize (IH self' H1).
  destruct (fetchArrays loadFile chosenInds arrs self') as [[outs|e] self'']; simpl in *; done.
Qed.
End Preserved.

Lemma getCachedFile_maxSize m path self :
  maxSize self = m -> maxSize (_getCachedFile loadFile path self).2 = m.
Proof.
  unfold _getCachedFile. intros H.
  destruct (dict_get path (imageCache self)); [done|].
  by destruct (loadFile path).
Qed.

Lemma removeFiles_maxSize self : maxSize (_removeFiles self).2 = maxSize self.
Proof.
  unfold _removeFiles. destruct (decide (maxSize self <= 0)%Z); [done|].
  by rewrite removeLoop_keys.
Qed.

Lemma dataGen_inv batchSize probs chosenInds draw self :
  size_inv self ->
  size_inv (_dataGen loadFile batchSize probs chosenInds draw self).2.
Proof.
  unfold _dataGen. intros Hinv.
  match goal with |- context [match ?r with Ok _ => _ | Raise _ => _ end] =>
    destruct r as [inds|e] end; simpl; [|done].
  pose proof (fetchArrays_preserves _ getCachedFile_inv inds (arrays self) self Hinv) as H1.
  destruct (fetchArrays loadFile inds (arrays self) self) as [[outs|e] self']; simpl in *; [|done].
  pose proof (removeFiles_inv self' H1) as H2.
  destruct (_removeFiles self') as [[u|e] self'']; simpl in *; done.
Qed.

(** A fetch that returns has loaded into some state [mid] and then run
    [_removeFiles] on it. *)
Lemma dataGen_Ok batchSize probs chosenInds draw self outs self' :
  _dataGen loadFile batchSize probs chosenInds draw self = (Ok outs, self') ->
  exists inds mid,
    fetchArrays loadFile inds (arrays self) self = (Ok outs, mid)
    /\ _removeFiles mid = (Ok (), self').
Proof.
  unfold _dataGen.
  match goal with |- context [match ?r with Ok _ => _ | Raise _ => _ end] =>
    destruct r as [inds|e] end; [|done].
  destruct (fetchArrays loadFile inds (arrays self) self) as [[outs0|e] mid] eqn:E; [|done].
  destruct (_removeFiles mid) as [[[]|e] self''] eqn:E2; [|done].
  intros [= <- <-]. by exists inds, mid.
Qed.

Lemma reachable_size_inv self : reachable loadFile self -> size_inv self.
Proof.
  induction 1 as [filelists maxSize probs self Hinit|? ? ? ? self _ IH].
  - unfold init in Hinit. destruct filelists as [|f0 fl].
    + by injection Hinit as <-.
    + destruct (decide _); [|done]. by injection Hinit as <-.
  - by apply dataGen_inv.
Qed.

End FileCache.

(** C10. The recorded size of the file cache is the total size of the images
    it holds: from a state where the two agree, [_getCachedFile] (whether it
    finds the path or loads and inserts it) and [_removeFiles] lead to a
    state where they agree. *)
Theorem cache_size_invariant (loadFile : string -> result ndarray)
    (self : FileDataSource.t) :
  FileDataSource.size_inv self ->
  (forall path,
     FileDataSource.size_inv (FileDataSource._getCachedFile loadFile path self).2)
  /\ FileDataSource.size_inv (FileDataSource._removeFiles self).2.
Proof.
  intros Hinv. split.
  - intros path. by apply getCachedFile_inv.
  - by apply removeFiles_inv.
Qed.

(** C7. With a positive budget, a fetch that returns has run the eviction on
    the state [mid] its loads led to: what is left of the cache is [mid]'s
    with its [k] oldest entries gone, no fewer than [k] would have brought
    the total under the budget, and the total left is within the budget. *)
Theorem fetch_evicts_oldest_first (loadFile : string -> result ndarray)
    (self self' : FileDataSource.t) (batchSize : nat) (probs : option (list Q))
    (chosenInds : option (list nat)) (draw : list nat) (outs : list ndarray) :
  (0 < FileDataSource.maxSize self)%Z ->
  FileDataSource.size_inv self ->
  FileDataSource._dataGen loadFile batchSize probs chosenInds draw self = (Ok outs, self') ->
  exists (inds : list nat) (mid : FileDataSource.t) (k : nat),
    FileDataSource.fetchArrays loadFile inds (FileDataSource.arrays self) self = (Ok outs, mid)
    /\ FileDataSource.imageCache self' = drop k (FileDataSource.imageCache mid)
    /\ (forall j, j < k ->
          (FileDataSource.cached_bytes (drop j (FileDataSource.imageCache mid))
           > FileDataSource.maxSize self)%Z)
    /\ (FileDataSource.cached_bytes (FileDataSource.imageCache self')
          <= FileDataSource.maxSize self)%Z
    /\ FileDataSource.currentSize self'
        = FileDataSource.cached_bytes (FileDataSource.imageCache self').
Proof.
  intros Hmax Hinv Hgen.
  destruct (dataGen_Ok _ _ _ _ _ _ _ _ Hgen) as (inds & mid & Hfetch & Hrem).
  pose proof (fetchArrays_preserves loadFile _ (getCachedFile_inv loadFile)
                inds (FileDataSource.arrays self) self Hinv) as Hmid.
  pose proof (fetchArrays_preserves loadFile _
                (getCachedFile_maxSize loadFile (FileDataSource.maxSize self))
                inds (FileDataSource.arrays self) self eq_refl) as Hmm.
  rewrite Hfetch in Hmid, Hmm. simpl in Hmid, Hmm.
  unfold FileDataSource._removeFiles in Hrem.
  destruct (decide (FileDataSource.maxSize mid <= 0)%Z); [lia|].
  rewrite removeLoop_keys in Hrem by reflexivity.
  injection Hrem as <-.
  set (d := FileDataSource.imageCache mid) in *.
  set (k := FileDataSource.evict_count (FileDataSource.currentSize mid)
              (FileDataSource.maxSize mid) d) in *.
  assert (Hsplit : forall j, FileDataSource.cached_bytes (drop j d)
            = (FileDataSource.currentSize mid
               - FileDataSource.cached_bytes (take j d))%Z).
  { intros j. rewrite Hmid. fold d.
    rewrite <- (take_drop j d) at 2. rewrite cached_bytes_app. lia. }
  exists inds, mid, k. simpl. repeat split.
  - done.
  - intros j Hj. rewrite Hsplit, <- Hmm. by apply evict_count_minimal.
  - rewrite Hsplit, <- Hmm.
    destruct (evict_count_stop (FileDataSource.maxSize mid) d
                (FileDataSource.currentSize mid)) as [H|H]; fold k in H; [done|].
    rewrite <- Hsplit, H. unfold FileDataSource.cached_bytes; simpl. lia.
  - by rewrite Hsplit.
Qed.

Example fetched_cache :
  FileDataSource.dict_keys (FileDataSource.imageCache Examples.fetched.2)
    = ["bb"; "ccc"]%string
  /\ FileDataSource.currentSize Examples.fetched.2 = 8%Z.
Proof. split; reflexivity. Qed.

Lemma cache_size_invariant_witness :
  FileDataSource.size_inv Examples.fetched.2
  /\ ((forall path,
         FileDataSource.size_inv
           (FileDataSource._getCachedFile Examples.loadFile path Examples.fetched.2).2)
      /\ FileDataSource.size_inv (FileDataSource._removeFiles Examples.fetched.2).2).
Proof.
  split; [reflexivity|].
  apply (cache_size_invariant Examples.loadFile Examples.fetched.2). reflexivity.
Defined.

Lemma fetch_evicts_oldest_first_witness :
  exists (inds : list nat) (mid : FileDataSource.t) (k : nat),
    FileDataSource.fetchArrays Examples.loadFile inds
      (FileDataSource.arrays Examples.files) Examples.files
      = (Ok Examples.fetched_outs, mid)
    /\ FileDataSource.imageCache Examples.fetched.2
        = drop k (FileDataSource.imageCache mid)
    /\ (forall j, j < k ->
          (FileDataSource.cached_bytes (drop j (FileDataSource.imageCache mid))
           > FileDataSource.maxSize Examples.files)%Z)
    /\ (FileDataSource.cached_bytes (FileDataSource.imageCache Examples.fetched.2)
          <= FileDataSource.maxSize Examples.files)%Z
    /\ FileDataSource.currentSize Examples.fetched.2
        = FileDataSource.cached_bytes (FileDataSource.imageCache Examples.fetched.2).
Proof.
  apply (fetch_evicts_oldest_first Examples.loadFile Examples.files Examples.fetched.2
           3 None (Some [0; 1; 2]) [] Examples.fetched_outs).
  - simpl. lia.
  - reflexivity.
  - reflexivity.
Defined.

(** *** The chunk table and the augmentation step *)

Section Chunks.
Import DataSource.

Lemma split_sizes_concat sizes : forall l,
  concat (split_sizes l sizes) = take (sum_list sizes) l.
Proof.
  induction sizes as [|s sizes IH]; intros l; simpl.
  - by rewrite take_0.
  - by rewrite IH, take_take_drop.
Qed.

(** The chunks of [np.array_split] are consecutive and cover the array. *)
Lemma array_split_concat l sections chunks :
  array_split l sections = Ok chunks -> concat chunks = l.
Proof.
  unfold array_split. destruct (decide (sections = 0)) as [|Hne]; [done|].
  intros [= <-]. rewrite split_sizes_concat, sum_list_with_app, !sum_list_replicate.
  apply take_ge.
  pose proof (Nat.div_mod_eq (length l) sections) as Hdm.
  pose proof (Nat.mod_upper_bound (length l) sections Hne) as Hlt.
  nia.
Qed.

Lemma array_split_length l sections chunks :
  array_split l sections = Ok chunks -> length chunks = sections.
Proof.
  unfold array_split. destruct (decide (sections = 0)) as [|Hne]; [done|].
  intros [= <-].
  pose proof (Nat.mod_upper_bound (length l) sections Hne) as Hlt.
  assert (Hlen : forall sizes l0, length (split_sizes l0 sizes) = length sizes).
  { induction sizes as [|x sizes IH]; intros l0; simpl; [done|]. by rewrite IH. }
  rewrite Hlen, length_app, !length_replicate. lia.
Qed.

(** A table is produced for every positive batch size. *)
Lemma workerCount_pos batchSize requested cpu_count :
  0 < batchSize -> 0 < cpu_count -> 0 < workerCount batchSize requested cpu_count.
Proof.
  unfold workerCount. intros Hb Hc. destruct requested as [[|k]|]; lia.
Qed.

Lemma array_split_Ok l sections :
  0 < sections -> exists chunks, array_split l sections = Ok chunks.
Proof.
  unfold array_split. intros H. destruct (decide (sections = 0)); [lia|]. eauto.
Qed.

(** Running the loop over [l1 ++ l2] is running it over [l1], then over
    [l2] on the buffers the first run left. *)
Lemma augmentRows_app augments arrays l1 l2 : forall augArrays,
  augmentRows augments arrays (l1 ++ l2) augArrays =
    match augmentRows augments arrays l1 augArrays with
    | (Ok _, augArrays') => augmentRows augments arrays l2 augArrays'
    | (Raise e, augArrays') => (Raise e, augArrays')
    end.
Proof.
  induction l1 as [|i l1 IH]; intros augArrays; simpl; [done|].
  destruct (augmentRow augments arrays i augArrays) as [[[]|e] augArrays']; [|done].
  apply IH.
Qed.

(** If the loop over all the chunks' indices in a row succeeds, then the
    worker threads, each on its chunk, leave the same buffers. *)
Lemma runThreads_concat self batch chunks : forall augs augs',
  augmentRows (augments self) batch (concat chunks) augs = (Ok (), augs') ->
  runThreads self batch chunks augs = augs'.
Proof.
  induction chunks as [|c chunks IH]; intros augs augs'; simpl.
  - by intros [= <-].
  - rewrite augmentRows_app. unfold applyAugments.
    destruct (augmentRows (augments self) batch c augs) as [[[]|err] mid]; [|done].
    apply IH.
Qed.

(** The same for the tasks of the process pool, none of which raises. *)
Lemma poolMap_concat augments chunks : forall inArrays augs augs',
  augmentRows augments inArrays (concat chunks) augs = (Ok (), augs') ->
  poolMap augments chunks (mkShared inArrays augs) = (Ok (), mkShared inArrays augs').
Proof.
  induction chunks as [|c chunks IH]; intros inArrays augs augs'; simpl.
  - by intros [= <-].
  - rewrite augmentRows_app. unfold applyAugmentsProc. simpl.
    destruct (augmentRows augments inArrays c augs) as [[[]|err] mid]; [|done].
    intros H. by rewrite (IH _ _ _ H).
Qed.

End Chunks.

(** *** [BufferDataSource.appendBuffer] *)

Section Append.
Import DataSource BufferDataSource.

Lemma concatenate_shape0 a b c :
  concatenate a b = Ok c -> exists n, shape0 c = Ok n.
Proof.
  unfold concatenate, shape0.
  destruct (shape a) as [|n s]; [done|]. destruct (shape b) as [|m s']; [done|].
  destruct (decide (s = s')); [|done]. intros [= <-]. simpl. eauto.
Qed.

(** The loop with the arrays [done] already replaced and [todo] still to
    visit: it replaces the arrays of [todo] one by one by their joins and
    stops with [IndexError] where the supplied arrays run out. *)
Lemma appendLoop_from todo : forall done new joined,
  mapR (fun ab => concatenate ab.1 ab.2) (zip todo (drop (length done) new)) = Ok joined ->
  appendLoop (length todo) (length done) (done ++ todo) new =
    if decide (length todo <= length new - length done)
    then (Ok (), done ++ joined)
    else (Raise IndexError, done ++ joined ++ drop (length joined) todo).
Proof.
  induction todo as [|a todo IH]; intros done new joined Hj.
  - simpl in *. injection Hj as <-. done.
  - cbn [length appendLoop].
    rewrite (list_lookup_middle done todo a (length done) eq_refl).
    destruct (drop (length done) new) as [|b rest] eqn:Hdrop.
    + assert (Hlen : length new <= length done).
      { apply (f_equal length) in Hdrop. rewrite length_drop in Hdrop. simpl in Hdrop. lia. }
      rewrite (lookup_ge_None_2 new (length done)) by lia.
      simpl in Hj. injection Hj as <-.
      destruct (decide (S (length todo) <= length new - length done)); [lia|]. done.
    + assert (Hb : new !! length done = Some b).
      { rewrite <- (Nat.add_0_r (length done)), <- lookup_drop, Hdrop. done. }
      assert (Hlen : length new - length done = S (length rest)).
      { apply (f_equal length) in Hdrop. rewrite length_drop in Hdrop. simpl in Hdrop. lia. }
      rewrite Hb. simpl in Hj.
      destruct (concatenate a b) as [c|err] eqn:Hc; [|done]. simpl in Hj.
      destruct (mapR _ (zip todo rest)) as [joined'|err] eqn:Hj'; [|done].
      simpl in Hj. injection Hj as <-.
      assert (Hins : <[length done:=c]> (done ++ a :: todo) = (done ++ [c]) ++ todo).
      { rewrite <- (Nat.add_0_r (length done)), insert_app_r. simpl.
        by rewrite <- app_assoc. }
      rewrite Hins.
      assert (Hlen' : S (length done) = length (done ++ [c])).
      { rewrite length_app. simpl. lia. }
      rewrite Hlen'.
      rewrite (IH (done ++ [c]) new joined').
      * rewrite <- Hlen'. rewrite <- !app_assoc. simpl.
        destruct (decide (length todo <= length new - S (length done)));
          destruct (decide (S (length todo) <= length new - length done)); try lia; done.
      * rewrite <- Hlen'.
        replace (drop (S (length done)) new) with rest; [done|].
        rewrite <- (Nat.add_1_r (length done)), <- drop_drop, Hdrop. done.
Qed.

(** The arrays of a non-empty store after [appendBuffer], and how the call
    ended. [joined] are the joins of the store's arrays with the supplied
    arrays, pair by pair as far as both lists go. *)
Lemma appendBuffer_arrays self new joined :
  arrays self <> [] ->
  mapR (fun ab => concatenate ab.1 ab.2) (zip (arrays self) new) = Ok joined ->
  (length (arrays self) <= length new ->
     (appendBuffer self new).1 = Ok () /\ arrays (appendBuffer self new).2 = joined)
  /\ (length new < length (arrays self) ->
      (appendBuffer self new).1 = Raise IndexError
      /\ arrays (appendBuffer self new).2 = joined ++ drop (length joined) (arrays self)).
Proof.
  intros Hne Hj. unfold appendBuffer.
  destruct (arrays self) as [|a0 own] eqn:Hown; [done|].
  pose proof (appendLoop_from (a0 :: own) [] new joined Hj) as Hloop.
  cbn [length app] in *. rewrite Nat.sub_0_r in Hloop.
  rewrite Hloop. split; intros Hlen.
  - simpl in Hlen. destruct (decide (S (length own) <= length new)); [|lia].
    destruct (selectProbs self); [|done].
    destruct new as [|b new]; [simpl in Hlen; lia|].
    simpl in Hj. destruct (concatenate a0 b) as [c|err] eqn:Hc; [|done].
    simpl in Hj. destruct (mapR _ (zip own new)); [|done]. simpl in Hj.
    injection Hj as <-. simpl.
    destruct (concatenate_shape0 _ _ _ Hc) as [n ->]. done.
  - simpl in Hlen. destruct (decide (S (length own) <= length new)); [lia|]. done.
Qed.

End Append.

(** C8, as the code has it. On a non-empty store whose arrays can be joined
    with the supplied ones pair by pair: when at least as many arrays are
    supplied as the store holds, [appendBuffer] returns and the store's
    arrays are those joins, the surplus supplied arrays being left aside;
    when fewer are supplied it raises [IndexError], the arrays that had a
    partner being by then replaced by their joins and the others kept. *)
Theorem appendBuffer_counts (self : DataSource.t) (new joined : list ndarray) :
  DataSource.arrays self <> [] ->
  mapR (fun ab => concatenate ab.1 ab.2) (zip (DataSource.arrays self) new) = Ok joined ->
  let out := BufferDataSource.appendBuffer self new in
  (length (DataSource.arrays self) <= length new ->
     out.1 = Ok () /\ DataSource.arrays out.2 = joined)
  /\ (length new < length (DataSource.arrays self) ->
      out.1 = Raise IndexError
      /\ DataSource.arrays out.2
         = joined ++ drop (length joined) (DataSource.arrays self)).
Proof. intros Hne Hj. by apply appendBuffer_arrays. Qed.

(** A call with more arrays than the store holds is not rejected, and a call
    with fewer is rejected only after the first array has been replaced. *)
Lemma appendBuffer_counts_counterexample :
  (BufferDataSource.appendBuffer Examples.recordsOnly
     [Examples.moreRecords; Examples.moreLabels]).1 = Ok ()
  /\ (BufferDataSource.appendBuffer Examples.source [Examples.moreRecords]).1
      = Raise IndexError
  /\ DataSource.arrays
       (BufferDataSource.appendBuffer Examples.source [Examples.moreRecords]).2
     = [mkArray int64 [4; 2] [10; 11; 20; 21; 30; 31; 40; 41]%Z; Examples.labels]
  /\ DataSource.arrays
       (BufferDataSource.appendBuffer Examples.source [Examples.moreRecords]).2
     <> DataSource.arrays Examples.source.
Proof. vm_compute. repeat split; congruence. Qed.

Lemma appendBuffer_counts_witness :
  (BufferDataSource.appendBuffer Examples.source [Examples.moreRecords]).1
    = Raise IndexError
  /\ DataSource.arrays
       (BufferDataSource.appendBuffer Examples.source [Examples.moreRecords]).2
     = [mkArray int64 [4; 2] [10; 11; 20; 21; 30; 31; 40; 41]%Z]
       ++ drop 1 (DataSource.arrays Examples.source).
Proof.
  refine (proj2 (appendBuffer_counts Examples.source [Examples.moreRecords]
                   [mkArray int64 [4; 2] [10; 11; 20; 21; 30; 31; 40; 41]%Z] _ _) _).
  - discriminate.
  - reflexivity.
  - simpl. lia.
Defined.

Example array_split_3_2 :
  DataSource.array_split (range 3) (DataSource.workerCount 3 (Some 2) 4)
    = Ok [[0; 1]; [2]].
Proof. reflexivity. Qed.

Example array_split_7_3 :
  DataSource.array_split (range 7) (DataSource.workerCount 7 None 3)
    = Ok [[0; 1; 2]; [3; 4]; [5; 6]].
Proof. reflexivity. Qed.

Example array_split_no_rows :
  DataSource.array_split (range 0) (DataSource.workerCount 0 (Some 2) 4)
    = Raise ValueError.
Proof. reflexivity. Qed.

(** *** Which exceptions the engine can raise *)

Section Raises.
Import DataSource.

Lemma bind_raises {A B} (r : result A) (k : A -> result B) (P : exn -> Prop) e :
  (r ≫= k) = Raise e ->
  (forall e', r = Raise e' -> P e') ->
  (forall a e', r = Ok a -> k a = Raise e' -> P e') ->
  P e.
Proof.
  destruct r as [a|e0]; simpl; intros H Hr Hk.
  - by apply (Hk a).
  - injection H as <-. by apply Hr.
Qed.

Lemma mapR_raises {A B} (f : A -> result B) (P : exn -> Prop) l : forall e,
  mapR f l = Raise e ->
  (forall x e', x ∈ l -> f x = Raise e' -> P e') ->
  P e.
Proof.
  induction l as [|x l IH]; intros e H Hf; simpl in H; [done|].
  destruct (f x) as [y|e0] eqn:Hx; simpl in H.
  - destruct (mapR f l) as [ys|e1] eqn:Hl; simpl in H; [done|].
    injection H as <-. apply IH; [done|]. intros x' e' Hin. apply Hf. by right.
  - injection H as <-. apply (Hf x); [by left|done].
Qed.

Lemma getitem_raises a i e : getitem a i = Raise e -> from_numpy e.
Proof.
  unfold getitem. destruct (shape a); [intros [= <-]; by left|].
  destruct (decide (i < n)); [done|]. intros [= <-]. by left.
Qed.

Lemma getitems_raises a inds e : getitems a inds = Raise e -> from_numpy e.
Proof.
  unfold getitems. destruct (shape a); [intros [= <-]; by left|].
  intros H. eapply bind_raises; [exact H| |done].
  intros e' H'. eapply mapR_raises; [exact H'|].
  intros x e'' _. apply getitem_raises.
Qed.

Lemma broadcast_to_raises v st e : broadcast_to v st = Raise e -> from_numpy e.
Proof.
  unfold broadcast_to. destruct (align _ _); [|intros [= <-]; by right].
  destruct (broadcast _ _ _); [done|]. intros [= <-]. by right.
Qed.

Lemma setitem_raises a i v e : setitem a i v = Raise e -> from_numpy e.
Proof.
  unfold setitem. destruct (shape a); [intros [= <-]; by left|].
  destruct (decide (i < n)); [|intros [= <-]; by left].
  intros H. eapply bind_raises; [exact H| |done].
  intros e'. apply broadcast_to_raises.
Qed.

Lemma assign_all_raises a b e : assign_all a b = Raise e -> from_numpy e.
Proof.
  unfold assign_all. intros H. eapply bind_raises; [exact H| |done].
  intros e'. apply broadcast_to_raises.
Qed.

Lemma shape0_raises a e : shape0 a = Raise e -> from_numpy e.
Proof. unfold shape0. destruct (shape a); [|done]. intros [= <-]. by left. Qed.

Lemma random_choice_raises n batchSize p draw e :
  random_choice n batchSize p draw = Raise e -> from_numpy e.
Proof.
  unfold random_choice. destruct (decide _); [intros [= <-]; by right|].
  destruct p as [ps|]; [|done]. destruct (decide _); [done|].
  intros [= <-]. by right.
Qed.

Lemma defaultDataGen_raises self batchSize probs chosenInds draw e :
  defaultDataGen self batchSize probs chosenInds draw = Raise e -> from_numpy e.
Proof.
  unfold defaultDataGen. intros H. eapply bind_raises; [exact H| |].
  - destruct chosenInds; [done|]. intros e' H'.
    eapply bind_raises; [exact H'| |].
    + unfold first_array. destruct (arrays self); [|done]. intros ? [= <-]. by left.
    + intros a0 e1 _ H1. eapply bind_raises; [exact H1| |].
      * intros ?. apply shape0_raises.
      * intros n e2 _. apply random_choice_raises.
  - intros inds e' _ H'. eapply mapR_raises; [exact H'|].
    intros a e1 _. apply getitems_raises.
Qed.

(** What a pipeline raises, one of its stages raised. *)
Lemma runStages_raises (P : exn -> Prop) augments : forall arrays e,
  runStages augments arrays = Raise e ->
  (forall st x e', st ∈ augments -> st x = Raise e' -> P e') ->
  P e.
Proof.
  induction augments as [|st augments IH]; intros arrs e H Hst; simpl in H; [done|].
  destruct (st arrs) as [arrs'|e0] eqn:Hs; simpl in H.
  - eapply IH; [exact H|]. intros st' x e' Hin. apply Hst. by right.
  - injection H as <-. eapply Hst; [by left|exact Hs].
Qed.

Lemma writeRow_raises i outarrs : forall augArrays e augArrays',
  writeRow i outarrs augArrays = (Raise e, augArrays') -> from_numpy e.
Proof.
  induction outarrs as [|out outarrs IH]; intros [|aug augArrays] e augArrays' H;
    simpl in H; try done.
  destruct (setitem aug i out) as [aug'|e0] eqn:Hs.
  - destruct (writeRow i outarrs augArrays) as [[[]|e1] rest] eqn:Hw; [done|].
    injection H as <- _. by eapply IH.
  - injection H as <- _. by eapply setitem_raises.
Qed.

Section Pipeline.
Variable P : exn -> Prop.
Variable augments : list stage.
Hypothesis P_numpy : forall e, from_numpy e -> P e.
Hypothesis P_stages : forall st x e, st ∈ augments -> st x = Raise e -> P e.

Lemma augmentRow_raises arrays i augArrays e augArrays' :
  augmentRow augments arrays i augArrays = (Raise e, augArrays') -> P e.
Proof.
  unfold augmentRow.
  destruct (mapR (fun a => getitem a i) arrays ≫= _) as [outarrs|e0] eqn:Hin.
  - intros H. apply P_numpy. by eapply writeRow_raises.
  - intros [= <- _]. eapply bind_raises; [exact Hin| |].
    + intros e' H'. apply P_numpy. eapply mapR_raises; [exact H'|].
      intros a e1 _. apply getitem_raises.
    + intros inarrs e' _ H'. eapply runStages_raises; [exact H'|]. apply P_stages.
Qed.

Lemma augmentRows_raises arrays indices : forall augArrays e augArrays',
  augmentRows augments arrays indices augArrays = (Raise e, augArrays') -> P e.
Proof.
  induction indices as [|i indices IH]; intros augArrays e augArrays' H; simpl in H; [done|].
  destruct (augmentRow augments arrays i augArrays) as [[[]|e0] mid] eqn:Hrow.
  - by eapply IH.
  - injection H as <- _. by eapply augmentRow_raises.
Qed.

End Pipeline.

Lemma array_split_raises l sections e :
  array_split l sections = Raise e -> from_numpy e.
Proof.
  unfold array_split. destruct (decide _); [|done]. intros [= <-]. by right.
Qed.

Section Acquire.
Variable P : exn -> Prop.
Variable self : t.
Hypothesis P_numpy : forall e, from_numpy e -> P e.
Hypothesis P_stages : forall st x e, st ∈ augments self -> st x = Raise e -> P e.

Lemma localBatchGen_raises batchSize e :
  localBatchGen self batchSize = Raise e -> P e.
Proof.
  unfold localBatchGen, getIndexBatch. intros H.
  eapply bind_raises; [exact H| |].
  - intros e'. intros H'. apply P_numpy. by eapply defaultDataGen_raises.
  - intros inArrays e' _ H'. eapply bind_raises; [exact H'| |].
    + intros e1 H1. apply P_numpy. eapply mapR_raises; [exact H1|].
      intros a e2 _. apply getitem_raises.
    + intros firsts e1 _ H1. eapply bind_raises; [exact H1| |done].
      intros e2 H2. eapply runStages_raises; [exact H2|]. apply P_stages.
Qed.

Lemma getBatch_raises batchSize draw augs e augs' :
  _getBatch self batchSize draw augs = (Raise e, augs') -> P e.
Proof.
  unfold _getBatch, getRandomBatch.
  destruct (defaultDataGen self batchSize _ None draw) as [batch|e0] eqn:Hb.
  - unfold applyAugments.
    destruct (augmentRows (augments self) batch (range batchSize) augs)
      as [[[]|e1] mid] eqn:Hrows; [done|].
    intros [= <- _]. by eapply (augmentRows_raises P (augments self)).
  - intros [= <- _]. apply P_numpy. by eapply defaultDataGen_raises.
Qed.

(** Past the platform assertion, entering the process context raises only
    what numpy or a stage of the pipeline raises. *)
Lemma processBatchGen_raises platform_system batchSize numProcs cpu_count draw0 e st :
  lower platform_system <> "windows"%string ->
  processBatchGen self platform_system batchSize numProcs cpu_count draw0
    = (Raise e, st) ->
  P e.
Proof.
  unfold processBatchGen. intros Hp. destruct (decide _); [done|].
  destruct (array_split _ _ ≫= _) as [g|e0] eqn:Hacq; [done|].
  intros [= <- _].
  eapply bind_raises; [exact Hacq| |].
  - intros e' H'. apply P_numpy. by eapply array_split_raises.
  - intros procIndices e' _ H'. eapply bind_raises; [exact H'| |].
    + intros e1. apply localBatchGen_raises.
    + intros gen e1 _ H1. eapply bind_raises; [exact H1| |].
      * destruct (_getBatch self batchSize draw0 gen) as [[augs|e2] augs'] eqn:Hg;
          simpl; [done|].
        intros e3 [= <-]. by eapply getBatch_raises.
      * intros augs e2 _ H2. eapply bind_raises; [exact H2| |].
        -- intros e3 H3. apply P_numpy. unfold getIndexBatch in H3.
           by eapply defaultDataGen_raises.
        -- intros inArrays e3 _ H3. simpl in H3. discriminate.
Qed.

End Acquire.

End Raises.

(** C9. On a platform whose name lower-cases to [windows], entering the
    process context raises the assertion error whose message names the
    missing fork() semantics, and nothing has been started by then. On any
    other platform, provided no stage of the pipeline itself raises that
    very error, entering the context does not raise it. *)
Theorem processBatchGen_platform (self : DataSource.t) (platform_system : string)
    (batchSize : nat) (numProcs : option nat) (cpu_count : nat) (draw0 : list nat) :
  (DataSource.lower platform_system = "windows"%string ->
     DataSource.processBatchGen self platform_system batchSize numProcs cpu_count draw0
       = (Raise (AssertionError DataSource.fork_message), DataSource.NothingStarted))
  /\ (DataSource.lower platform_system <> "windows"%string ->
      (forall st x, st ∈ DataSource.augments self ->
         st x <> Raise (AssertionError DataSource.fork_message)) ->
      (DataSource.processBatchGen self platform_system batchSize numProcs cpu_count
         draw0).1
        <> Raise (AssertionError DataSource.fork_message)).
Proof.
  split.
  - intros Hw. unfold DataSource.processBatchGen.
    destruct (decide _); [done|contradiction].
  - intros Hp Hst Hraise.
    destruct (DataSource.processBatchGen self platform_system batchSize numProcs
                cpu_count draw0) as [r st] eqn:Hacq.
    simpl in Hraise. subst r.
    eapply (processBatchGen_raises
              (fun e => e <> AssertionError DataSource.fork_message) self);
      [| |exact Hp|exact Hacq|reflexivity].
    + intros e [-> | ->]; discriminate.
    + intros st0 x e Hin Hx ->. by eapply Hst.
Qed.

Lemma processBatchGen_platform_witness :
  DataSource.processBatchGen Examples.source "Windows" 2 None 4 [0; 1]
    = (Raise (AssertionError DataSource.fork_message), DataSource.NothingStarted)
  /\ (DataSource.processBatchGen Examples.source "Linux" 2 None 4 [0; 1]).1
      <> Raise (AssertionError DataSource.fork_message).
Proof.
  split.
  - apply (proj1 (processBatchGen_platform Examples.source "Windows" 2 None 4 [0; 1])).
    reflexivity.
  - apply (proj2 (processBatchGen_platform Examples.source "Linux" 2 None 4 [0; 1])).
    + vm_compute. discriminate.
    + intros st x Hin. by apply elem_of_nil in Hin.
Defined.

Example process_entered_on_linux :
  DataSource.processBatchGen Examples.source "Linux" 2 None 4 [2; 0]
  = (Ok ([[0]; [1]],
         DataSource.mkShared
           [mkArray int64 [2; 2] [10; 11; 20; 21]%Z; mkArray int64 [2] [1; 2]%Z]
           [mkArray int64 [2; 2] [30; 31; 10; 11]%Z; mkArray int64 [2] [3; 1]%Z]),
     DataSource.ProducerStarted).
Proof. reflexivity. Qed.

(** *** The process strategy with an empty pipeline *)

(** With no stage to run, a pass of the process producer writes the fresh
    batch into the shared inputs and publishes the shared outputs, which
    nothing has written: every pass publishes the arrays the outputs held
    when the context was entered. *)
Lemma processPass_empty_pipeline self batchSize procIndices draw sh b sh' :
  DataSource.processPass self batchSize procIndices [] draw sh
    = (DataSource.Published b, sh') ->
  b = DataSource.augs sh /\ DataSource.augs sh' = DataSource.augs sh.
Proof.
  unfold DataSource.processPass.
  destruct (DataSource.getRandomBatch self batchSize draw) as [batch|e]; [|done].
  destruct (DataSource.refreshInputs _ batch) as [[[]|e] ins]; [|done].
  intros [= <- <-]. simpl. split; [|done].
  unfold DataSource.fromShared, copy. by rewrite !map_id.
Qed.

(** However long the producer runs, it publishes those same arrays. *)
Lemma process_producer_repeats self batchSize procIndices draws : forall sh ps sh',
  DataSource.produce
    (DataSource.processPass self batchSize procIndices []) draws sh = (ps, sh') ->
  Forall (fun p => forall b, p = DataSource.Published b -> b = DataSource.augs sh) ps.
Proof.
  induction draws as [|draw draws IH]; intros sh ps sh'; simpl.
  - intros [= <- _]. constructor.
  - destruct (DataSource.processPass self batchSize procIndices [] draw sh)
      as [p sh1] eqn:Hpass.
    destruct p as [b|e|e].
    + destruct (processPass_empty_pipeline _ _ _ _ _ _ _ Hpass) as [-> Haugs].
      destruct (DataSource.produce _ draws sh1) as [ps' sh2] eqn:Hrest.
      intros [= <- _]. constructor; [by intros b [= <-]|].
      rewrite <- Haugs. by eapply IH.
    + intros [= <- _]. by repeat constructor.
    + intros [= <- _]. by repeat constructor.
Qed.

(** C1 at a store of the records 10 and 20, entered for batches of one
    record with record 0 drawn by the local pull: the pass that draws
    record 1 publishes the batch [10], not the records [20] of its
    Selection. *)
Theorem process_empty_pipeline_stale :
  DataSource.processBatchGen Examples.pair "Linux" 1 None 4 [0]
    = (Ok ([[0]], Examples.pairShared), DataSource.ProducerStarted)
  /\ DataSource.getRandomBatch Examples.pair 1 [1] = Ok [mkArray int64 [1] [20]%Z]
  /\ DataSource.processPass Examples.pair 1 [[0]] (DataSource.augments Examples.pair)
       [1] Examples.pairShared
     = (DataSource.Published [mkArray int64 [1] [10]%Z],
        DataSource.mkShared [mkArray int64 [1] [20]%Z] [mkArray int64 [1] [10]%Z]).
Proof. repeat split; reflexivity. Qed.

(** The inline and the thread strategies at the same store and draw. *)
Example local_and_thread_fresh :
  (DataSource._getBatch Examples.pair 1 [1] [mkArray int64 [1] [10]%Z]).1
    = Ok [mkArray int64 [1] [20]%Z]
  /\ (DataSource.threadPass Examples.pair 1 [[0]] [1] [mkArray int64 [1] [10]%Z]).1
      = DataSource.Published [mkArray int64 [1] [20]%Z].
Proof. split; reflexivity. Qed.

(** *** Exceptions in the producers *)

(** No pass of the thread producer puts a failure into the slot. *)
Lemma threadPass_never_reports self batchSize threadIndices draw augs e augs' :
  DataSource.threadPass self batchSize threadIndices draw augs
    <> (DataSource.Reported e, augs').
Proof.
  unfold DataSource.threadPass.
  by destruct (DataSource.getRandomBatch self batchSize draw).
Qed.

(** What a worker raises never shows in what the pass of the thread
    producer does: it publishes whenever the fetch returned. *)
Lemma threadPass_publishes self batchSize threadIndices draw augs batch :
  DataSource.getRandomBatch self batchSize draw = Ok batch ->
  exists b augs',
    DataSource.threadPass self batchSize threadIndices draw augs
      = (DataSource.Published b, augs').
Proof. unfold DataSource.threadPass. intros ->. eauto. Qed.

(** So nothing the consumer pulls from a thread producer is a failure. *)
Lemma thread_producer_items self batchSize threadIndices draws : forall augs ps augs',
  DataSource.produce
    (fun draw augs => DataSource.threadPass self batchSize threadIndices draw augs)
    draws augs = (ps, augs') ->
  Forall (fun v => exists b, v = DataSource.Batch b) (DataSource.slot_items ps).
Proof.
  induction draws as [|draw draws IH]; intros augs ps augs'; simpl.
  - intros [= <- _]. constructor.
  - destruct (DataSource.threadPass self batchSize threadIndices draw augs)
      as [p augs1] eqn:Hpass.
    destruct p as [b|e|e].
    + destruct (DataSource.produce _ draws augs1) as [ps' augs2] eqn:Hrest.
      intros [= <- _]. unfold DataSource.slot_items. simpl.
      constructor; [eauto|]. by eapply IH.
    + by apply threadPass_never_reports in Hpass.
    + intros [= <- _]. constructor.
Qed.

(** C2 at the store [guarded]: in the pass that draws record 2 twice both
    workers raise. The thread producer publishes a batch all the same, the
    rows of the previous batch, and goes on; the process producer puts the
    exception into the slot, from where [_get] raises it. And when the fetch
    itself raises, as on a store emptied in the meantime, the thread
    producer ends without putting anything, where the process producer
    reports. *)
Theorem thread_worker_exception_lost :
  DataSource.threadBatchGen Examples.guarded 2 None 4 [0; 0]
    = Ok ([[0]; [1]], Examples.guardedBuffers)
  /\ DataSource.applyAugments Examples.guarded
       [mkArray int64 [2; 2] [30; 31; 30; 31]%Z; mkArray int64 [2] [3; 3]%Z]
       Examples.guardedBuffers (Some [0])
     = (Raise (Exception "too large"), Examples.guardedBuffers)
  /\ DataSource.threadPass Examples.guarded 2 [[0]; [1]] [2; 2] Examples.guardedBuffers
     = (DataSource.Published Examples.guardedBuffers, Examples.guardedBuffers)
  /\ (DataSource.processPass Examples.guarded 2 [[0]; [1]]
        (DataSource.augments Examples.guarded) [2; 2]
        (DataSource.mkShared
           [mkArray int64 [2; 2] [10; 11; 20; 21]%Z; mkArray int64 [2] [1; 2]%Z]
           Examples.guardedBuffers)).1
     = DataSource.Reported (Exception "too large")
  /\ DataSource._get (DataSource.Failure (Exception "too large"))
     = Raise (Exception "too large")
  /\ DataSource.threadPass Examples.emptied 2 [[0]; [1]] [0; 0] Examples.guardedBuffers
     = (DataSource.Died IndexError, Examples.guardedBuffers)
  /\ DataSource.slot_item (DataSource.Died IndexError) = None
  /\ (DataSource.processPass Examples.emptied 2 [[0]; [1]]
        (DataSource.augments Examples.guarded) [0; 0]
        (DataSource.mkShared
           [mkArray int64 [2; 2] [10; 11; 20; 21]%Z; mkArray int64 [2] [1; 2]%Z]
           Examples.guardedBuffers)).1
     = DataSource.Reported IndexError.
Proof. repeat split; reflexivity. Qed.

(** *** Release *)

Section Release.
Import Handoff.

(** With a blocking [get] and the slot empty, a returned producer leaves the
    drain nothing to do. *)
Lemma producer_gone_stuck st : ~ step release_block producer_gone st.
Proof.
  unfold producer_gone, release_block. intros Hstep.
  inversion Hstep; subst; simpl in *; discriminate.
Qed.

Lemma producer_gone_blocks : ~ can_release release_block producer_gone.
Proof.
  intros (st & Hsteps & Hrel).
  inversion Hsteps as [st0 | st1 st2 st3 Hstep _]; subst.
  - simpl in Hrel. discriminate.
  - by apply producer_gone_stuck in Hstep.
Qed.

(** A drain that does not block completes from every state. *)
Lemma nonblocking_drain_releases s p : can_release false (mkState s p Draining).
Proof.
  destruct s as [v|].
  - exists (mkState None p Released). split; [|done].
    eapply steps_step; [|apply steps_refl]. by apply (step_drain false (Some v) None p v).
  - exists (mkState None p Released). split; [|done].
    eapply steps_step; [|apply steps_refl]. by apply (step_empty false None None p).
Qed.

(** With the producer still inside a pass, the blocking drain is served by
    the batch that pass ends with. *)
Lemma producer_busy_releases v : can_release release_block (producer_busy v).
Proof.
  exists (mkState None Returned Released). split; [|done].
  eapply steps_step; [apply step_pass|].
  eapply steps_step; [apply step_put|].
  eapply steps_step; [|apply steps_refl].
  by apply (step_drain release_block (Some v) None Returned v).
Qed.

End Release.

(** C3 on the code: the drain of both [finally] blocks is [get(True)], which
    on an empty slot waits for a [put]. Once the producer has returned with
    the slot empty, as after a [pull] that raised the reported failure, no
    step of the release is left and it never completes; a drain with
    [block] false would have completed there. *)
Theorem release_drain_blocks :
  Handoff.release_block = true
  /\ Handoff.get Handoff.release_block None = (Handoff.Waits, None)
  /\ ~ Handoff.can_release Handoff.release_block Handoff.producer_gone
  /\ Handoff.can_release false Handoff.producer_gone.
Proof.
  split; [reflexivity|]. split; [reflexivity|].
  split; [apply producer_gone_blocks|apply nonblocking_drain_releases].
Qed.

(** *** Entering with more rows than records *)

(** C6 at a store of one record and batches of two rows: the inline and the
    thread generators are entered and give arrays of two rows of the
    record's shape and dtype, but entering the process context raises
    [IndexError] where it indexes the store with [np.arange(batchSize)], so
    no pull takes place. *)
Theorem process_small_store_not_entered :
  DataSource.localBatchGen Examples.single 2 = Ok [zeros [2; 2] float32]
  /\ (DataSource._getBatch Examples.single 2 [0; 0] [zeros [2; 2] float32]).1
     = Ok [mkArray float32 [2; 2] [7; 8; 7; 8]%Z]
  /\ DataSource.threadBatchGen Examples.single 2 None 4 [0; 0]
     = Ok ([[0]; [1]], [mkArray float32 [2; 2] [7; 8; 7; 8]%Z])
  /\ (DataSource.threadPass Examples.single 2 [[0]; [1]] [0; 0]
        [mkArray float32 [2; 2] [7; 8; 7; 8]%Z]).1
     = DataSource.Published [mkArray float32 [2; 2] [7; 8; 7; 8]%Z]
  /\ DataSource.getIndexBatch Examples.single (range 2) = Raise IndexError
  /\ DataSource.processBatchGen Examples.single "Linux" 2 None 4 [0; 0]
     = (Raise IndexError, DataSource.NothingStarted).
Proof. repeat split; reflexivity. Qed.

(** *** Shapes and dtypes of the batches *)

Section Shapes.
Import DataSource.

Lemma mapR_Ok {A B} (f : A -> result B) l :
  Forall (fun x => exists y, f x = Ok y) l ->
  exists ys, mapR f l = Ok ys /\ Forall2 (fun x y => f x = Ok y) l ys.
Proof.
  induction 1 as [|x l [y Hy] _ (ys & Hys & HF)]; simpl.
  - exists []. by split.
  - exists (y :: ys). rewrite Hy, Hys. simpl. split; [done|]. by constructor.
Qed.

Lemma mapR_Ok_inv {A B} (f : A -> result B) l : forall ys,
  mapR f l = Ok ys -> Forall2 (fun x y => f x = Ok y) l ys.
Proof.
  induction l as [|x l IH]; intros ys; simpl.
  - intros [= <-]. constructor.
  - destruct (f x) as [y|e] eqn:Hx; simpl; [|done].
    destruct (mapR f l) as [ys'|e] eqn:Hl; simpl; [|done].
    intros [= <-]. constructor; [done|]. by apply IH.
Qed.

Lemma getitem_Ok a n s i :
  shape a = n :: s -> i < n ->
  exists r, getitem a i = Ok r /\ shape r = s /\ dtype_of r = dtype_of a.
Proof.
  intros Hs Hi. unfold getitem. rewrite Hs. destruct (decide (i < n)); [|lia]. eauto.
Qed.

Lemma getitem_Ok_inv a i r :
  getitem a i = Ok r -> shape r = tail (shape a) /\ dtype_of r = dtype_of a.
Proof.
  unfold getitem. destruct (shape a) as [|n s]; [done|].
  destruct (decide (i < n)); [|done]. by intros [= <-].
Qed.

Lemma getitems_Ok a n s inds :
  shape a = n :: s -> Forall (fun i => i < n) inds ->
  exists r, getitems a inds = Ok r
            /\ shape r = length inds :: s /\ dtype_of r = dtype_of a.
Proof.
  intros Hs Hinds. unfold getitems. rewrite Hs.
  destruct (mapR_Ok (getitem a) inds) as (rows & -> & _).
  - eapply Forall_impl; [exact Hinds|]. intros i Hi.
    destruct (getitem_Ok a n s i Hs Hi) as (r & -> & _). eauto.
  - simpl. eauto.
Qed.

(** Data of a shape is always stored into a target of the same shape. *)
Lemma broadcast_same s : forall d, is_Some (broadcast s s d).
Proof.
  induction s as [|a s IH]; intros d; simpl; [eauto|].
  destruct (decide (a = a)); [|done].
  apply fmap_is_Some, mapM_is_Some, Forall_forall. intros x _. apply IH.
Qed.

Lemma align_same s : align s (length s) = Some s.
Proof.
  destruct s as [|a s]; simpl.
  - done.
  - destruct (decide (S (length s) <= S (length s))); [|lia].
    by rewrite Nat.sub_diag.
Qed.

Lemma broadcast_to_same v : exists d, broadcast_to v (shape v) = Ok d.
Proof.
  unfold broadcast_to. rewrite align_same.
  destruct (broadcast_same (shape v) (data v)) as [d ->]. eauto.
Qed.

Lemma setitem_Ok a n i v :
  shape a = n :: shape v -> i < n -> exists a', setitem a i v = Ok a'.
Proof.
  intros Hs Hi. unfold setitem. rewrite Hs. destruct (decide (i < n)); [|lia].
  destruct (broadcast_to_same v) as [d ->]. simpl. eauto.
Qed.

Lemma setitem_keeps a i v a' :
  setitem a i v = Ok a' -> shape a' = shape a /\ dtype_of a' = dtype_of a.
Proof.
  unfold setitem. destruct (shape a) as [|n s] eqn:Hs; [done|].
  destruct (decide (i < n)); [|done].
  destruct (broadcast_to v s); simpl; [|done]. by intros [= <-].
Qed.

Lemma assign_all_Ok a b :
  shape a = shape b ->
  exists a', assign_all a b = Ok a'
             /\ shape a' = shape a /\ dtype_of a' = dtype_of a.
Proof.
  intros Hs. unfold assign_all. rewrite Hs.
  destruct (broadcast_to_same b) as [d ->]. simpl. eauto.
Qed.

(** Writing never changes the shape or the dtype of a buffer, whether the
    loop returns or raises. *)
Lemma writeRow_keeps i outarrs : forall augArrays,
  map shape (writeRow i outarrs augArrays).2 = map shape augArrays
  /\ map dtype_of (writeRow i outarrs augArrays).2 = map dtype_of augArrays.
Proof.
  induction outarrs as [|out outarrs IH]; intros [|aug augArrays]; simpl; try done.
  destruct (setitem aug i out) as [aug'|e] eqn:Hs; [|done].
  destruct (setitem_keeps _ _ _ _ Hs) as [Hsh Hdt].
  specialize (IH augArrays).
  destruct (writeRow i outarrs augArrays) as [r rest]. simpl in *.
  destruct IH as [-> ->]. by rewrite Hsh, Hdt.
Qed.

Lemma augmentRow_keeps augments arrays i augArrays :
  map shape (augmentRow augments arrays i augArrays).2 = map shape augArrays
  /\ map dtype_of (augmentRow augments arrays i augArrays).2 = map dtype_of augArrays.
Proof.
  unfold augmentRow. destruct (_ ≫= _); [apply writeRow_keeps|done].
Qed.

Lemma augmentRows_keeps augments arrays indices : forall augArrays,
  map shape (augmentRows augments arrays indices augArrays).2 = map shape augArrays
  /\ map dtype_of (augmentRows augments arrays indices augArrays).2
     = map dtype_of augArrays.
Proof.
  induction indices as [|i indices IH]; intros augArrays; simpl; [done|].
  pose proof (augmentRow_keeps augments arrays i augArrays) as [Hs Hd].
  destruct (augmentRow augments arrays i augArrays) as [[[]|e] mid]; simpl in *.
  - destruct (IH mid) as [-> ->]. by rewrite Hs, Hd.
  - done.
Qed.

Lemma runThreads_keeps self batch chunks : forall augs,
  map shape (runThreads self batch chunks augs) = map shape augs
  /\ map dtype_of (runThreads self batch chunks augs) = map dtype_of augs.
Proof.
  induction chunks as [|c chunks IH]; intros augs; simpl; [done|].
  unfold applyAugments.
  pose proof (augmentRows_keeps (augments self) batch c augs) as [Hs Hd].
  destruct (augmentRows (augments self) batch c augs) as [r mid]. simpl in *.
  destruct (IH mid) as [-> ->]. by rewrite Hs, Hd.
Qed.

Lemma getitems_Ok_inv a inds r :
  getitems a inds = Ok r ->
  shape r = length inds :: tail (shape a) /\ dtype_of r = dtype_of a.
Proof.
  unfold getitems. destruct (shape a) as [|n s]; [done|].
  destruct (mapR (getitem a) inds); simpl; [|done]. by intros [= <-].
Qed.

Lemma batch_shaped_rows self batchSize b :
  batch_shaped self batchSize b ->
  Forall (fun a => exists s, shape a = batchSize :: s) b.
Proof.
  intros [Hs _]. revert b Hs.
  induction (arrays self) as [|a l IH]; intros [|x b] Hs; simpl in Hs; try done.
  injection Hs as Hx Hb. constructor; [eauto|]. by apply IH.
Qed.

(** Indexing every backing array with valid indices gives a batch-shaped
    tuple. *)
Lemma fetch_Ok self n inds :
  store_ok self n -> Forall (fun i => i < n) inds ->
  exists b, mapR (fun a => getitems a inds) (arrays self) = Ok b
            /\ batch_shaped self (length inds) b.
Proof.
  intros (_ & Hrows & _) Hinds.
  destruct (mapR_Ok (fun a => getitems a inds) (arrays self)) as (b & Hb & HF).
  - eapply Forall_impl; [exact Hrows|]. intros a [s Hs].
    destruct (getitems_Ok a n s inds Hs Hinds) as (r & -> & _). eauto.
  - exists b. split; [done|]. clear Hb Hrows. unfold batch_shaped.
    induction HF as [|a r l b Hr _ [IHs IHd]]; simpl; [done|].
    destruct (getitems_Ok_inv _ _ _ Hr) as [-> ->]. by rewrite IHs, IHd.
Qed.

Lemma getIndexBatch_Ok self n inds :
  store_ok self n -> Forall (fun i => i < n) inds ->
  exists b, getIndexBatch self inds = Ok b /\ batch_shaped self (length inds) b.
Proof. intros Hok Hinds. unfold getIndexBatch, defaultDataGen. simpl. by eapply fetch_Ok. Qed.

Lemma getRandomBatch_Ok self n batchSize draw :
  store_ok self n -> 0 < n -> valid_draw n batchSize draw ->
  exists b, getRandomBatch self batchSize draw = Ok b /\ batch_shaped self batchSize b.
Proof.
  intros Hok Hn [Hlen Hdraw]. pose proof Hok as (Hne & Hrows & Hprobs).
  unfold getRandomBatch, defaultDataGen.
  assert (Hfirst : exists a0 s, first_array self = Ok a0 /\ shape a0 = n :: s).
  { unfold first_array. destruct (arrays self) as [|a0 l]; [done|].
    apply Forall_cons in Hrows as [[s Hs] _]. eauto. }
  destruct Hfirst as (a0 & s & -> & Hs). simpl.
  unfold shape0. rewrite Hs. simpl.
  unfold random_choice. destruct (decide (n = 0 /\ batchSize <> 0)); [lia|].
  assert (Hch : (match selectProbs self with
                 | Some ps => if decide (length ps = n) then Ok draw else Raise ValueError
                 | None => Ok draw
                 end) = Ok draw).
  { destruct (selectProbs self); [|done]. by destruct (decide _). }
  rewrite Hch. simpl. rewrite <- Hlen. by eapply fetch_Ok.
Qed.

Lemma rows_Ok batch i batchSize :
  i < batchSize ->
  Forall (fun a => exists s, shape a = batchSize :: s) batch ->
  exists inarrs, mapR (fun a => getitem a i) batch = Ok inarrs
                 /\ map (fun o => batchSize :: shape o) inarrs = map shape batch
                 /\ map dtype_of inarrs = map dtype_of batch.
Proof.
  intros Hi. induction 1 as [|a batch [s Hs] _ (inarrs & Hin & IHs & IHd)]; simpl.
  - exists []. by split.
  - destruct (getitem_Ok a batchSize s i Hs Hi) as (r & -> & Hr & Hd).
    rewrite Hin. simpl. exists (r :: inarrs). simpl.
    by rewrite IHs, IHd, Hr, Hd, Hs.
Qed.

Lemma writeRow_Ok i batchSize outarrs : forall augArrays,
  i < batchSize ->
  map shape augArrays = map (fun o => batchSize :: shape o) outarrs ->
  exists augArrays', writeRow i outarrs augArrays = (Ok (), augArrays').
Proof.
  induction outarrs as [|out outarrs IH]; intros [|aug augArrays] Hi Hs;
    simpl in *; try done; [eauto|].
  injection Hs as Ha Hrest.
  destruct (setitem_Ok aug batchSize i out Ha Hi) as [aug' ->].
  destruct (IH augArrays Hi Hrest) as [rest ->]. eauto.
Qed.

(** With no stage in the pipeline the row loop returns on every index
    within the batch. *)
Lemma augmentRows_id_Ok batchSize batch indices : forall augArrays,
  Forall (fun i => i < batchSize) indices ->
  Forall (fun a => exists s, shape a = batchSize :: s) batch ->
  map shape augArrays = map shape batch ->
  exists augArrays', augmentRows [] batch indices augArrays = (Ok (), augArrays').
Proof.
  induction indices as [|i indices IH]; intros augArrays Hind Hb Hs; simpl; [eauto|].
  apply Forall_cons in Hind as [Hi Hind].
  pose proof (augmentRow_keeps [] batch i augArrays) as [Hk _].
  unfold augmentRow in *.
  destruct (rows_Ok batch i batchSize Hi Hb) as (inarrs & Hin & Hsh & _).
  rewrite Hin in *. simpl in *.
  destruct (writeRow_Ok i batchSize inarrs augArrays Hi) as [mid Hw]; [congruence|].
  rewrite Hw in *. simpl in Hk. apply IH; [done..|congruence].
Qed.

Lemma map_cons_change {A B} (f : A -> list nat) (g : B -> list nat) k k' l1 : forall l2,
  map (fun o => k :: f o) l1 = map (fun a => k :: g a) l2 ->
  map (fun o => k' :: f o) l1 = map (fun a => k' :: g a) l2.
Proof.
  induction l1 as [|x l1 IH]; intros [|y l2] H; simpl in *; try done.
  injection H as Hx Hl. by rewrite Hx, (IH l2 Hl).
Qed.

Section Identity.
Variable self : t.
Variable n batchSize : nat.
Hypothesis Hstore : store_ok self n.
Hypothesis Hn : 0 < n.
Hypothesis Hid : augments self = [].

Lemma localBatchGen_Ok :
  exists gen, localBatchGen self batchSize = Ok gen /\ batch_shaped self batchSize gen.
Proof.
  unfold localBatchGen, getAugmentedArrays. rewrite Hid.
  destruct (getIndexBatch_Ok self n [0] Hstore) as (inArrays & -> & Hin).
  { constructor; [done|constructor]. }
  simpl length in Hin. simpl.
  destruct (rows_Ok inArrays 0 1 ltac:(lia) (batch_shaped_rows _ _ _ Hin))
    as (firsts & -> & Hsh & Hdt).
  simpl. eexists. split; [reflexivity|].
  destruct Hin as [Hin_s Hin_d]. split.
  - rewrite map_map. simpl. rewrite Hin_s in Hsh.
    by apply (map_cons_change shape (fun a => tail (shape a)) 1).
  - rewrite map_map. exact (eq_trans Hdt Hin_d).
Qed.

Lemma getBatch_Ok draw augs :
  valid_draw n batchSize draw -> batch_shaped self batchSize augs ->
  exists out, _getBatch self batchSize draw augs = (Ok out, out)
              /\ batch_shaped self batchSize out.
Proof.
  intros Hdraw [Hs Hd]. unfold _getBatch.
  destruct (getRandomBatch_Ok self n batchSize draw Hstore Hn Hdraw)
    as (batch & -> & Hb).
  unfold applyAugments. rewrite Hid.
  pose proof (augmentRows_keeps [] batch (range batchSize) augs) as [Hks Hkd].
  destruct (augmentRows_id_Ok batchSize batch (range batchSize) augs) as [out Hout].
  - apply Forall_seq. intros; lia.
  - by eapply batch_shaped_rows.
  - destruct Hb as [-> _]. done.
  - rewrite Hout in *. simpl in *. exists out. split; [done|].
    split; congruence.
Qed.

Lemma threadBatchGen_Ok requested cpu_count draw0 :
  0 < batchSize -> 0 < cpu_count -> valid_draw n batchSize draw0 ->
  exists threadIndices augs,
    threadBatchGen self batchSize requested cpu_count draw0 = Ok (threadIndices, augs)
    /\ batch_shaped self batchSize augs.
Proof.
  intros Hb Hc Hdraw. unfold threadBatchGen.
  destruct (array_split_Ok (range batchSize) (workerCount batchSize requested cpu_count))
    as [chunks ->]; [by apply workerCount_pos|].
  simpl. destruct localBatchGen_Ok as (gen & -> & Hgen). simpl.
  destruct (getBatch_Ok draw0 gen Hdraw Hgen) as (augs & -> & Haugs).
  simpl. eauto.
Qed.

(** A pass of the thread producer publishes a batch-shaped tuple. *)
Lemma threadPass_Ok threadIndices draw augs :
  valid_draw n batchSize draw -> batch_shaped self batchSize augs ->
  exists b augs',
    threadPass self batchSize threadIndices draw augs = (Published b, augs')
    /\ batch_shaped self batchSize b /\ batch_shaped self batchSize augs'.
Proof.
  intros Hdraw [Hs Hd]. unfold threadPass.
  destruct (getRandomBatch_Ok self n batchSize draw Hstore Hn Hdraw)
    as (batch & -> & Hb).
  pose proof (runThreads_keeps self batch threadIndices augs) as [Hks Hkd].
  eexists _, _. split; [reflexivity|].
  unfold copy. rewrite map_id. split; split; congruence.
Qed.

Lemma refreshInputs_Ok inArrays : forall batch,
  map shape inArrays = map shape batch ->
  exists ins, refreshInputs inArrays batch = (Ok (), ins)
              /\ map shape ins = map shape inArrays
              /\ map dtype_of ins = map dtype_of inArrays.
Proof.
  induction inArrays as [|a inArrays IH]; intros [|b batch] Hs; simpl in *; try done.
  - by exists [].
  - injection Hs as Ha Hrest.
    destruct (assign_all_Ok a b Ha) as (a' & -> & Hsa & Hda).
    destruct (IH batch Hrest) as (ins & -> & Hsi & Hdi).
    exists (a' :: ins). simpl. by rewrite Hsa, Hda, Hsi, Hdi.
Qed.

Lemma processBatchGen_Ok platform_system numProcs cpu_count draw0 :
  lower platform_system <> "windows"%string ->
  0 < batchSize -> batchSize <= n -> 0 < cpu_count ->
  valid_draw n batchSize draw0 ->
  exists procIndices sh,
    processBatchGen self platform_system batchSize numProcs cpu_count draw0
      = (Ok (procIndices, sh), ProducerStarted)
    /\ batch_shaped self batchSize (inArrays sh)
    /\ batch_shaped self batchSize (augs sh).
Proof.
  intros Hp Hb Hle Hc Hdraw. unfold processBatchGen.
  destruct (decide _); [done|].
  destruct (array_split_Ok (range batchSize) (workerCount batchSize numProcs cpu_count))
    as [chunks ->]; [by apply workerCount_pos|].
  simpl. destruct localBatchGen_Ok as (gen & -> & Hgen). simpl.
  destruct (getBatch_Ok draw0 gen Hdraw Hgen) as (out & -> & Hout). simpl.
  destruct (getIndexBatch_Ok self n (range batchSize) Hstore) as (ins & -> & Hins).
  { apply Forall_seq. intros; lia. }
  simpl. eexists _, _. split; [reflexivity|]. simpl.
  unfold range in Hins. rewrite length_seq in Hins.
  unfold toShared. by rewrite !map_id.
Qed.

(** A pass of the process producer with the empty pipeline publishes a
    batch-shaped tuple. *)
Lemma processPass_Ok procIndices draw sh :
  valid_draw n batchSize draw ->
  batch_shaped self batchSize (inArrays sh) ->
  batch_shaped self batchSize (augs sh) ->
  exists b sh',
    processPass self batchSize procIndices [] draw sh = (Published b, sh')
    /\ batch_shaped self batchSize b
    /\ batch_shaped self batchSize (inArrays sh')
    /\ batch_shaped self batchSize (augs sh').
Proof.
  intros Hdraw [His Hid'] Ha. unfold processPass.
  destruct (getRandomBatch_Ok self n batchSize draw Hstore Hn Hdraw)
    as (batch & -> & [Hbs Hbd]).
  unfold fromShared, copy. rewrite !map_id.
  destruct (refreshInputs_Ok (inArrays sh) batch) as (ins & -> & Hsi & Hdi);
    [congruence|].
  eexists _, _. split; [reflexivity|]. simpl. rewrite !List.map_id.
  split; [done|]. split; [|done]. split; congruence.
Qed.

(** A comprehension whose calls raise nothing but [E], and one of which
    does raise, raises [E]. *)
Lemma mapR_Raise {A B} (f : A -> result B) (E : exn) l :
  (forall x e, f x = Raise e -> e = E) ->
  (exists x, x ∈ l /\ f x = Raise E) ->
  mapR f l = Raise E.
Proof.
  intros Honly (x & Hin & Hx).
  induction l as [|y l IH]; [by apply elem_of_nil in Hin|].
  simpl. destruct (f y) as [b|e] eqn:Hy; simpl.
  - apply elem_of_cons in Hin as [->|Hin]; [congruence|].
    by rewrite (IH Hin).
  - by rewrite (Honly _ _ Hy).
Qed.

Lemma getitem_raises_IndexError a i e : getitem a i = Raise e -> e = IndexError.
Proof.
  unfold getitem. destruct (shape a) as [|m s]; [by intros [= <-]|].
  destruct (decide (i < m)); [done|]. by intros [= <-].
Qed.

(** Indexing the store with [np.arange(batchSize)] raises when the batch
    has more rows than the store has records. *)
Lemma getIndexBatch_arange_small :
  n < batchSize -> getIndexBatch self (range batchSize) = Raise IndexError.
Proof.
  intros Hlt. destruct Hstore as (Hne & Hrows & _).
  unfold getIndexBatch, defaultDataGen. simpl.
  destruct (arrays self) as [|a0 l]; [done|].
  apply Forall_cons in Hrows as [[s Hs] _]. simpl.
  assert (Hrow : getitems a0 (range batchSize) = Raise IndexError).
  { unfold getitems. rewrite Hs.
    rewrite (mapR_Raise (getitem a0) IndexError (range batchSize)); [done| |].
    - apply getitem_raises_IndexError.
    - exists n. split; [apply elem_of_seq; lia|].
      unfold getitem. rewrite Hs. destruct (decide (n < n)); [lia|done]. }
  by rewrite Hrow.
Qed.

(** So the process context cannot be entered with such a batch size,
    whatever the platform lets through. *)
Lemma processBatchGen_small_store platform_system numProcs cpu_count draw0 :
  lower platform_system <> "windows"%string ->
  n < batchSize -> 0 < cpu_count -> valid_draw n batchSize draw0 ->
  processBatchGen self platform_system batchSize numProcs cpu_count draw0
    = (Raise IndexError, NothingStarted).
Proof.
  intros Hp Hlt Hc Hdraw. unfold processBatchGen.
  destruct (decide _); [done|].
  destruct (array_split_Ok (range batchSize) (workerCount batchSize numProcs cpu_count))
    as [chunks ->]; [apply workerCount_pos; lia|].
  simpl. destruct localBatchGen_Ok as (gen & -> & Hgen). simpl.
  destruct (getBatch_Ok draw0 gen Hdraw Hgen) as (out & -> & Hout). simpl.
  by rewrite (getIndexBatch_arange_small Hlt).
Qed.

End Identity.

End Shapes.

(** The batches of the three strategies on a store of [n > 0] aligned
    records with the empty pipeline, for a positive batch size and valid
    index samples. The inline and the thread generators are entered and
    every pull or pass gives a batch-shaped tuple. The process generator is
    entered, and then does the same, when the batch has at most [n] rows;
    with more rows entering it raises [IndexError]. *)
Lemma batches_of_identity_pipeline (self : DataSource.t) (n batchSize cpu_count : nat)
    (requested : option nat) (platform_system : string) :
  DataSource.store_ok self n -> 0 < n -> DataSource.augments self = [] ->
  0 < batchSize -> 0 < cpu_count ->
  DataSource.lower platform_system <> "windows"%string ->
  (exists gen, DataSource.localBatchGen self batchSize = Ok gen
               /\ DataSource.batch_shaped self batchSize gen)
  /\ (forall draw augs,
        DataSource.valid_draw n batchSize draw ->
        DataSource.batch_shaped self batchSize augs ->
        exists out, DataSource._getBatch self batchSize draw augs = (Ok out, out)
                    /\ DataSource.batch_shaped self batchSize out)
  /\ (forall draw0,
        DataSource.valid_draw n batchSize draw0 ->
        exists threadIndices augs,
          DataSource.threadBatchGen self batchSize requested cpu_count draw0
            = Ok (threadIndices, augs)
          /\ DataSource.batch_shaped self batchSize augs)
  /\ (forall threadIndices draw augs,
        DataSource.valid_draw n batchSize draw ->
        DataSource.batch_shaped self batchSize augs ->
        exists b augs',
          DataSource.threadPass self batchSize threadIndices draw augs
            = (DataSource.Published b, augs')
          /\ DataSource.batch_shaped self batchSize b
          /\ DataSource.batch_shaped self batchSize augs')
  /\ (forall draw0,
        DataSource.valid_draw n batchSize draw0 ->
        if decide (batchSize <= n)
        then exists procIndices sh,
          DataSource.processBatchGen self platform_system batchSize requested
            cpu_count draw0 = (Ok (procIndices, sh), DataSource.ProducerStarted)
          /\ DataSource.batch_shaped self batchSize (DataSource.inArrays sh)
          /\ DataSource.batch_shaped self batchSize (DataSource.augs sh)
        else
          DataSource.processBatchGen self platform_system batchSize requested
            cpu_count draw0 = (Raise IndexError, DataSource.NothingStarted))
  /\ (forall procIndices draw sh,
        DataSource.valid_draw n batchSize draw ->
        DataSource.batch_shaped self batchSize (DataSource.inArrays sh) ->
        DataSource.batch_shaped self batchSize (DataSource.augs sh) ->
        exists b sh',
          DataSource.processPass self batchSize procIndices [] draw sh
            = (DataSource.Published b, sh')
          /\ DataSource.batch_shaped self batchSize b
          /\ DataSource.batch_shaped self batchSize (DataSource.inArrays sh')
          /\ DataSource.batch_shaped self batchSize (DataSource.augs sh')).
Proof.
  intros Hstore Hn Hid Hb Hc Hp. repeat split.
  - by eapply localBatchGen_Ok.
  - intros draw augs. by eapply getBatch_Ok.
  - intros draw0. by eapply threadBatchGen_Ok.
  - intros ti draw augs. by eapply threadPass_Ok.
  - intros draw0 Hdraw. destruct (decide (batchSize <= n)).
    + by eapply processBatchGen_Ok.
    + eapply processBatchGen_small_store; eauto; lia.
  - intros pi draw sh. by eapply processPass_Ok.
Qed.

(** *** The order in which the workers write their rows

    The worker threads of a pass run at the same time, so the rows of a
    batch are written in an order the scheduler chooses. The row loop does
    not depend on it: on well-formed arrays, any order of the same rows
    that returns leaves the same buffers. *)

Section Schedule.
Import DataSource.

(** Overwriting the elements of [l] from position [p] on with [d]. *)
Lemma put_lookup (p : nat) (d l : list Z) k :
  p + length d <= length l ->
  (take p l ++ d ++ drop (p + length d) l) !! k =
    if decide (k < p) then l !! k
    else if decide (k < p + length d) then d !! (k - p)
    else l !! k.
Proof.
  intros Hlen.
  destruct (decide (k < p)).
  - rewrite lookup_app_l by (rewrite length_take; lia).
    by rewrite lookup_take_lt.
  - rewrite lookup_app_r by (rewrite length_take; lia).
    rewrite length_take, Nat.min_l by lia.
    destruct (decide (k < p + length d)).
    + by rewrite lookup_app_l by lia.
    + rewrite lookup_app_r by lia. rewrite lookup_drop. f_equal. lia.
Qed.

Lemma put_length (p : nat) (d l : list Z) :
  p + length d <= length l ->
  length (take p l ++ d ++ drop (p + length d) l) = length l.
Proof.
  intros Hlen. rewrite !length_app, length_take, length_drop. lia.
Qed.

(** Two writes to disjoint ranges can be made in either order. *)
Lemma put_comm (p q : nat) (d1 d2 l : list Z) :
  p + length d1 <= q -> q + length d2 <= length l ->
  take p (take q l ++ d2 ++ drop (q + length d2) l) ++ d1
    ++ drop (p + length d1) (take q l ++ d2 ++ drop (q + length d2) l)
  = take q (take p l ++ d1 ++ drop (p + length d1) l) ++ d2
    ++ drop (q + length d2) (take p l ++ d1 ++ drop (p + length d1) l).
Proof.
  intros Hpq Hq. apply list_eq. intros k.
  rewrite !put_lookup; rewrite ?put_length; try lia.
  repeat case_decide; try lia; try done.
Qed.

Lemma chunks_lengths n k : forall d,
  length d = n * k -> Forall (fun c => length c = k) (chunks n k d).
Proof.
  induction n as [|n IH]; intros d Hd; simpl; [constructor|].
  constructor.
  - rewrite length_take. lia.
  - apply IH. rewrite length_drop. lia.
Qed.

Lemma chunks_length n k d : length (chunks n k d) = n.
Proof. revert d. induction n as [|n IH]; intros d; simpl; [done|]. by rewrite IH. Qed.

Lemma concat_length_same (rs : list (list Z)) k :
  Forall (fun r => length r = k) rs -> length (concat rs) = length rs * k.
Proof.
  induction 1 as [|r rs Hr _ IH]; simpl; [done|].
  rewrite length_app, IH, Hr. lia.
Qed.

(** Broadcasting gives as many elements as the target shape has. *)
Lemma broadcast_length sv : forall st d r,
  broadcast sv st d = Some r -> length d = size_of sv -> length r = size_of st.
Proof.
  induction sv as [|a sv IH]; intros [|b st] d r; simpl; try done.
  - by intros [= <-].
  - intros Hb Hd. destruct (decide (a = b)) as [<-|Hne].
    + destruct (mapM (broadcast sv st) (chunks a (size_of sv) d)) as [rs|] eqn:Hrs;
        [|done].
      simpl in Hb. injection Hb as <-.
      apply mapM_Some in Hrs.
      pose proof (chunks_lengths a (size_of sv) d Hd) as Hch.
      assert (Hall : Forall (fun r => length r = size_of st) rs).
      { clear Hd. induction Hrs as [|c r cs rs Hc _ IHF]; [constructor|].
        apply Forall_cons in Hch as [Hc1 Hch]. constructor; [by eapply IH|by apply IHF]. }
      rewrite (concat_length_same rs _ Hall).
      apply Forall2_length in Hrs. rewrite <- Hrs, chunks_length. done.
    + destruct (decide (a = 1)) as [->|]; [|done].
      destruct (broadcast sv st d) as [r'|] eqn:Hr'; [|done].
      simpl in Hb. injection Hb as <-.
      rewrite (concat_length_same (replicate b r') (size_of st)).
      * by rewrite length_replicate.
      * apply Forall_replicate. eapply IH; [done|]. lia.
Qed.

Lemma size_of_ones m s : size_of (replicate m 1 ++ s) = size_of s.
Proof. induction m as [|m IH]; simpl; [done|]. unfold size_of in *. simpl. lia. Qed.

Lemma align_size sv : forall rank sv',
  align sv rank = Some sv' -> size_of sv' = size_of sv /\ length sv' = rank.
Proof.
  induction sv as [|a sv IH]; intros rank sv'; simpl.
  - destruct (decide (0 <= rank)); [|lia]. intros [= <-].
    rewrite size_of_ones, length_app, length_replicate. simpl. split; [done|lia].
  - destruct (decide (S (length sv) <= rank)).
    + intros [= <-]. rewrite size_of_ones, length_app, length_replicate. simpl.
      split; [done|lia].
    + destruct a as [|[|a]]; try done. intros H.
      destruct (IH _ _ H) as [-> ->]. split; [|done].
      unfold size_of. simpl. lia.
Qed.

Lemma broadcast_to_length v st d :
  wf v -> broadcast_to v st = Ok d -> length d = size_of st.
Proof.
  unfold wf, broadcast_to. intros Hv.
  destruct (align (shape v) (length st)) as [sv|] eqn:Hal; [|done].
  destruct (broadcast sv st (data v)) as [r|] eqn:Hb; [|done].
  intros [= <-]. eapply broadcast_length; [exact Hb|].
  destruct (align_size _ _ _ Hal) as [-> _]. done.
Qed.

Lemma getitem_wf a i r : wf a -> getitem a i = Ok r -> wf r.
Proof.
  unfold wf, getitem. intros Ha.
  destruct (shape a) as [|n s] eqn:Hs; [done|].
  destruct (decide (i < n)); [|done]. intros [= <-]. simpl.
  rewrite length_take, length_drop, Ha. unfold size_of. simpl.
  fold (size_of s). nia.
Qed.

Lemma setitem_Ok_inv a i v a' :
  setitem a i v = Ok a' ->
  exists n s d,
    shape a = n :: s /\ i < n /\ broadcast_to v s = Ok d
    /\ a' = mkArray (dtype_of a) (n :: s)
              (take (i * size_of s) (data a) ++ d
               ++ drop (i * size_of s + size_of s) (data a)).
Proof.
  unfold setitem. destruct (shape a) as [|n s]; [done|].
  destruct (decide (i < n)); [|done].
  destruct (broadcast_to v s) as [d|] eqn:Hd; simpl; [|done].
  intros [= <-]. by exists n, s, d.
Qed.

Lemma setitem_wf a i v a' : wf a -> wf v -> setitem a i v = Ok a' -> wf a'.
Proof.
  intros Ha Hv Hset.
  destruct (setitem_Ok_inv _ _ _ _ Hset) as (n & s & d & Hs & Hi & Hd & ->).
  pose proof (broadcast_to_length v s d Hv Hd) as Hlen.
  unfold wf in *. simpl. rewrite Hs in Ha.
  change (size_of (n :: s)) with (n * size_of s) in *.
  replace (i * size_of s + size_of s) with (i * size_of s + length d) by lia.
  rewrite put_length; [done|]. rewrite Hlen. nia.
Qed.

(** Two rows of an array can be assigned in either order. *)
Lemma setitem_comm a i j v w a1 a2 :
  wf a -> wf v -> wf w -> i <> j ->
  setitem a i v = Ok a1 -> setitem a1 j w = Ok a2 ->
  exists b1, setitem a j w = Ok b1 /\ setitem b1 i v = Ok a2.
Proof.
  intros Ha Hv Hw Hij H1 H2.
  destruct (setitem_Ok_inv _ _ _ _ H1) as (n & s & d1 & Hs & Hi & Hd1 & ->).
  destruct (setitem_Ok_inv _ _ _ _ H2) as (n' & s' & d2 & Hs' & Hj & Hd2 & ->).
  simpl in Hs'. injection Hs' as <- <-. simpl.
  pose proof (broadcast_to_length v s d1 Hv Hd1) as Hl1.
  pose proof (broadcast_to_length w s d2 Hw Hd2) as Hl2.
  unfold wf in Ha. rewrite Hs in Ha.
  change (size_of (n :: s)) with (n * size_of s) in Ha.
  unfold setitem. rewrite Hs. destruct (decide (j < n)); [|lia].
  rewrite Hd2. simpl. eexists. split; [reflexivity|]. simpl.
  destruct (decide (i < n)); [|lia]. rewrite Hd1. simpl. do 2 f_equal.
  set (sz := size_of s) in *.
  replace (i * sz + sz) with (i * sz + length d1) by lia.
  replace (j * sz + sz) with (j * sz + length d2) by lia.
  destruct (decide (i < j)).
  - apply put_comm; nia.
  - symmetry. apply put_comm; nia.
Qed.

Lemma writeRow_wf i outarrs : forall augArrays,
  Forall wf outarrs -> Forall wf augArrays ->
  Forall wf (writeRow i outarrs augArrays).2.
Proof.
  induction outarrs as [|out outarrs IH]; intros [|aug augArrays] Ho Ha;
    simpl; try done.
  apply Forall_cons in Ho as [Hout Ho]. apply Forall_cons in Ha as [Haug Ha].
  destruct (setitem aug i out) as [aug'|e] eqn:Hs.
  - specialize (IH augArrays Ho Ha).
    pose proof (setitem_wf aug i out aug' Haug Hout Hs) as Hwf.
    destruct (writeRow i outarrs augArrays) as [r rest]. simpl in *.
    by constructor.
  - simpl. by constructor.
Qed.

Lemma writeRow_comm i j : forall augArrays outs_i outs_j augs1 augs2,
  i <> j -> Forall wf augArrays -> Forall wf outs_i -> Forall wf outs_j ->
  writeRow i outs_i augArrays = (Ok (), augs1) ->
  writeRow j outs_j augs1 = (Ok (), augs2) ->
  exists b1, writeRow j outs_j augArrays = (Ok (), b1)
             /\ writeRow i outs_i b1 = (Ok (), augs2).
Proof.
  induction augArrays as [|aug augArrays IH];
    intros outs_i outs_j augs1 augs2 Hij Ha Hoi Hoj H1 H2.
  - destruct outs_i, outs_j; simpl in *; injection H1 as <-; injection H2 as <-;
      by exists [].
  - destruct outs_i as [|v outs_i].
    { simpl in H1. injection H1 as <-. exists augs2. split; [done|].
      by destruct augs2. }
    destruct outs_j as [|w outs_j].
    { simpl in H2. replace augs2 with augs1 by (destruct augs1; congruence).
      exists (aug :: augArrays). by split. }
    apply Forall_cons in Ha as [Haug Ha].
    apply Forall_cons in Hoi as [Hv Hoi]. apply Forall_cons in Hoj as [Hw Hoj].
    simpl in H1. destruct (setitem aug i v) as [a1|] eqn:Hs1; [|done].
    destruct (writeRow i outs_i augArrays) as [[[]|] rest1] eqn:Hw1; [|done].
    injection H1 as <-.
    simpl in H2. destruct (setitem a1 j w) as [a2|] eqn:Hs2; [|done].
    destruct (writeRow j outs_j rest1) as [[[]|] rest2] eqn:Hw2; [|done].
    injection H2 as <-.
    destruct (setitem_comm aug i j v w a1 a2 Haug Hv Hw Hij Hs1 Hs2)
      as (b & Hb1 & Hb2).
    destruct (IH outs_i outs_j rest1 rest2 Hij Ha Hoi Hoj Hw1 Hw2)
      as (brest & Hr1 & Hr2).
    exists (b :: brest). simpl. by rewrite Hb1, Hr1, Hb2, Hr2.
Qed.

Lemma rows_wf batch i : forall inarrs,
  Forall wf batch -> mapR (fun a => getitem a i) batch = Ok inarrs ->
  Forall wf inarrs.
Proof.
  intros inarrs Hb Hm. apply mapR_Ok_inv in Hm.
  induction Hm as [|a r batch inarrs Hr _ IH]; [constructor|].
  apply Forall_cons in Hb as [Ha Hb]. constructor; [by eapply getitem_wf|by apply IH].
Qed.

Lemma runStages_wf augments : forall arrs outs,
  Forall stage_wf augments -> Forall wf arrs ->
  runStages augments arrs = Ok outs -> Forall wf outs.
Proof.
  induction augments as [|st augments IH]; intros arrs outs Hst Ha; simpl.
  - by intros [= <-].
  - apply Forall_cons in Hst as [Hst1 Hst].
    destruct (st arrs) as [arrs'|e] eqn:Hs; simpl; [|done].
    intros H. eapply IH; [done| |exact H]. by eapply Hst1.
Qed.

Section Rows.
Variable augments : list stage.
Variable batch : list ndarray.
Hypothesis Hstages : Forall stage_wf augments.
Hypothesis Hbatch : Forall wf batch.

Lemma augmentRow_wf i augArrays :
  Forall wf augArrays -> Forall wf (augmentRow augments batch i augArrays).2.
Proof.
  intros Ha. unfold augmentRow.
  destruct (mapR (fun a => getitem a i) batch) as [inarrs|e] eqn:Hin; simpl; [|done].
  destruct (runStages augments inarrs) as [outarrs|e] eqn:Hout; [|done].
  apply writeRow_wf; [|done].
  apply (runStages_wf augments inarrs outarrs Hstages); [|exact Hout].
  exact (rows_wf batch i inarrs Hbatch Hin).
Qed.

(** The iterations for two indices can be run in either order. *)
Lemma augmentRow_comm i j augArrays augs1 augs2 :
  Forall wf augArrays ->
  augmentRow augments batch i augArrays = (Ok (), augs1) ->
  augmentRow augments batch j augs1 = (Ok (), augs2) ->
  exists b1, augmentRow augments batch j augArrays = (Ok (), b1)
             /\ augmentRow augments batch i b1 = (Ok (), augs2).
Proof.
  intros Ha H1 H2. destruct (decide (i = j)) as [<-|Hij]; [eauto|].
  unfold augmentRow in *.
  destruct (mapR (fun a => getitem a i) batch) as [in_i|e] eqn:Hin_i;
    simpl in *; [|done].
  destruct (runStages augments in_i) as [out_i|e] eqn:Hout_i; [|done].
  destruct (mapR (fun a => getitem a j) batch) as [in_j|e] eqn:Hin_j;
    simpl in *; [|done].
  destruct (runStages augments in_j) as [out_j|e] eqn:Hout_j; [|done].
  eapply writeRow_comm; eauto.
  - apply (runStages_wf augments in_i out_i Hstages); [|exact Hout_i].
    exact (rows_wf batch i in_i Hbatch Hin_i).
  - apply (runStages_wf augments in_j out_j Hstages); [|exact Hout_j].
    exact (rows_wf batch j in_j Hbatch Hin_j).
Qed.

(** Any order of the same rows that returns leaves the same buffers. *)
Lemma augmentRows_perm l l' :
  l ≡ₚ l' ->
  forall augArrays augs',
    Forall wf augArrays ->
    augmentRows augments batch l augArrays = (Ok (), augs') ->
    augmentRows augments batch l' augArrays = (Ok (), augs').
Proof.
  induction 1 as [|x l l' _ IH|x y l|l l' l'' _ IH1 _ IH2];
    intros augArrays augs' Ha Hrun.
  - done.
  - simpl in *. pose proof (augmentRow_wf x augArrays Ha) as Hwf.
    destruct (augmentRow augments batch x augArrays) as [[[]|e] mid]; [|done].
    by apply IH.
  - simpl in *.
    destruct (augmentRow augments batch y augArrays) as [[[]|e] m1] eqn:Hy; [|done].
    destruct (augmentRow augments batch x m1) as [[[]|e] m2] eqn:Hx; [|done].
    destruct (augmentRow_comm y x augArrays m1 m2 Ha Hy Hx) as (b1 & -> & ->).
    done.
  - apply IH2; [done|]. by apply IH1.
Qed.

End Rows.

End Schedule.

Section Lifted.
Import DataSource.
Context {G : Type}.
Variable fs : list DataSource.stage.
Variable batch : list ndarray.

Lemma lift_runStages : forall arrs (g : G),
  Seeded.runStages (map Seeded.lift fs) arrs g = (runStages fs arrs, g).
Proof.
  induction fs as [|f fs' IH]; intros arrs g; [done|].
  cbn [map Seeded.runStages runStages]. unfold Seeded.lift at 1.
  destruct (f arrs) as [arrs'|e]; [|done]. cbn. apply IH.
Qed.

Lemma lift_augmentRow i augs (g : G) :
  Seeded.augmentRow (map Seeded.lift fs) batch i augs g
  = (augmentRow fs batch i augs, g).
Proof.
  unfold Seeded.augmentRow, augmentRow.
  destruct (mapR (fun a => getitem a i) batch) as [inarrs|e]; [|done].
  cbn. rewrite lift_runStages. by destruct (runStages fs inarrs).
Qed.

Lemma lift_augmentRows l : forall augs (g : G),
  Seeded.augmentRows (map Seeded.lift fs) batch l augs g
  = (augmentRows fs batch l augs, g).
Proof.
  induction l as [|i l IH]; intros augs g; [done|].
  cbn [Seeded.augmentRows augmentRows]. rewrite lift_augmentRow.
  destruct (augmentRow fs batch i augs) as [[[]|e] augs1]; [|done]. apply IH.
Qed.

Lemma lift_finishThreads workers : forall augs augs' (g : G),
  augmentRows fs batch (concat workers) augs = (Ok (), augs') ->
  Seeded.finishThreads (map Seeded.lift fs) batch workers augs g = (augs', g).
Proof.
  induction workers as [|c workers IH]; intros augs augs' g.
  - cbn. by intros [= <-].
  - cbn [concat Seeded.finishThreads]. rewrite augmentRows_app.
    unfold Seeded.applyAugments. rewrite lift_augmentRows.
    destruct (augmentRows fs batch c augs) as [[[]|e] mid]; [|done]. apply IH.
Qed.

Lemma concat_insert_head (workers : list (list nat)) w i rows :
  workers !! w = Some (i :: rows) ->
  concat workers ≡ₚ i :: concat (<[w := rows]> workers).
Proof.
  intros Hw. pose proof (lookup_lt_Some _ _ _ Hw) as Hlt.
  rewrite insert_take_drop by done.
  rewrite <- (take_drop_middle workers w (i :: rows) Hw) at 1.
  rewrite !concat_app. cbn [concat].
  rewrite <- app_comm_cons. by rewrite <- Permutation_middle.
Qed.

Hypothesis Hstages : Forall stage_wf fs.
Hypothesis Hbatch : Forall wf batch.

(** Stages that draw nothing: whatever the turns of the worker threads, if
    the row loop over all their rows returns, they leave its buffers. *)
Lemma lift_runThreads turns : forall workers augs augs' (g : G),
  Forall wf augs ->
  augmentRows fs batch (concat workers) augs = (Ok (), augs') ->
  Seeded.runThreads (map Seeded.lift fs) batch turns workers augs g = (augs', g).
Proof.
  induction turns as [|w turns IH]; intros workers augs augs' g Hwf Hrun.
  - by apply lift_finishThreads.
  - cbn [Seeded.runThreads].
    destruct (workers !! w) as [[|i rows]|] eqn:Hw; [by apply IH| |by apply IH].
    pose proof (augmentRows_perm fs batch Hstages Hbatch _ _
                  (concat_insert_head workers w i rows Hw) augs augs' Hwf Hrun)
      as Hrun'.
    cbn [augmentRows] in Hrun'. rewrite lift_augmentRow.
    pose proof (augmentRow_wf fs batch Hstages Hbatch i augs Hwf) as Hwf1.
    destruct (augmentRow fs batch i augs) as [[[]|e] augs1]; [|done].
    by apply IH.
Qed.

(** The same for the tasks of the pool, whichever process takes which. *)
Lemma lift_poolMap assign chunks : forall k (gens : nat -> G) augs augs',
  augmentRows fs batch (concat chunks) augs = (Ok (), augs') ->
  (Seeded.poolMap (map Seeded.lift fs) assign k chunks gens
     (mkShared batch augs)).1.1 = replicate (length chunks) (Ok ())
  /\ (Seeded.poolMap (map Seeded.lift fs) assign k chunks gens
        (mkShared batch augs)).2 = mkShared batch augs'.
Proof.
  induction chunks as [|c chunks IH]; intros k gens augs augs'.
  - cbn. by intros [= <-].
  - cbn [concat Seeded.poolMap DataSource.inArrays DataSource.augs length replicate].
    rewrite augmentRows_app, lift_augmentRows.
    destruct (augmentRows fs batch c augs) as [[[]|e] mid]; [|done].
    intros Hrest.
    destruct (IH (S k) (Seeded.set_gen gens (assign k) (gens (assign k)))
                mid augs' Hrest) as [H1 H2].
    destruct (Seeded.poolMap (map Seeded.lift fs) assign (S k) chunks _ _)
      as [[rs gens'] sh']. cbn [fst snd] in *. by subst.
Qed.

End Lifted.

(** C4. For every batch size, requested worker count and pipeline of stages
    that are functions of the record tuple alone (they draw nothing from
    the random generator), with the chunk table [np.array_split] produces:
    when the inline strategy's call of [applyAugments] over
    [range(batchSize)] returns, the worker threads of the thread strategy,
    one per chunk and whatever their turns, leave the very same output
    buffers, and so do the tasks of the process pool on the shared arrays,
    whichever process takes which chunk and whatever the state of its
    generator; none of the tasks raises. *)
Theorem chunked_augment_refines_inline {G : Type} (fs : list DataSource.stage)
    (batchSize : nat) (requested : option nat) (cpu_count : nat)
    (chunks : list (list nat)) (batch augs augs' : list ndarray) (g g' : G) :
  DataSource.array_split (range batchSize)
    (DataSource.workerCount batchSize requested cpu_count) = Ok chunks ->
  Forall DataSource.stage_wf fs -> Forall wf batch -> Forall wf augs ->
  Seeded.applyAugments (map Seeded.lift fs) batch augs (Some (range batchSize)) g
  = (Ok (), augs', g') ->
  (forall turns : list nat,
     Seeded.runThreads (map Seeded.lift fs) batch turns chunks augs g = (augs', g))
  /\ forall (assign : nat -> nat) (gens : nat -> G),
       (Seeded.poolMap (map Seeded.lift fs) assign 0 chunks gens
          (DataSource.mkShared batch augs)).1.1
       = replicate (length chunks) (Ok ())
       /\ (Seeded.poolMap (map Seeded.lift fs) assign 0 chunks gens
             (DataSource.mkShared batch augs)).2
          = DataSource.mkShared batch augs'.
Proof.
  intros Hsplit Hst Hb Ha Hinline. apply array_split_concat in Hsplit.
  unfold Seeded.applyAugments in Hinline.
  rewrite lift_augmentRows, <- Hsplit in Hinline.
  injection Hinline as Hrun _. split.
  - intros turns. by apply lift_runThreads.
  - intros assign gens. by apply lift_poolMap.
Qed.

Lemma chunked_augment_refines_inline_witness :
  (forall turns : list nat,
     Seeded.runThreads (map Seeded.lift [Examples.doubled]) Examples.batch201
       turns [[0; 1]; [2]] Examples.buffers 7 = (Examples.inlineOut, 7))
  /\ forall (assign : nat -> nat) (gens : nat -> nat),
       (Seeded.poolMap (map Seeded.lift [Examples.doubled]) assign 0 [[0; 1]; [2]]
          gens (DataSource.mkShared Examples.batch201 Examples.buffers)).1.1
       = replicate (length [[0; 1]; [2]]) (Ok ())
       /\ (Seeded.poolMap (map Seeded.lift [Examples.doubled]) assign 0
             [[0; 1]; [2]] gens
             (DataSource.mkShared Examples.batch201 Examples.buffers)).2
          = DataSource.mkShared Examples.batch201 Examples.inlineOut.
Proof.
  apply (chunked_augment_refines_inline [Examples.doubled] 3 (Some 2) 4
           [[0; 1]; [2]] Examples.batch201 Examples.buffers Examples.inlineOut
           7 7).
  - reflexivity.
  - repeat constructor. intros arrs outs Harrs [= <-].
    apply Forall_fmap. eapply Forall_impl; [exact Harrs|].
    intros a Ha. unfold wf in *. simpl. by rewrite length_map.
  - repeat constructor.
  - repeat constructor.
  - reflexivity.
Defined.

(** A stage of probability 1 that draws one number at every call, under a
    generator seeded the same for every strategy, on a batch of two records
    in two chunks. The inline loop gives the two rows the first and the
    second number. Two processes of the pool start from the same copy of
    the generator, so both rows get the first number. Worker threads share
    the generator, and when the second takes its turn first, the rows get
    the numbers the other way round. *)
Lemma seeded_stage_rows_differ_counterexample :
  DataSource.array_split (range 2) (DataSource.workerCount 2 (Some 2) 4)
  = Ok [[0]; [1]]
  /\ Seeded.applyAugments [Cases.jitter] Cases.two Cases.twoBuffers
       (Some (range 2)) 1
     = (Ok (), [mkArray int64 [2] [11; 22]%Z], 3)
  /\ (Seeded.poolMap [Cases.jitter] (fun k => k) 0 [[0]; [1]] (fun _ => 1)
        (DataSource.mkShared Cases.two Cases.twoBuffers)).2
     = DataSource.mkShared Cases.two [mkArray int64 [2] [11; 21]%Z]
  /\ Seeded.runThreads [Cases.jitter] Cases.two [1; 0] [[0]; [1]]
       Cases.twoBuffers 1
     = ([mkArray int64 [2] [12; 21]%Z], 3)
  /\ (Seeded.poolMap [Cases.jitter] (fun k => k) 0 [[0]; [1]] (fun _ => 1)
        (DataSource.mkShared Cases.two Cases.twoBuffers)).2
     <> DataSource.mkShared Cases.two
          (Seeded.applyAugments [Cases.jitter] Cases.two Cases.twoBuffers
             (Some (range 2)) 1).1.2
  /\ (Seeded.runThreads [Cases.jitter] Cases.two [1; 0] [[0]; [1]]
        Cases.twoBuffers 1).1
     <> (Seeded.applyAugments [Cases.jitter] Cases.two Cases.twoBuffers
           (Some (range 2)) 1).1.2.
Proof. repeat split; vm_compute; congruence. Qed.

(** *** Rows of an array: reading back what was assigned *)

Section ArrayRows.

Lemma size_of_cons n s : size_of (n :: s) = n * size_of s.
Proof. reflexivity. Qed.

(** Row [i] after [a[i] = v] is the value as it was stored. *)
Lemma getitem_setitem_eq a i v a' :
  wf a -> wf v -> setitem a i v = Ok a' ->
  exists d, broadcast_to v (tail (shape a)) = Ok d
            /\ getitem a' i = Ok (mkArray (dtype_of a) (tail (shape a)) d).
Proof.
  intros Ha Hv Hset.
  destruct (setitem_Ok_inv _ _ _ _ Hset) as (n & s & d & Hs & Hi & Hd & ->).
  pose proof (broadcast_to_length v s d Hv Hd) as Hlen.
  rewrite Hs. simpl. exists d. split; [done|].
  unfold getitem. simpl. destruct (decide (i < n)); [|lia]. do 2 f_equal.
  unfold wf in Ha. rewrite Hs, size_of_cons in Ha.
  rewrite drop_app_length'; [|rewrite length_take; nia].
  rewrite take_app_length'; [done|lia].
Qed.

(** The other rows are as they were. *)
Lemma getitem_setitem_ne a i k v a' :
  wf a -> wf v -> i <> k -> setitem a i v = Ok a' ->
  getitem a' k = getitem a k.
Proof.
  intros Ha Hv Hik Hset.
  destruct (setitem_Ok_inv _ _ _ _ Hset) as (n & s & d & Hs & Hi & Hd & ->).
  pose proof (broadcast_to_length v s d Hv Hd) as Hlen.
  unfold getitem. simpl. rewrite Hs. destruct (decide (k < n)); [|done].
  do 2 f_equal. unfold wf in Ha. rewrite Hs, size_of_cons in Ha.
  set (sz := size_of s) in *.
  apply list_eq. intros r.
  destruct (decide (r < sz)).
  - rewrite !lookup_take_lt by done. rewrite !lookup_drop.
    replace (i * sz + sz) with (i * sz + length d) by lia.
    rewrite put_lookup by nia.
    repeat case_decide; try done; nia.
  - by rewrite !lookup_take_ge by lia.
Qed.

(** Two well-formed arrays of one shape and dtype with the same rows are
    the same array. *)
Lemma array_rows_ext a b n s :
  wf a -> wf b -> shape a = n :: s -> shape b = n :: s ->
  dtype_of a = dtype_of b ->
  (forall k, k < n -> getitem a k = getitem b k) ->
  a = b.
Proof.
  intros Ha Hb Hsa Hsb Hdt Hrows.
  destruct a as [da sa xa], b as [db sb xb].
  unfold wf in Ha, Hb. cbn [shape dtype_of data] in *. subst.
  f_equal. rewrite size_of_cons in Ha, Hb.
  set (sz := size_of s) in *.
  apply list_eq. intros p.
  destruct (decide (p < n * sz)) as [Hp|Hp].
  - assert (Hsz : 0 < sz) by nia.
    pose proof (Nat.div_mod_eq p sz) as Hdm.
    pose proof (Nat.mod_upper_bound p sz ltac:(lia)) as Hmod.
    assert (Hk : p / sz < n).
    { apply Nat.Div0.div_lt_upper_bound. lia. }
    specialize (Hrows (p / sz) Hk). unfold getitem in Hrows.
    cbn [shape dtype_of data] in Hrows.
    destruct (decide (p / sz < n)); [|lia].
    injection Hrows as Hrows.
    apply (f_equal (fun l => l !! (p mod sz))) in Hrows.
    rewrite !lookup_take_lt in Hrows by done. rewrite !lookup_drop in Hrows.
    fold sz in Hrows.
    replace (p / sz * sz + p mod sz) with p in Hrows by lia. done.
  - rewrite !lookup_ge_None_2 by lia. done.
Qed.

End ArrayRows.

(** *** What the row loop leaves in the buffers *)

Section RowLoop.
Import DataSource.

Lemma writeRow_rows i : forall outarrs augArrays augs',
  Forall wf outarrs -> Forall wf augArrays ->
  writeRow i outarrs augArrays = (Ok (), augs') ->
  Forall2 (same_but [i]) augArrays augs'
  /\ forall j out aug aug',
       outarrs !! j = Some out -> augArrays !! j = Some aug ->
       augs' !! j = Some aug' -> row_holds aug aug' i out.
Proof.
  induction outarrs as [|out outarrs IH]; intros augArrays augs' Ho Ha Hw.
  - assert (augs' = augArrays) as -> by (destruct augArrays; simpl in Hw; congruence).
    split; [|done].
    apply Forall_Forall2_diag. eapply Forall_impl; [exact Ha|].
    intros a Hwf. by repeat split.
  - destruct augArrays as [|aug augArrays].
    { simpl in Hw. injection Hw as <-. split; [constructor|done]. }
    apply Forall_cons in Ho as [Hout Ho]. apply Forall_cons in Ha as [Haug Ha].
    simpl in Hw. destruct (setitem aug i out) as [a1|] eqn:Hs; [|done].
    destruct (writeRow i outarrs augArrays) as [[[]|] rest] eqn:Hrest; [|done].
    injection Hw as <-.
    destruct (IH augArrays rest Ho Ha Hrest) as [Hsame Hrows].
    destruct (setitem_keeps _ _ _ _ Hs) as [Hsh Hdt].
    split.
    + constructor; [|done].
      repeat split; [done|done|exact (setitem_wf aug i out a1 Haug Hout Hs)|].
      intros k Hk. apply (getitem_setitem_ne aug i k out a1 Haug Hout); [|exact Hs].
      intros ->. apply Hk. by left.
    + intros [|j] out' aug0 aug0'; simpl.
      * intros [= <-] [= <-] [= <-].
        exact (getitem_setitem_eq aug i out a1 Haug Hout Hs).
      * by apply Hrows.
Qed.

Lemma same_but_trans l1 l2 a b c :
  same_but l1 a b -> same_but l2 b c -> same_but (l1 ++ l2) a c.
Proof.
  intros (Hs1 & Hd1 & _ & Hr1) (Hs2 & Hd2 & Hw2 & Hr2).
  repeat split; [congruence|congruence|done|].
  intros k Hk. rewrite Hr2, Hr1; [done| |]; intros Hin; apply Hk;
    apply elem_of_app; auto.
Qed.

Lemma Forall2_same_but_trans l1 l2 xs : forall ys zs,
  Forall2 (same_but l1) xs ys -> Forall2 (same_but l2) ys zs ->
  Forall2 (same_but (l1 ++ l2)) xs zs.
Proof.
  induction xs as [|x xs IH]; intros ys zs H1 H2.
  - apply Forall2_nil_inv_l in H1 as ->. apply Forall2_nil_inv_l in H2 as ->.
    constructor.
  - apply Forall2_cons_inv_l in H1 as (y & ys' & Hxy & H1 & ->).
    apply Forall2_cons_inv_l in H2 as (z & zs' & Hyz & H2 & ->).
    constructor; [by eapply same_but_trans|by eapply IH].
Qed.

Section Loop.
Variable augments : list stage.
Variable batch : list ndarray.
Hypothesis Hstages : Forall stage_wf augments.
Hypothesis Hbatch : Forall wf batch.

(** The outputs of the pipeline on row [k] of the inputs. *)
Lemma augmentRow_rows k augArrays augs' :
  Forall wf augArrays ->
  augmentRow augments batch k augArrays = (Ok (), augs') ->
  exists inarrs outarrs,
    mapR (fun a => getitem a k) batch = Ok inarrs
    /\ runStages augments inarrs = Ok outarrs
    /\ Forall2 (same_but [k]) augArrays augs'
    /\ forall j out aug aug',
         outarrs !! j = Some out -> augArrays !! j = Some aug ->
         augs' !! j = Some aug' -> row_holds aug aug' k out.
Proof.
  intros Ha. unfold augmentRow.
  destruct (mapR (fun a => getitem a k) batch) as [inarrs|e] eqn:Hin;
    simpl; [|done].
  destruct (runStages augments inarrs) as [outarrs|e] eqn:Hout; [|done].
  intros Hw. exists inarrs, outarrs. split; [done|]. split; [done|].
  apply writeRow_rows; [|done|done].
  apply (runStages_wf augments inarrs outarrs Hstages); [|exact Hout].
  exact (rows_wf batch k inarrs Hbatch Hin).
Qed.

Lemma same_but_wf l xs ys : Forall2 (same_but l) xs ys -> Forall wf ys.
Proof.
  induction 1 as [|x y xs ys (_ & _ & Hwf & _) _ IH]; constructor; done.
Qed.

Lemma row_holds_same l aug mid aug' k out :
  same_but l aug mid -> row_holds mid aug' k out -> row_holds aug aug' k out.
Proof.
  intros (Hs & Hd & _ & _) (d & Hb & Hg). exists d. by rewrite <- Hs, <- Hd.
Qed.

(** After the loop over the indices [l] has returned: every buffer is what
    it was outside the rows of [l], and row [k] of buffer [j], for [k] in
    [l], holds output [j] of the pipeline on row [k] of the inputs. *)
Lemma augmentRows_rows l : forall augArrays augs',
  Forall wf augArrays ->
  augmentRows augments batch l augArrays = (Ok (), augs') ->
  Forall2 (same_but l) augArrays augs'
  /\ forall k, k ∈ l ->
       exists inarrs outarrs,
         mapR (fun a => getitem a k) batch = Ok inarrs
         /\ runStages augments inarrs = Ok outarrs
         /\ forall j out aug aug',
              outarrs !! j = Some out -> augArrays !! j = Some aug ->
              augs' !! j = Some aug' -> row_holds aug aug' k out.
Proof.
  induction l as [|i l IH]; intros augArrays augs' Ha Hrun; simpl in Hrun.
  - injection Hrun as <-. split.
    + apply Forall_Forall2_diag. eapply Forall_impl; [exact Ha|].
      intros a Hwf. by repeat split.
    + intros k Hk. by apply elem_of_nil in Hk.
  - destruct (augmentRow augments batch i augArrays) as [[[]|e] mid] eqn:Hrow;
      [|done].
    destruct (augmentRow_rows i augArrays mid Ha Hrow)
      as (in_i & out_i & Hin_i & Hout_i & Hsame_i & Hrows_i).
    destruct (IH mid augs' (same_but_wf _ _ _ Hsame_i) Hrun) as [Hsame Hrows].
    split; [exact (Forall2_same_but_trans [i] l _ _ _ Hsame_i Hsame)|].
    intros k Hk. destruct (decide (k ∈ l)) as [Hkl|Hkl].
    + destruct (Hrows k Hkl) as (inarrs & outarrs & Hin & Hout & Hr).
      exists inarrs, outarrs. split; [done|]. split; [done|].
      intros j out aug aug' Hj Haug Haug'.
      destruct (Forall2_lookup_l _ _ _ _ _ Hsame_i Haug) as (m & Hm & Hsb).
      eapply row_holds_same; [exact Hsb|]. by eapply Hr.
    + apply elem_of_cons in Hk as [->|Hk]; [|done].
      exists in_i, out_i. split; [done|]. split; [done|].
      intros j out aug aug' Hj Haug Haug'.
      destruct (Forall2_lookup_l _ _ _ _ _ Hsame_i Haug) as (m & Hm & Hsb).
      destruct (Hrows_i j out aug m Hj Haug Hm) as (d & Hb & Hg).
      exists d. split; [done|].
      pose proof (Forall2_lookup_lr _ _ _ _ _ _ Hsame Hm Haug')
        as (_ & _ & _ & Hframe).
      by rewrite (Hframe i Hkl).
Qed.

End Loop.

End RowLoop.

(** *** Rows of a fetched batch *)

Section Fetch.
Import DataSource.

Lemma concat_row (rs : list (list Z)) sz : forall k r,
  Forall (fun x => length x = sz) rs -> rs !! k = Some r ->
  take sz (drop (k * sz) (concat rs)) = r.
Proof.
  induction rs as [|x rs IH]; intros k r Hall Hk; [done|].
  apply Forall_cons in Hall as [Hx Hall]. destruct k as [|k]; simpl in *.
  - injection Hk as <-. rewrite drop_0, take_app_length'; done.
  - rewrite drop_app_add' by done. by apply IH.
Qed.

Lemma rows_of_getitem a n s inds rows :
  shape a = n :: s -> wf a ->
  mapR (getitem a) inds = Ok rows ->
  Forall (fun r => length r = size_of s) (map data rows).
Proof.
  intros Hs Ha Hm. apply mapR_Ok_inv in Hm.
  induction Hm as [|i r inds rows Hr _ IH]; simpl; [constructor|].
  constructor; [|done].
  pose proof (getitem_wf a i r Ha Hr) as Hwf.
  destruct (getitem_Ok_inv _ _ _ Hr) as [Hsr _]. rewrite Hs in Hsr.
  unfold wf in Hwf. by rewrite Hsr in Hwf.
Qed.

Lemma getitems_wf a inds r : wf a -> getitems a inds = Ok r -> wf r.
Proof.
  intros Ha. unfold getitems. destruct (shape a) as [|n s] eqn:Hs; [done|].
  destruct (mapR (getitem a) inds) as [rows|] eqn:Hrows; simpl; [|done].
  intros [= <-]. unfold wf. cbn [data shape]. rewrite size_of_cons.
  rewrite (concat_length_same _ (size_of s));
    [|by eapply rows_of_getitem].
  rewrite length_map. apply mapR_Ok_inv, Forall2_length in Hrows. by rewrite Hrows.
Qed.

(** Row [k] of [a[inds]] is row [inds[k]] of [a]. *)
Lemma getitems_row a inds r k i :
  wf a -> getitems a inds = Ok r -> inds !! k = Some i ->
  getitem r k = getitem a i.
Proof.
  intros Ha Hget Hk. unfold getitems in Hget.
  destruct (shape a) as [|n s] eqn:Hs; [done|].
  destruct (mapR (getitem a) inds) as [rows|] eqn:Hrows; simpl in Hget; [|done].
  injection Hget as <-.
  pose proof (rows_of_getitem a n s inds rows Hs Ha Hrows) as Hlens.
  pose proof (mapR_Ok_inv _ _ _ Hrows) as HF.
  destruct (Forall2_lookup_l _ _ _ _ _ HF Hk) as (row & Hrow & Hgi).
  rewrite Hgi. unfold getitem. simpl.
  destruct (decide (k < length inds)) as [_|Hge];
    [|apply lookup_lt_Some in Hk; lia].
  rewrite (concat_row _ (size_of s) k (data row) Hlens).
  - destruct (getitem_Ok_inv _ _ _ Hgi) as [Hsr Hdr]. rewrite Hs in Hsr.
    destruct row as [dr sr xr]. simpl in *. by subst.
  - by rewrite list_lookup_fmap, Hrow.
Qed.

Lemma concat_chunks n k : forall d, length d = n * k -> concat (chunks n k d) = d.
Proof.
  induction n as [|n IH]; intros d Hd; simpl.
  - by destruct d.
  - rewrite IH; [apply take_drop|]. rewrite length_drop. lia.
Qed.

(** Data of the target's own shape is stored as it is. *)
Lemma broadcast_id s : forall d, length d = size_of s -> broadcast s s d = Some d.
Proof.
  induction s as [|a s IH]; intros d Hd; simpl; [done|].
  destruct (decide (a = a)); [|done]. rewrite size_of_cons in Hd.
  assert (Hm : mapM (broadcast s s) (chunks a (size_of s) d)
               = Some (chunks a (size_of s) d)).
  { apply mapM_Some_2.
    pose proof (chunks_lengths a (size_of s) d Hd) as Hch.
    induction Hch as [|c cs Hc _ IHc]; constructor; [by apply IH|done]. }
  rewrite Hm. simpl. by rewrite concat_chunks.
Qed.

Lemma broadcast_to_id v : wf v -> broadcast_to v (shape v) = Ok (data v).
Proof.
  intros Hv. unfold broadcast_to. by rewrite align_same, broadcast_id.
Qed.

Lemma assign_all_id a b :
  wf b -> shape a = shape b -> dtype_of a = dtype_of b -> assign_all a b = Ok b.
Proof.
  intros Hb Hs Hd. unfold assign_all. rewrite Hs, broadcast_to_id by done.
  simpl. rewrite Hd. by destruct b.
Qed.

(** Overwriting the shared inputs with a batch of their shapes and dtypes
    leaves exactly the batch in them. *)
Lemma refreshInputs_id inArrays : forall batch,
  Forall wf batch ->
  map shape inArrays = map shape batch ->
  map dtype_of inArrays = map dtype_of batch ->
  refreshInputs inArrays batch = (Ok (), batch).
Proof.
  induction inArrays as [|a inArrays IH]; intros [|b batch] Hwf Hs Hd;
    simpl in *; try done.
  apply Forall_cons in Hwf as [Hb Hwf].
  injection Hs as Hsa Hs. injection Hd as Hda Hd.
  by rewrite (assign_all_id a b Hb Hsa Hda), (IH batch Hwf Hs Hd).
Qed.

End Fetch.

(** Row [k] of every array [defaultDataGen] returns is the record the
    [k]-th chosen index names in the corresponding backing array, the
    chosen indices being the ones supplied or else the ones drawn. *)
Theorem fetch_rows_are_chosen_records (self : DataSource.t) (batchSize : nat)
    (probs : option (list Q)) (chosenInds : option (list nat)) (draw : list nat)
    (batch : list ndarray) :
  Forall wf (DataSource.arrays self) ->
  DataSource.defaultDataGen self batchSize probs chosenInds draw = Ok batch ->
  length batch = length (DataSource.arrays self)
  /\ forall j a b k i,
       DataSource.arrays self !! j = Some a -> batch !! j = Some b ->
       default draw chosenInds !! k = Some i ->
       getitem b k = getitem a i.
Proof.
  intros Hwf. unfold DataSource.defaultDataGen.
  set (inds := default draw chosenInds).
  match goal with |- (?c ≫= _) = _ -> _ =>
    assert (Hc : forall l, c = Ok l -> l = inds) end.
  { destruct chosenInds as [c|]; simpl; [by intros l [= <-]|].
    intros l. destruct (DataSource.first_array self) as [a0|]; simpl; [|done].
    destruct (shape0 a0); simpl; [|done].
    unfold DataSource.random_choice. destruct (decide _); [done|].
    destruct probs; [destruct (decide _)|]; try done; by intros [= <-]. }
  match goal with |- (?c ≫= _) = _ -> _ => destruct c as [l|] end; simpl; [|done].
  rewrite (Hc l eq_refl). intros Hm. apply mapR_Ok_inv in Hm.
  split; [symmetry; by eapply Forall2_length|].
  intros j a b k i Ha Hb Hk.
  pose proof (Forall2_lookup_lr _ _ _ _ _ _ Hm Ha Hb) as Hget.
  eapply getitems_row; [|exact Hget|exact Hk].
  by eapply Forall_lookup_1.
Qed.

(** *** What a pull returns, row by row *)

Section Pulls.
Import DataSource.

Lemma defaultDataGen_wf self batchSize probs chosenInds draw batch :
  Forall wf (arrays self) ->
  defaultDataGen self batchSize probs chosenInds draw = Ok batch ->
  Forall wf batch.
Proof.
  intros Hwf. unfold defaultDataGen.
  match goal with |- (?c ≫= _) = _ -> _ => destruct c as [l|] end; simpl; [|done].
  intros Hm. apply mapR_Ok_inv in Hm.
  induction Hm as [|a b arrs batch' Hab _ IH]; [constructor|].
  apply Forall_cons in Hwf as [Ha Hwf].
  constructor; [eapply getitems_wf; [exact Ha|exact Hab]|by apply IH].
Qed.

Lemma getBatch_Ok_inv self batchSize draw augs out st :
  _getBatch self batchSize draw augs = (Ok out, st) ->
  st = out
  /\ exists batch,
       getRandomBatch self batchSize draw = Ok batch
       /\ augmentRows (augments self) batch (range batchSize) augs = (Ok (), out).
Proof.
  unfold _getBatch.
  destruct (getRandomBatch self batchSize draw) as [batch|]; [|done].
  unfold applyAugments.
  destruct (augmentRows (augments self) batch (range batchSize) augs)
    as [[[]|] augs'] eqn:Hrows; [|done].
  intros [= <- <-]. split; [done|]. by exists batch.
Qed.

Lemma map_eq_lookup {A B} (f : A -> B) (l1 l2 : list A) j a :
  map f l1 = map f l2 -> l1 !! j = Some a ->
  exists b, l2 !! j = Some b /\ f a = f b.
Proof.
  intros Hm Ha. apply (f_equal (fun l => l !! j)) in Hm.
  rewrite !list_lookup_fmap, Ha in Hm. simpl in Hm.
  destruct (l2 !! j) as [b|]; [|done]. injection Hm as Hm. eauto.
Qed.

(** With no stage in the pipeline, the loop over all the rows copies the
    batch into buffers of its shapes and dtypes. *)
Lemma augmentRows_identity batchSize batch augs out :
  Forall wf batch -> Forall wf augs ->
  Forall (fun a => exists s, shape a = batchSize :: s) batch ->
  map shape augs = map shape batch ->
  map dtype_of augs = map dtype_of batch ->
  augmentRows [] batch (range batchSize) augs = (Ok (), out) ->
  out = batch.
Proof.
  intros Hb Ha Hrows Hs Hd Hrun.
  destruct (augmentRows_rows [] batch (Forall_nil_2 _) Hb
              (range batchSize) augs out Ha Hrun) as [Hsame Hk].
  assert (Hlen : length out = length batch).
  { apply Forall2_length in Hsame. apply (f_equal length) in Hs.
    rewrite !length_map in Hs. lia. }
  apply list_eq_same_length with (length out); [done|done|].
  intros j o b Hj Ho Hbj.
  destruct (Forall2_lookup_r _ _ _ _ _ Hsame Ho) as (aug & Haug & Hsb).
  destruct Hsb as (Hso & Hdo & Hwo & _).
  destruct (map_eq_lookup shape _ _ _ _ Hs Haug) as (b' & Hb' & Hsab).
  destruct (map_eq_lookup dtype_of _ _ _ _ Hd Haug) as (b'' & Hb'' & Hdab).
  rewrite Hbj in Hb', Hb''. injection Hb' as <-. injection Hb'' as <-.
  destruct (proj1 (Forall_lookup _ _) Hrows j b Hbj) as [s Hsb].
  apply (array_rows_ext o b batchSize s); [done| |congruence|done|congruence|].
  { exact (Forall_lookup_1 _ _ _ _ Hb Hbj). }
  intros k Hlt.
  destruct (Hk k) as (inarrs & outarrs & Hin & Hout & Hrow).
  { apply elem_of_seq. lia. }
  simpl in Hout. injection Hout as <-.
  pose proof (mapR_Ok_inv _ _ _ Hin) as HF.
  destruct (Forall2_lookup_l _ _ _ _ _ HF Hbj) as (r & Hr & Hgr).
  destruct (Hrow j r aug o Hr Haug Ho) as (d & Hbr & Hgo).
  destruct (getitem_Ok_inv _ _ _ Hgr) as [Hsr Hdr].
  assert (Hrwf : wf r).
  { eapply getitem_wf; [|exact Hgr]. exact (Forall_lookup_1 _ _ _ _ Hb Hbj). }
  rewrite Hsab, <- Hsr, broadcast_to_id in Hbr by done. injection Hbr as <-.
  rewrite Hgo, Hgr. f_equal. rewrite Hsab, <- Hsr, Hdab, <- Hdr. by destruct r.
Qed.

End Pulls.

(** A pull of the inline generator that returns has fetched a batch and
    returns the output buffers themselves, in which row [k] of buffer [j],
    for every [k] below the batch size, holds output [j] of the pipeline on
    row [k] of the batch, whenever that output has the dtype of the buffer,
    so that it is stored without a cast. *)
Theorem inline_pull_row_by_row (self : DataSource.t) (batchSize : nat)
    (draw : list nat) (augs out st : list ndarray) :
  Forall DataSource.stage_wf (DataSource.augments self) ->
  Forall wf (DataSource.arrays self) -> Forall wf augs ->
  DataSource._getBatch self batchSize draw augs = (Ok out, st) ->
  st = out
  /\ exists batch,
       DataSource.getRandomBatch self batchSize draw = Ok batch
       /\ forall k, k < batchSize ->
            exists inarrs outarrs,
              mapR (fun a => getitem a k) batch = Ok inarrs
              /\ DataSource.getAugmentedArrays self inarrs = Ok outarrs
              /\ forall j o aug aug',
                   outarrs !! j = Some o -> augs !! j = Some aug ->
                   out !! j = Some aug' -> dtype_of o = dtype_of aug ->
                   DataSource.row_holds aug aug' k o.
Proof.
  intros Hst Hwf Haugs Hpull.
  destruct (getBatch_Ok_inv _ _ _ _ _ _ Hpull) as (-> & batch & Hbatch & Hrows).
  split; [done|]. exists batch. split; [done|].
  assert (Hbwf : Forall wf batch).
  { unfold DataSource.getRandomBatch in Hbatch. by eapply defaultDataGen_wf. }
  destruct (augmentRows_rows (DataSource.augments self) batch Hst Hbwf
              (range batchSize) augs out Haugs Hrows) as [_ Hk].
  intros k Hlt.
  destruct (Hk k) as (inarrs & outarrs & Hin & Hout & Hrow);
    [apply elem_of_seq; lia|].
  exists inarrs, outarrs. split; [done|]. split; [done|].
  intros j o aug aug' Ho Ha Ho' _. by apply (Hrow j).
Qed.

Lemma getBatch_identity (self : DataSource.t) (n batchSize : nat)
    (draw : list nat) (augs : list ndarray) :
  DataSource.store_ok self n -> 0 < n -> Forall wf (DataSource.arrays self) ->
  DataSource.augments self = [] ->
  DataSource.valid_draw n batchSize draw ->
  DataSource.batch_shaped self batchSize augs -> Forall wf augs ->
  exists batch,
    DataSource.getRandomBatch self batchSize draw = Ok batch
    /\ DataSource._getBatch self batchSize draw augs = (Ok batch, batch).
Proof.
  intros Hstore Hn Hwf Hid Hdraw Haugs Hawf.
  destruct (getBatch_Ok self n batchSize Hstore Hn Hid draw augs Hdraw Haugs)
    as (out & Hpull & _).
  destruct (getBatch_Ok_inv _ _ _ _ _ _ Hpull) as (_ & batch & Hbatch & Hrows).
  destruct (getRandomBatch_Ok self n batchSize draw Hstore Hn Hdraw)
    as (batch' & Hbatch' & Hshaped).
  rewrite Hbatch in Hbatch'. injection Hbatch' as <-.
  exists batch. split; [done|]. rewrite Hid in Hrows.
  rewrite (augmentRows_identity batchSize batch augs out) in Hpull; try done.
  - unfold DataSource.getRandomBatch in Hbatch. by eapply defaultDataGen_wf.
  - by eapply batch_shaped_rows.
  - destruct Haugs as [-> _], Hshaped as [-> _]. done.
  - destruct Haugs as [_ ->], Hshaped as [_ ->]. done.
Qed.

(** With the empty pipeline, a pull of the inline generator on a store of
    aligned, well-formed arrays without selection weights returns exactly
    the batch it fetched: the records of the drawn indices, in the order
    drawn. *)
Theorem inline_pull_returns_fetched_batch (self : DataSource.t) (n batchSize : nat)
    (draw : list nat) (augs : list ndarray) :
  DataSource.store_ok self n -> DataSource.selectProbs self = None ->
  0 < n -> Forall wf (DataSource.arrays self) ->
  DataSource.augments self = [] ->
  DataSource.valid_draw n batchSize draw ->
  DataSource.batch_shaped self batchSize augs -> Forall wf augs ->
  exists batch,
    DataSource.getRandomBatch self batchSize draw = Ok batch
    /\ DataSource._getBatch self batchSize draw augs = (Ok batch, batch).
Proof. intros Hstore _. by apply getBatch_identity. Qed.

(** So does, on such a store, a pass of the thread producer, whatever
    chunk table [np.array_split] gave it: it publishes exactly the batch it
    fetched. *)
Theorem thread_pass_publishes_fetched_batch (self : DataSource.t)
    (n batchSize sections : nat) (threadIndices : list (list nat))
    (draw : list nat) (augs : list ndarray) :
  DataSource.store_ok self n -> DataSource.selectProbs self = None ->
  0 < n -> Forall wf (DataSource.arrays self) ->
  DataSource.augments self = [] ->
  DataSource.array_split (range batchSize) sections = Ok threadIndices ->
  DataSource.valid_draw n batchSize draw ->
  DataSource.batch_shaped self batchSize augs -> Forall wf augs ->
  exists batch,
    DataSource.getRandomBatch self batchSize draw = Ok batch
    /\ DataSource.threadPass self batchSize threadIndices draw augs
       = (DataSource.Published batch, batch).
Proof.
  intros Hstore _ Hn Hwf Hid Hsplit Hdraw Haugs Hawf.
  destruct (getBatch_identity self n batchSize draw augs)
    as (batch & Hbatch & Hpull); try done.
  destruct (getBatch_Ok_inv _ _ _ _ _ _ Hpull) as (_ & batch' & Hbatch' & Hrows).
  rewrite Hbatch in Hbatch'. injection Hbatch' as <-.
  exists batch. split; [done|]. unfold DataSource.threadPass. rewrite Hbatch.
  rewrite <- (array_split_concat _ _ _ Hsplit) in Hrows.
  rewrite (runThreads_concat self batch threadIndices augs batch Hrows).
  unfold copy. by rewrite List.map_id.
Qed.

(** With a pipeline of at least one stage, all of them functions of the
    record tuple that draw nothing from the random generator, on a store
    without selection weights: a pass of the process producer publishes
    what a pull of the inline generator returns for the same sample and
    output buffers, and leaves the fetched batch in the shared inputs. *)
Theorem process_pass_matches_inline (self : DataSource.t)
    (n batchSize sections : nat) (procIndices : list (list nat))
    (draw : list nat) (sh : DataSource.shared) (out : list ndarray) :
  DataSource.store_ok self n -> DataSource.selectProbs self = None ->
  0 < n -> Forall wf (DataSource.arrays self) ->
  DataSource.augments self <> [] ->
  DataSource.array_split (range batchSize) sections = Ok procIndices ->
  DataSource.valid_draw n batchSize draw ->
  DataSource.batch_shaped self batchSize (DataSource.inArrays sh) ->
  DataSource._getBatch self batchSize draw (DataSource.augs sh) = (Ok out, out) ->
  exists batch,
    DataSource.getRandomBatch self batchSize draw = Ok batch
    /\ DataSource.processPass self batchSize procIndices (DataSource.augments self)
         draw sh
       = (DataSource.Published out, DataSource.mkShared batch out).
Proof.
  intros Hstore _ Hn Hwf Hne Hsplit Hdraw Hins Hpull.
  destruct (getBatch_Ok_inv _ _ _ _ _ _ Hpull) as (_ & batch & Hbatch & Hrows).
  destruct (getRandomBatch_Ok self n batchSize draw Hstore Hn Hdraw)
    as (batch' & Hbatch' & [Hbs Hbd]).
  rewrite Hbatch in Hbatch'. injection Hbatch' as <-.
  exists batch. split; [done|].
  unfold DataSource.processPass. rewrite Hbatch.
  unfold DataSource.fromShared, copy. rewrite !List.map_id.
  rewrite refreshInputs_id.
  - destruct (DataSource.augments self) as [|st sts] eqn:Haug; [done|].
    rewrite <- (array_split_concat _ _ _ Hsplit) in Hrows.
    rewrite (poolMap_concat (st :: sts) procIndices batch (DataSource.augs sh) out Hrows).
    by rewrite !List.map_id.
  - unfold DataSource.getRandomBatch in Hbatch. by eapply defaultDataGen_wf.
  - destruct Hins as [-> _]. by rewrite Hbs.
  - destruct Hins as [_ ->]. by rewrite Hbd.
Qed.

(** *** The theorems above at concrete stores *)

Lemma source_store_ok : DataSource.store_ok Examples.source 3.
Proof.
  split; [discriminate|]. split; [|exact I].
  repeat (apply Forall_cons; split; [eexists; reflexivity|]). apply Forall_nil_2.
Defined.

Lemma augmented_store_ok : DataSource.store_ok Examples.augmented 3.
Proof.
  split; [discriminate|]. split; [|exact I].
  repeat (apply Forall_cons; split; [eexists; reflexivity|]). apply Forall_nil_2.
Defined.

Lemma doubled_stage_wf : Forall DataSource.stage_wf [Examples.doubled].
Proof.
  repeat constructor. intros arrs outs Harrs [= <-].
  apply Forall_fmap. eapply Forall_impl; [exact Harrs|].
  intros a Ha. unfold wf in *. simpl. by rewrite length_map.
Defined.

Lemma fetch_rows_are_chosen_records_witness :
  length Cases.batch20 = length (DataSource.arrays Examples.source)
  /\ forall j a b k i,
       DataSource.arrays Examples.source !! j = Some a ->
       Cases.batch20 !! j = Some b ->
       default [2; 0] None !! k = Some i ->
       getitem b k = getitem a i.
Proof.
  apply (fetch_rows_are_chosen_records Examples.source 2 None None [2; 0]).
  - repeat constructor.
  - reflexivity.
Defined.

Lemma inline_pull_row_by_row_witness :
  Cases.doubled20 = Cases.doubled20
  /\ exists batch,
       DataSource.getRandomBatch Examples.augmented 2 [2; 0] = Ok batch
       /\ forall k, k < 2 ->
            exists inarrs outarrs,
              mapR (fun a => getitem a k) batch = Ok inarrs
              /\ DataSource.getAugmentedArrays Examples.augmented inarrs = Ok outarrs
              /\ forall j o aug aug',
                   outarrs !! j = Some o -> Cases.buffers2 !! j = Some aug ->
                   Cases.doubled20 !! j = Some aug' ->
                   dtype_of o = dtype_of aug ->
                   DataSource.row_holds aug aug' k o.
Proof.
  apply (inline_pull_row_by_row Examples.augmented 2 [2; 0] Cases.buffers2
           Cases.doubled20 Cases.doubled20).
  - exact doubled_stage_wf.
  - repeat constructor.
  - repeat constructor.
  - reflexivity.
Defined.

Lemma inline_pull_returns_fetched_batch_witness :
  exists batch,
    DataSource.getRandomBatch Examples.source 2 [2; 0] = Ok batch
    /\ DataSource._getBatch Examples.source 2 [2; 0] Cases.buffers2
       = (Ok batch, batch).
Proof.
  apply (inline_pull_returns_fetched_batch Examples.source 3 2 [2; 0] Cases.buffers2).
  - exact source_store_ok.
  - reflexivity.
  - lia.
  - repeat constructor.
  - reflexivity.
  - split; [reflexivity|]. repeat constructor.
  - split; reflexivity.
  - repeat constructor.
Defined.

Lemma thread_pass_publishes_fetched_batch_witness :
  exists batch,
    DataSource.getRandomBatch Examples.source 2 [2; 0] = Ok batch
    /\ DataSource.threadPass Examples.source 2 [[0]; [1]] [2; 0] Cases.buffers2
       = (DataSource.Published batch, batch).
Proof.
  apply (thread_pass_publishes_fetched_batch Examples.source 3 2 2 [[0]; [1]]
           [2; 0] Cases.buffers2).
  - exact source_store_ok.
  - reflexivity.
  - lia.
  - repeat constructor.
  - reflexivity.
  - reflexivity.
  - split; [reflexivity|]. repeat constructor.
  - split; reflexivity.
  - repeat constructor.
Defined.

Lemma process_pass_matches_inline_witness :
  exists batch,
    DataSource.getRandomBatch Examples.augmented 2 [2; 0] = Ok batch
    /\ DataSource.processPass Examples.augmented 2 [[0]; [1]]
         (DataSource.augments Examples.augmented) [2; 0] Cases.shared2
       = (DataSource.Published Cases.doubled20,
          DataSource.mkShared batch Cases.doubled20).
Proof.
  apply (process_pass_matches_inline Examples.augmented 3 2 2 [[0]; [1]] [2; 0]
           Cases.shared2 Cases.doubled20).
  - exact augmented_store_ok.
  - reflexivity.
  - lia.
  - repeat constructor.
  - discriminate.
  - reflexivity.
  - split; [reflexivity|]. repeat constructor.
  - split; reflexivity.
  - reflexivity.
Defined.

(** *** The chunk table of the worker threads and processes *)

Section ChunkTable.
Import DataSource.

Lemma split_sizes_lengths sizes : forall l,
  sum_list sizes <= length l -> map length (split_sizes l sizes) = sizes.
Proof.
  induction sizes as [|s sizes IH]; intros l Hl; simpl in *; [done|].
  rewrite length_take, IH; [f_equal; lia|]. rewrite length_drop. lia.
Qed.

Lemma array_split_sizes l sections chunks :
  array_split l sections = Ok chunks ->
  map length chunks
  = replicate (length l mod sections) (length l / sections + 1)
    ++ replicate (sections - length l mod sections) (length l / sections).
Proof.
  unfold array_split. destruct (decide (sections = 0)) as [|Hne]; [done|].
  intros [= <-]. apply split_sizes_lengths.
  rewrite sum_list_with_app, !sum_list_replicate.
  pose proof (Nat.div_mod_eq (length l) sections) as Hdm.
  pose proof (Nat.mod_upper_bound (length l) sections Hne) as Hlt.
  nia.
Qed.

End ChunkTable.

(** For a positive batch size the strategies get a chunk table: as many
    chunks as [min(batchSize, requested or cpu_count)], together the row
    indices in order, the first [batchSize mod count] chunks one row longer
    than the others, and none of them empty. *)
Theorem worker_chunks_partition (batchSize cpu_count : nat) (requested : option nat) :
  0 < batchSize -> 0 < cpu_count ->
  let count := DataSource.workerCount batchSize requested cpu_count in
  exists chunks,
    DataSource.array_split (range batchSize) count = Ok chunks
    /\ length chunks = count
    /\ concat chunks = range batchSize
    /\ map length chunks
       = replicate (batchSize mod count) (batchSize / count + 1)
         ++ replicate (count - batchSize mod count) (batchSize / count)
    /\ Forall (fun c => c <> []) chunks.
Proof.
  intros Hb Hc count.
  assert (Hpos : 0 < count) by (by apply workerCount_pos).
  assert (Hle : count <= batchSize).
  { unfold count, DataSource.workerCount. lia. }
  destruct (array_split_Ok (range batchSize) count Hpos) as [chunks Hsplit].
  pose proof (array_split_sizes _ _ _ Hsplit) as Hsizes.
  unfold range in Hsizes. rewrite length_seq in Hsizes.
  exists chunks. split; [done|]. split; [by eapply array_split_length|].
  split; [by eapply array_split_concat|]. split; [done|].
  assert (Heach : 1 <= batchSize / count).
  { apply Nat.div_le_lower_bound; lia. }
  assert (Hall : Forall (fun k => 0 < k) (map length chunks)).
  { rewrite Hsizes. apply Forall_app. split; apply Forall_replicate; lia. }
  apply (proj1 (Forall_fmap length (fun k => 0 < k) chunks)) in Hall.
  eapply Forall_impl; [exact Hall|].
  intros c Hlen ->. simpl in Hlen. lia.
Qed.

Lemma worker_chunks_partition_witness :
  exists chunks,
    DataSource.array_split (range 7) (DataSource.workerCount 7 (Some 3) 8) = Ok chunks
    /\ length chunks = DataSource.workerCount 7 (Some 3) 8
    /\ concat chunks = range 7
    /\ map length chunks
       = replicate (7 mod DataSource.workerCount 7 (Some 3) 8)
           (7 / DataSource.workerCount 7 (Some 3) 8 + 1)
         ++ replicate (DataSource.workerCount 7 (Some 3) 8
                       - 7 mod DataSource.workerCount 7 (Some 3) 8)
              (7 / DataSource.workerCount 7 (Some 3) 8)
    /\ Forall (fun c => c <> []) chunks.
Proof. apply (worker_chunks_partition 7 8 (Some 3)); lia. Defined.

(** *** Edge cases of entering and pulling *)

Section Edges.
Import DataSource.

(** Entering the local context looks at the arrays and the pipeline only,
    not at the selection weights. *)
Lemma localBatchGen_weights self probs batchSize :
  localBatchGen (mkSource (arrays self) probs (augments self)) batchSize
  = localBatchGen self batchSize.
Proof. reflexivity. Qed.

Lemma getRandomBatch_bad_weights self n s a0 ps batchSize draw :
  first_array self = Ok a0 -> shape a0 = n :: s ->
  selectProbs self = Some ps -> length ps <> n ->
  getRandomBatch self batchSize draw = Raise ValueError.
Proof.
  intros Hfirst Hs Hp Hlen. unfold getRandomBatch, defaultDataGen.
  rewrite Hfirst. simpl. unfold shape0. rewrite Hs. simpl.
  unfold random_choice. rewrite Hp.
  destruct (decide (n = 0 /\ batchSize <> 0)); [done|].
  by destruct (decide (length ps = n)).
Qed.

End Edges.

(** With a batch size of 0 the thread and the process contexts cannot be
    entered, on any store: the chunk table is asked for 0 chunks and
    [np.array_split] raises [ValueError]. The local context of an aligned
    store without selection weights and with the empty pipeline is entered,
    and its pull returns arrays of no rows. *)
Theorem zero_batch_size (self : DataSource.t) (n cpu_count : nat)
    (requested : option nat) (platform_system : string) (draw0 : list nat) :
  DataSource.store_ok self n -> DataSource.selectProbs self = None ->
  0 < n -> DataSource.augments self = [] ->
  DataSource.lower platform_system <> "windows"%string ->
  DataSource.threadBatchGen self 0 requested cpu_count draw0 = Raise ValueError
  /\ DataSource.processBatchGen self platform_system 0 requested cpu_count draw0
     = (Raise ValueError, DataSource.NothingStarted)
  /\ exists gen out,
       DataSource.localBatchGen self 0 = Ok gen
       /\ DataSource._getBatch self 0 [] gen = (Ok out, out)
       /\ DataSource.batch_shaped self 0 out.
Proof.
  intros Hstore _ Hn Hid Hp. split; [|split].
  - unfold DataSource.threadBatchGen, DataSource.workerCount. by simpl.
  - unfold DataSource.processBatchGen, DataSource.workerCount.
    destruct (decide _); [done|]. by simpl.
  - destruct (localBatchGen_Ok self n 0 Hstore Hn Hid) as (gen & Hgen & Hshaped).
    destruct (getBatch_Ok self n 0 Hstore Hn Hid [] gen) as (out & Hout & Hs);
      [by split|done|].
    by exists gen, out.
Qed.

Lemma zero_batch_size_witness :
  DataSource.threadBatchGen Examples.source 0 None 4 [] = Raise ValueError
  /\ DataSource.processBatchGen Examples.source "Linux" 0 None 4 []
     = (Raise ValueError, DataSource.NothingStarted)
  /\ exists gen out,
       DataSource.localBatchGen Examples.source 0 = Ok gen
       /\ DataSource._getBatch Examples.source 0 [] gen = (Ok out, out)
       /\ DataSource.batch_shaped Examples.source 0 out.
Proof.
  apply (zero_batch_size Examples.source 3 4 None "Linux" []).
  - exact source_store_ok.
  - reflexivity.
  - lia.
  - reflexivity.
  - vm_compute. discriminate.
Defined.

(** Selection weights whose length is not the number of records are found
    out by the first fetch, not on entering the local context: the local
    context of an aligned store with the empty pipeline is entered and every
    pull raises [ValueError] with the buffers untouched, whereas entering
    the thread context, which pulls once, raises [ValueError]. *)
Theorem bad_weights_fail_at_first_fetch (self : DataSource.t)
    (n batchSize cpu_count : nat) (requested : option nat) (ps : list Q) :
  DataSource.arrays self <> [] ->
  Forall (fun a => exists s, shape a = n :: s) (DataSource.arrays self) ->
  0 < n -> DataSource.augments self = [] ->
  DataSource.selectProbs self = Some ps -> length ps <> n ->
  0 < batchSize -> 0 < cpu_count ->
  (exists gen, DataSource.localBatchGen self batchSize = Ok gen)
  /\ (forall draw augs,
        DataSource._getBatch self batchSize draw augs = (Raise ValueError, augs))
  /\ forall draw0,
       DataSource.threadBatchGen self batchSize requested cpu_count draw0
       = Raise ValueError.
Proof.
  intros Hne Hrows Hn Hid Hp Hlen Hb Hc.
  assert (Hfirst : exists a0 s, DataSource.first_array self = Ok a0
                                /\ shape a0 = n :: s).
  { unfold DataSource.first_array. destruct (DataSource.arrays self); [done|].
    apply Forall_cons in Hrows as [[s Hs] _]. eauto. }
  destruct Hfirst as (a0 & s & Hfirst & Hs).
  pose proof (fun bs draw => getRandomBatch_bad_weights self n s a0 ps bs draw
                Hfirst Hs Hp Hlen) as Hfetch.
  assert (Hlocal : exists gen, DataSource.localBatchGen self batchSize = Ok gen).
  { rewrite <- (localBatchGen_weights self None).
    destruct (localBatchGen_Ok
                (DataSource.mkSource (DataSource.arrays self) None
                   (DataSource.augments self)) n batchSize) as (gen & Hgen & _);
      [by repeat split|done|done|eauto]. }
  split; [done|]. split.
  - intros draw augs. unfold DataSource._getBatch. by rewrite Hfetch.
  - intros draw0. unfold DataSource.threadBatchGen.
    destruct (array_split_Ok (range batchSize)
                (DataSource.workerCount batchSize requested cpu_count))
      as [chunks ->]; [by apply workerCount_pos|].
    simpl. destruct Hlocal as [gen ->]. simpl.
    unfold DataSource._getBatch. by rewrite Hfetch.
Qed.

Lemma bad_weights_fail_at_first_fetch_witness :
  (exists gen, DataSource.localBatchGen Cases.badWeights 2 = Ok gen)
  /\ (forall draw augs,
        DataSource._getBatch Cases.badWeights 2 draw augs = (Raise ValueError, augs))
  /\ forall draw0,
       DataSource.threadBatchGen Cases.badWeights 2 None 4 draw0 = Raise ValueError.
Proof.
  apply (bad_weights_fail_at_first_fetch Cases.badWeights 3 2 4 None
           [1 # 2; 1 # 2]%Q).
  - discriminate.
  - repeat (apply Forall_cons; split; [eexists; reflexivity|]). apply Forall_nil_2.
  - lia.
  - reflexivity.
  - reflexivity.
  - simpl. lia.
  - lia.
  - lia.
Defined.

(** A store whose first array has no rows cannot be entered with any
    strategy: the warm-up fetch of record 0 raises [IndexError], whatever
    the pipeline and the batch size. *)
Theorem store_without_records (self : DataSource.t) (a0 : ndarray) (s : list nat)
    (batchSize cpu_count : nat) (requested : option nat)
    (platform_system : string) (draw0 : list nat) :
  DataSource.first_array self = Ok a0 -> shape a0 = 0 :: s ->
  0 < batchSize -> 0 < cpu_count ->
  DataSource.lower platform_system <> "windows"%string ->
  DataSource.localBatchGen self batchSize = Raise IndexError
  /\ DataSource.threadBatchGen self batchSize requested cpu_count draw0
     = Raise IndexError
  /\ DataSource.processBatchGen self platform_system batchSize requested
       cpu_count draw0
     = (Raise IndexError, DataSource.NothingStarted).
Proof.
  intros Hfirst Hs Hb Hc Hp.
  assert (Hlocal : DataSource.localBatchGen self batchSize = Raise IndexError).
  { unfold DataSource.localBatchGen, DataSource.getIndexBatch,
      DataSource.defaultDataGen. simpl.
    unfold DataSource.first_array in Hfirst.
    destruct (DataSource.arrays self) as [|a l]; [done|].
    injection Hfirst as ->. simpl.
    unfold getitems. rewrite Hs. simpl. unfold getitem. rewrite Hs.
    by destruct (decide (0 < 0)); [lia|]. }
  split; [done|]. split.
  - unfold DataSource.threadBatchGen.
    destruct (array_split_Ok (range batchSize)
                (DataSource.workerCount batchSize requested cpu_count))
      as [chunks ->]; [by apply workerCount_pos|].
    simpl. by rewrite Hlocal.
  - unfold DataSource.processBatchGen. destruct (decide _); [done|].
    destruct (array_split_Ok (range batchSize)
                (DataSource.workerCount batchSize requested cpu_count))
      as [chunks ->]; [by apply workerCount_pos|].
    simpl. by rewrite Hlocal.
Qed.

Lemma store_without_records_witness :
  DataSource.localBatchGen Cases.noRecords 2 = Raise IndexError
  /\ DataSource.threadBatchGen Cases.noRecords 2 None 4 [] = Raise IndexError
  /\ DataSource.processBatchGen Cases.noRecords "Linux" 2 None 4 []
     = (Raise IndexError, DataSource.NothingStarted).
Proof.
  apply (store_without_records Cases.noRecords (mkArray int64 [0; 2] []) [2]
           2 4 None "Linux" []).
  - reflexivity.
  - reflexivity.
  - lia.
  - lia.
  - vm_compute. discriminate.
Defined.

(** A store without arrays and without stages is entered by the local
    strategy, with no buffers, and every pull raises [IndexError]; entering
    the thread context, which pulls once, raises it. *)
Theorem store_without_arrays (self : DataSource.t) (batchSize cpu_count : nat)
    (requested : option nat) :
  DataSource.arrays self = [] -> DataSource.augments self = [] ->
  0 < batchSize -> 0 < cpu_count ->
  DataSource.localBatchGen self batchSize = Ok []
  /\ (forall draw augs,
        DataSource._getBatch self batchSize draw augs = (Raise IndexError, augs))
  /\ forall draw0,
       DataSource.threadBatchGen self batchSize requested cpu_count draw0
       = Raise IndexError.
Proof.
  intros Harr Hid Hb Hc.
  assert (Hlocal : DataSource.localBatchGen self batchSize = Ok []).
  { unfold DataSource.localBatchGen, DataSource.getIndexBatch,
      DataSource.defaultDataGen, DataSource.getAugmentedArrays.
    by rewrite Harr, Hid. }
  assert (Hpull : forall draw augs,
             DataSource._getBatch self batchSize draw augs = (Raise IndexError, augs)).
  { intros draw augs.
    unfold DataSource._getBatch, DataSource.getRandomBatch,
      DataSource.defaultDataGen, DataSource.first_array. by rewrite Harr. }
  split; [done|]. split; [done|].
  intros draw0. unfold DataSource.threadBatchGen.
  destruct (array_split_Ok (range batchSize)
              (DataSource.workerCount batchSize requested cpu_count))
    as [chunks ->]; [by apply workerCount_pos|].
  simpl. rewrite Hlocal. simpl. by rewrite Hpull.
Qed.

Lemma store_without_arrays_witness :
  DataSource.localBatchGen Cases.noArrays 2 = Ok []
  /\ (forall draw augs,
        DataSource._getBatch Cases.noArrays 2 draw augs = (Raise IndexError, augs))
  /\ forall draw0,
       DataSource.threadBatchGen Cases.noArrays 2 None 4 draw0 = Raise IndexError.
Proof.
  apply (store_without_arrays Cases.noArrays 2 4 None); [reflexivity|reflexivity|lia|lia].
Defined.

(** Whatever a pull of the inline generator raises is an [IndexError] or a
    [ValueError] of numpy or was raised by a stage of the pipeline, when
    the stages return tuples of arrays that have the dtypes of the buffers
    they are stored into. *)
Theorem inline_pull_raises_only (self : DataSource.t) (batchSize : nat)
    (draw : list nat) (augs st : list ndarray) (e : exn) :
  DataSource._getBatch self batchSize draw augs = (Raise e, st) ->
  (forall batch,
     DataSource.getRandomBatch self batchSize draw = Ok batch ->
     DataSource.stored_uncast self batch augs) ->
  from_numpy e
  \/ exists stage x, stage ∈ DataSource.augments self /\ stage x = Raise e.
Proof.
  intros Hpull _.
  eapply (getBatch_raises
            (fun e => from_numpy e
                      \/ exists stage x, stage ∈ DataSource.augments self
                                         /\ stage x = Raise e) self);
    [by left| |exact Hpull].
  intros stg x e' Hin Hx. right. by exists stg, x.
Qed.

Lemma picky_keeps arrs outs : Examples.picky arrs = Ok outs -> outs = arrs.
Proof.
  unfold Examples.picky. destruct arrs as [|a l]; [by intros [= <-]|].
  destruct (data a) as [|x d]; [by intros [= <-]|].
  destruct (decide (30 <= x)%Z); [done|]. by intros [= <-].
Qed.

Lemma inline_pull_raises_only_witness :
  from_numpy (Exception "too large")
  \/ exists stage x,
       stage ∈ DataSource.augments Examples.guarded
       /\ stage x = Raise (Exception "too large").
Proof.
  apply (inline_pull_raises_only Examples.guarded 2 [0; 2] Examples.guardedBuffers
           [mkArray int64 [2; 2] [10; 11; 10; 11]%Z; mkArray int64 [2] [1; 1]%Z]
           (Exception "too large")).
  - reflexivity.
  - intros batch Hb. vm_compute in Hb. injection Hb as <-.
    intros k inarrs outarrs j o aug Hin Hout Ho Haug.
    unfold DataSource.getAugmentedArrays in Hout.
    cbn [DataSource.augments Examples.guarded DataSource.runStages] in Hout.
    destruct (Examples.picky inarrs) as [outs|] eqn:Hp; [|done].
    cbn in Hout. injection Hout as <-. apply picky_keeps in Hp as ->.
    apply mapR_Ok_inv in Hin.
    destruct (Forall2_lookup_r _ _ _ _ _ Hin Ho) as (a & Ha & Hrow).
    apply getitem_Ok_inv in Hrow as [_ ->].
    destruct j as [|[|j]]; cbn in Ha, Haug; [| |done].
    + by injection Ha as <-; injection Haug as <-.
    + by injection Ha as <-; injection Haug as <-.
Defined.

(** Whether a pull returns or raises, with any pipeline, the output buffers
    keep their shapes and dtypes, and so do the buffers and the published
    arrays of a pass of the thread producer. *)
Theorem buffers_keep_shape_and_dtype (self : DataSource.t) (batchSize : nat)
    (threadIndices : list (list nat)) (draw : list nat) (augs : list ndarray) :
  (map shape (DataSource._getBatch self batchSize draw augs).2 = map shape augs
   /\ map dtype_of (DataSource._getBatch self batchSize draw augs).2
      = map dtype_of augs)
  /\ (map shape (DataSource.threadPass self batchSize threadIndices draw augs).2
      = map shape augs
      /\ map dtype_of (DataSource.threadPass self batchSize threadIndices draw augs).2
         = map dtype_of augs)
  /\ forall b st,
       DataSource.threadPass self batchSize threadIndices draw augs
         = (DataSource.Published b, st) ->
       map shape b = map shape augs /\ map dtype_of b = map dtype_of augs.
Proof.
  assert (Hpass : map shape (DataSource.threadPass self batchSize threadIndices
                               draw augs).2 = map shape augs
                  /\ map dtype_of (DataSource.threadPass self batchSize
                                     threadIndices draw augs).2
                     = map dtype_of augs).
  { unfold DataSource.threadPass.
    destruct (DataSource.getRandomBatch self batchSize draw) as [batch|]; [|done].
    apply runThreads_keeps. }
  split; [|split; [exact Hpass|]].
  - unfold DataSource._getBatch.
    destruct (DataSource.getRandomBatch self batchSize draw) as [batch|]; [|done].
    unfold DataSource.applyAugments.
    pose proof (augmentRows_keeps (DataSource.augments self) batch
                  (range batchSize) augs) as Hk.
    by destruct (DataSource.augmentRows _ batch _ augs) as [[[]|] augs'].
  - intros b st Hpub. rewrite Hpub in Hpass. simpl in Hpass.
    unfold DataSource.threadPass in Hpub.
    destruct (DataSource.getRandomBatch self batchSize draw) as [batch|]; [|done].
    injection Hpub as <- <-. unfold copy. by rewrite List.map_id.
Qed.

(** *** The buffering store *)

Section Buffer.
Import DataSource BufferDataSource.

Lemma concatenate_rows a b c n m sa sb :
  shape a = n :: sa -> shape b = m :: sb -> concatenate a b = Ok c ->
  shape c = (n + m) :: sa /\ sb = sa.
Proof.
  unfold concatenate. intros -> ->. destruct (decide (sa = sb)); [|done].
  by intros [= <-].
Qed.

End Buffer.

(** An append that supplies an array for every array of a non-empty store
    adds the rows of the first supplied array to the store's size; the
    pipeline stays, and weights, when the store has any, become
    [ones/size] over the new size: one weight, 1 over the size, per
    record. *)
Theorem appendBuffer_grows (self : DataSource.t) (new joined : list ndarray)
    (a0 b0 : ndarray) (n m : nat) (sa sb : list nat) :
  DataSource.first_array self = Ok a0 -> shape a0 = n :: sa ->
  head new = Some b0 -> shape b0 = m :: sb ->
  mapR (fun ab => concatenate ab.1 ab.2) (zip (DataSource.arrays self) new) = Ok joined ->
  length (DataSource.arrays self) <= length new ->
  let out := BufferDataSource.appendBuffer self new in
  out.1 = Ok ()
  /\ BufferDataSource.bufferSize self = Ok n
  /\ BufferDataSource.bufferSize out.2 = Ok (n + m)
  /\ DataSource.augments out.2 = DataSource.augments self
  /\ match DataSource.selectProbs self with
     | None => DataSource.selectProbs out.2 = None
     | Some _ =>
         DataSource.selectProbs out.2 = Some (BufferDataSource.uniform (n + m))
         /\ length (BufferDataSource.uniform (n + m)) = n + m
     end.
Proof.
  intros Hfirst Hsa Hnew Hsb Hj Hlen out.
  unfold DataSource.first_array in Hfirst.
  destruct (DataSource.arrays self) as [|a own] eqn:Harr; [done|].
  injection Hfirst as ->.
  destruct new as [|b new]; [done|]. injection Hnew as ->.
  simpl in Hj. destruct (concatenate a0 b0) as [c|] eqn:Hc; [|done].
  simpl in Hj. destruct (mapR _ (zip own new)) as [rest|] eqn:Hrest; [|done].
  simpl in Hj. injection Hj as <-.
  destruct (concatenate_rows _ _ _ _ _ _ _ Hsa Hsb Hc) as [Hsc _].
  assert (Hloop : BufferDataSource.appendLoop (length (a0 :: own)) 0 (a0 :: own)
                    (b0 :: new) = (Ok (), c :: rest)).
  { pose proof (appendLoop_from (a0 :: own) [] (b0 :: new) (c :: rest)) as H.
    cbn [length app] in *. rewrite Nat.sub_0_r in H.
    rewrite H.
    - destruct (decide _); [done|]. lia.
    - simpl. by rewrite Hc, Hrest. }
  assert (Hout : out = BufferDataSource.appendBuffer self (b0 :: new)) by done.
  unfold BufferDataSource.appendBuffer in Hout. rewrite Harr, Hloop in Hout.
  unfold BufferDataSource.bufferSize at 1. rewrite Harr. unfold shape0 at 1.
  rewrite Hsa.
  destruct (DataSource.selectProbs self) as [ps|] eqn:Hps.
  - simpl in Hout. unfold shape0 in Hout. rewrite Hsc in Hout. simpl in Hout.
    rewrite Hout. simpl. unfold BufferDataSource.bufferSize, shape0. simpl.
    rewrite Hsc. repeat split; try done.
    apply length_replicate.
  - rewrite Hout. simpl. unfold BufferDataSource.bufferSize, shape0. simpl.
    by rewrite Hsc.
Qed.

(** Clearing a store of [n > 0] records drops its arrays: the size is then
    0, weights, when the store has any, become the empty vector, clearing
    again changes nothing, and every fetch raises [IndexError]. A store
    whose first array has no rows is left as it is, arrays included. *)
Theorem clearBuffer_empties (self : DataSource.t) (n : nat) :
  BufferDataSource.bufferSize self = Ok n ->
  let out := BufferDataSource.clearBuffer self in
  out.1 = Ok ()
  /\ if decide (0 < n)
     then DataSource.arrays out.2 = []
          /\ BufferDataSource.bufferSize out.2 = Ok 0
          /\ DataSource.selectProbs out.2
             = (fun _ => []) <$> DataSource.selectProbs self
          /\ DataSource.augments out.2 = DataSource.augments self
          /\ BufferDataSource.clearBuffer out.2 = (Ok (), out.2)
          /\ forall batchSize draw,
               DataSource.getRandomBatch out.2 batchSize draw = Raise IndexError
     else out.2 = self.
Proof.
  intros Hsize out. subst out. unfold BufferDataSource.clearBuffer. rewrite Hsize.
  destruct (decide (0 < n)); [|done]. simpl. repeat split.
Qed.

Lemma clearBuffer_empties_witness :
  (BufferDataSource.clearBuffer Cases.badWeights).1 = Ok ()
  /\ if decide (0 < 3)
     then DataSource.arrays (BufferDataSource.clearBuffer Cases.badWeights).2 = []
          /\ BufferDataSource.bufferSize (BufferDataSource.clearBuffer Cases.badWeights).2
             = Ok 0
          /\ DataSource.selectProbs (BufferDataSource.clearBuffer Cases.badWeights).2
             = (fun _ => []) <$> DataSource.selectProbs Cases.badWeights
          /\ DataSource.augments (BufferDataSource.clearBuffer Cases.badWeights).2
             = DataSource.augments Cases.badWeights
          /\ BufferDataSource.clearBuffer (BufferDataSource.clearBuffer Cases.badWeights).2
             = (Ok (), (BufferDataSource.clearBuffer Cases.badWeights).2)
          /\ forall batchSize draw,
               DataSource.getRandomBatch
                 (BufferDataSource.clearBuffer Cases.badWeights).2 batchSize draw
               = Raise IndexError
     else (BufferDataSource.clearBuffer Cases.badWeights).2 = Cases.badWeights.
Proof. apply (clearBuffer_empties Cases.badWeights 3). reflexivity. Defined.

(** Appending to a store that was cleared makes the supplied arrays the
    store's arrays, however many they are, with uniform weights over the
    rows of the first one when the store has weights. *)
Theorem append_after_clear (self : DataSource.t) (n m : nat) (new : list ndarray)
    (b0 : ndarray) (s : list nat) :
  BufferDataSource.bufferSize self = Ok n -> 0 < n ->
  head new = Some b0 -> shape b0 = m :: s ->
  BufferDataSource.appendBuffer (BufferDataSource.clearBuffer self).2 new
  = (Ok (),
     DataSource.mkSource new
       ((fun _ => BufferDataSource.uniform m) <$> DataSource.selectProbs self)
       (DataSource.augments self)).
Proof.
  intros Hsize Hn Hnew Hs. unfold BufferDataSource.clearBuffer. rewrite Hsize.
  destruct (decide (0 < n)); [|lia]. simpl.
  unfold BufferDataSource.appendBuffer. simpl.
  destruct new as [|b new]; [done|]. injection Hnew as ->.
  destruct (DataSource.selectProbs self); simpl; [|done].
  unfold shape0. by rewrite Hs.
Qed.

Lemma append_after_clear_witness :
  BufferDataSource.appendBuffer (BufferDataSource.clearBuffer Cases.badWeights).2
    [Examples.moreRecords; Examples.moreLabels]
  = (Ok (),
     DataSource.mkSource [Examples.moreRecords; Examples.moreLabels]
       ((fun _ => BufferDataSource.uniform 1)
          <$> DataSource.selectProbs Cases.badWeights)
       (DataSource.augments Cases.badWeights)).
Proof.
  apply (append_after_clear Cases.badWeights 3 1
           [Examples.moreRecords; Examples.moreLabels] Examples.moreRecords [2]).
  - reflexivity.
  - lia.
  - reflexivity.
  - reflexivity.
Defined.

Lemma appendBuffer_grows_witness :
  let out := BufferDataSource.appendBuffer Cases.badWeights
               [Examples.moreRecords; Examples.moreLabels] in
  out.1 = Ok ()
  /\ BufferDataSource.bufferSize Cases.badWeights = Ok 3
  /\ BufferDataSource.bufferSize out.2 = Ok (3 + 1)
  /\ DataSource.augments out.2 = DataSource.augments Cases.badWeights
  /\ match DataSource.selectProbs Cases.badWeights with
     | None => DataSource.selectProbs out.2 = None
     | Some _ =>
         DataSource.selectProbs out.2 = Some (BufferDataSource.uniform (3 + 1))
         /\ length (BufferDataSource.uniform (3 + 1)) = 3 + 1
     end.
Proof.
  apply (appendBuffer_grows Cases.badWeights
           [Examples.moreRecords; Examples.moreLabels]
           [mkArray int64 [4; 2] [10; 11; 20; 21; 30; 31; 40; 41]%Z;
            mkArray int64 [4] [1; 2; 3; 4]%Z]
           Examples.records Examples.moreRecords 3 1 [2] [2]).
  - reflexivity.
  - reflexivity.
  - reflexivity.
  - reflexivity.
  - reflexivity.
  - simpl. lia.
Defined.

(** *** The file store's cache as a dictionary *)

Section CacheDict.
Import FileDataSource.

Variable loadFile : string -> result ndarray.

Lemma dict_get_app_l k d e v :
  dict_get k d = Some v -> dict_get k (d ++ e) = Some v.
Proof.
  induction d as [|[k' v'] d IH]; simpl; [done|].
  destruct (decide (k = k')); [done|]. apply IH.
Qed.

Lemma dict_get_app_new k v d :
  dict_get k d = None -> dict_get k (d ++ [(k, v)]) = Some v.
Proof.
  induction d as [|[k' v'] d IH]; simpl.
  - by destruct (decide (k = k)).
  - destruct (decide (k = k')); [done|]. apply IH.
Qed.

Lemma dict_get_keys k d : dict_get k d = None <-> k ∉ dict_keys d.
Proof.
  induction d as [|[k' v'] d IH]; simpl.
  - split; [intros _; apply not_elem_of_nil|done].
  - rewrite not_elem_of_cons. destruct (decide (k = k')); [|tauto].
    split; [done|]. by intros [? _].
Qed.

(** What [_getCachedFile] does to the cache: nothing, or one new entry at
    the end, under a path that was not cached. *)
Lemma getCachedFile_cache path self :
  imageCache (_getCachedFile loadFile path self).2 = imageCache self
  \/ exists im, dict_get path (imageCache self) = None
                /\ imageCache (_getCachedFile loadFile path self).2
                   = imageCache self ++ [(path, im)].
Proof.
  unfold _getCachedFile.
  destruct (dict_get path (imageCache self)) eqn:Hget; [by left|].
  destruct (loadFile path) as [im|e]; [|by left].
  right. exists im. split; [done|]. simpl. by apply dict_set_absent.
Qed.

Lemma getCachedFile_prefix d0 path self :
  d0 `prefix_of` imageCache self ->
  d0 `prefix_of` imageCache (_getCachedFile loadFile path self).2.
Proof.
  intros Hpre. destruct (getCachedFile_cache path self) as [->|(im & _ & ->)];
    [done|]. by apply prefix_app_r.
Qed.

Lemma getCachedFile_NoDup path self :
  NoDup (dict_keys (imageCache self)) ->
  NoDup (dict_keys (imageCache (_getCachedFile loadFile path self).2)).
Proof.
  intros Hnd. destruct (getCachedFile_cache path self) as [->|(im & Hnone & ->)];
    [done|].
  unfold dict_keys in *. rewrite map_app. simpl.
  apply NoDup_app. split; [done|]. split; [|apply NoDup_singleton].
  intros k Hk ->%list_elem_of_singleton. by apply dict_get_keys in Hnone.
Qed.

Lemma getCachedFile_cached q path self :
  is_Some (dict_get q (imageCache self)) ->
  is_Some (dict_get q (imageCache (_getCachedFile loadFile path self).2)).
Proof.
  intros [v Hv]. destruct (getCachedFile_cache path self) as [->|(im & _ & ->)];
    [eauto|]. exists v. by apply dict_get_app_l.
Qed.

(** A call that returned has the path in the cache, with the image it
    returned. *)
Lemma getCachedFile_Ok path self im self' :
  _getCachedFile loadFile path self = (Ok im, self') ->
  dict_get path (imageCache self') = Some im.
Proof.
  unfold _getCachedFile.
  destruct (dict_get path (imageCache self)) as [im0|] eqn:Hget.
  - by intros [= <- <-].
  - destruct (loadFile path) as [im0|]; [|done]. intros [= <- <-]. simpl.
    rewrite dict_set_absent by done. by apply dict_get_app_new.
Qed.

End CacheDict.

Lemma getCachedFile_keeps (loadFile : string -> result ndarray)
    (path : string) (im : ndarray) (other : string) (self : FileDataSource.t) :
  FileDataSource.dict_get path (FileDataSource.imageCache self) = Some im ->
  FileDataSource.dict_get path
    (FileDataSource.imageCache
       (FileDataSource._getCachedFile loadFile other self).2) = Some im.
Proof.
  intros Hget.
  destruct (getCachedFile_cache loadFile other self) as [->|(im' & _ & ->)];
    [done|].
  by apply dict_get_app_l.
Qed.

(** Once a path has been fetched through the cache, no call of
    [_getCachedFile] takes its image out or replaces it: through the
    loading of any later fetch, up to the eviction that ends it, a call for
    the path returns the image first cached, with the state untouched and
    whatever the file has become since (the loader is not consulted). A
    call for a path that is not cached and whose load raises, raises and
    caches nothing. *)
Theorem cached_file_is_served (loadFile loadFile' : string -> result ndarray)
    (path : string) (self self' : FileDataSource.t) (im : ndarray) :
  FileDataSource._getCachedFile loadFile path self = (Ok im, self') ->
  (forall (chosenInds : list nat) (arrs : list (list string)),
     let later := (FileDataSource.fetchArrays loadFile' chosenInds arrs self').2 in
     FileDataSource._getCachedFile loadFile' path later = (Ok im, later))
  /\ forall (later : FileDataSource.t) e other,
       FileDataSource.dict_get other (FileDataSource.imageCache later) = None ->
       loadFile' other = Raise e ->
       FileDataSource._getCachedFile loadFile' other later = (Raise e, later).
Proof.
  intros Hget. apply getCachedFile_Ok in Hget. split.
  - intros chosenInds arrs later.
    pose proof (fetchArrays_preserves loadFile'
                  (fun st => FileDataSource.dict_get path
                               (FileDataSource.imageCache st) = Some im)
                  (getCachedFile_keeps loadFile' path im)
                  chosenInds arrs self' Hget) as Hlater.
    fold later in Hlater. unfold FileDataSource._getCachedFile.
    by rewrite Hlater.
  - intros later e other Hnone Hload. unfold FileDataSource._getCachedFile.
    by rewrite Hnone, Hload.
Qed.

Lemma cached_file_is_served_witness :
  let self' := FileDataSource.set_cache Examples.files
                 [("a"%string, Cases.image 1)] 4 in
  (forall (chosenInds : list nat) (arrs : list (list string)),
     let later := (FileDataSource.fetchArrays Cases.unreadable chosenInds arrs
                     self').2 in
     FileDataSource._getCachedFile Cases.unreadable "a" later
     = (Ok (Cases.image 1), later))
  /\ forall (later : FileDataSource.t) e other,
       FileDataSource.dict_get other (FileDataSource.imageCache later) = None ->
       Cases.unreadable other = Raise e ->
       FileDataSource._getCachedFile Cases.unreadable other later
       = (Raise e, later).
Proof.
  exact (cached_file_is_served Examples.loadFile Cases.unreadable "a"
           Examples.files _ (Cases.image 1) eq_refl).
Defined.

Section CacheOrder.
Import FileDataSource.

Variable loadFile : string -> result ndarray.

Lemma removeFiles_cache self :
  exists k, (_removeFiles self) = (Ok (), (_removeFiles self).2)
            /\ imageCache (_removeFiles self).2 = drop k (imageCache self)
            /\ k <= length (imageCache self)
            /\ (k = 0 \/ (0 < maxSize self)%Z).
Proof.
  unfold _removeFiles. destruct (decide (maxSize self <= 0)%Z).
  - exists 0. simpl. rewrite drop_0. repeat split; [lia|by left].
  - rewrite removeLoop_keys by reflexivity. simpl.
    eexists. split; [done|]. split; [done|].
    split; [apply evict_count_le|right; lia].
Qed.

Lemma removeFiles_NoDup self :
  NoDup (dict_keys (imageCache self)) ->
  NoDup (dict_keys (imageCache (_removeFiles self).2)).
Proof.
  intros Hnd. destruct (removeFiles_cache self) as (k & _ & -> & _).
  unfold dict_keys in *. eapply sublist_NoDup; [exact Hnd|].
  change (map fst (drop k (imageCache self)))
    with (fst <$> drop k (imageCache self)).
  rewrite fmap_drop. apply sublist_drop.
Qed.

Lemma dataGen_NoDup batchSize probs chosenInds draw self :
  NoDup (dict_keys (imageCache self)) ->
  NoDup (dict_keys (imageCache
           (_dataGen loadFile batchSize probs chosenInds draw self).2)).
Proof.
  unfold _dataGen. intros Hnd.
  match goal with |- context [match ?r with Ok _ => _ | Raise _ => _ end] =>
    destruct r as [inds|e] end; simpl; [|done].
  pose proof (fetchArrays_preserves loadFile _ (getCachedFile_NoDup loadFile)
                inds (arrays self) self Hnd) as H1.
  destruct (fetchArrays loadFile inds (arrays self) self) as [[outs|e] self'];
    simpl in *; [|done].
  pose proof (removeFiles_NoDup self' H1) as H2.
  destruct (_removeFiles self') as [[u|e] self'']; simpl in *; done.
Qed.

Lemma reachable_NoDup self :
  reachable loadFile self -> NoDup (dict_keys (imageCache self)).
Proof.
  induction 1 as [filelists maxSize probs self Hinit|? ? ? ? self _ IH].
  - unfold init in Hinit. destruct filelists as [|f0 fl].
    + injection Hinit as <-. constructor.
    + destruct (decide _); [|done]. injection Hinit as <-. constructor.
  - by apply dataGen_NoDup.
Qed.

Lemma dict_get_elem p im d : dict_get p d = Some im -> (p, im) ∈ d.
Proof.
  induction d as [|[k v] d IH]; simpl; [done|].
  destruct (decide (p = k)) as [->|].
  - intros [= ->]. apply list_elem_of_here.
  - intros H. apply list_elem_of_further. by apply IH.
Qed.

Lemma dict_get_NoDup p im d :
  NoDup (dict_keys d) -> (p, im) ∈ d -> dict_get p d = Some im.
Proof.
  induction d as [|[k v] d IH]; simpl; intros Hnd Hin.
  - by apply elem_of_nil in Hin.
  - apply NoDup_cons in Hnd as [Hk Hnd].
    apply elem_of_cons in Hin as [[= -> ->]|Hin].
    + by destruct (decide (k = k)).
    + destruct (decide (p = k)) as [->|]; [|by apply IH].
      exfalso. apply Hk. unfold dict_keys.
      change k with (fst (k, im)). by apply list_elem_of_fmap_2.
Qed.

Lemma dict_get_set q p im d :
  dict_get q (dict_set p im d)
  = if decide (q = p) then Some im else dict_get q d.
Proof.
  induction d as [|[k v] d IH]; simpl.
  - by destruct (decide (q = p)).
  - destruct (decide (p = k)) as [->|]; simpl.
    + by destruct (decide (q = k)).
    + destruct (decide (q = k)) as [->|]; [|done].
      by destruct (decide (k = p)).
Qed.

Lemma getCachedFile_faithful path self :
  cache_faithful loadFile self ->
  cache_faithful loadFile (_getCachedFile loadFile path self).2.
Proof.
  unfold _getCachedFile, cache_faithful. intros H.
  destruct (dict_get path (imageCache self)); [done|].
  destruct (loadFile path) as [im|e] eqn:Hload; [|done]. simpl.
  intros p im'. rewrite dict_get_set.
  destruct (decide (p = path)) as [->|]; [|by apply H]. by intros [= <-].
Qed.

Lemma getCachedFile_load path self im :
  cache_faithful loadFile self -> loadFile path = Ok im ->
  _getCachedFile loadFile path self
  = (Ok im, (_getCachedFile loadFile path self).2).
Proof.
  unfold _getCachedFile. intros H Hload.
  destruct (dict_get path (imageCache self)) as [im'|] eqn:E.
  - apply H in E. rewrite Hload in E. by injection E as ->.
  - by rewrite Hload.
Qed.

Lemma removeFiles_faithful self :
  NoDup (dict_keys (imageCache self)) ->
  cache_faithful loadFile self ->
  cache_faithful loadFile (_removeFiles self).2.
Proof.
  intros Hnd H p im. destruct (removeFiles_cache self) as (k & _ & -> & _).
  intros Hget. apply H. apply dict_get_NoDup; [done|].
  apply dict_get_elem in Hget.
  exact (subseteq_drop k _ _ Hget).
Qed.

Lemma dataGen_faithful batchSize probs chosenInds draw self :
  NoDup (dict_keys (imageCache self)) ->
  cache_faithful loadFile self ->
  cache_faithful loadFile
    (_dataGen loadFile batchSize probs chosenInds draw self).2.
Proof.
  unfold _dataGen. intros Hnd Hf.
  match goal with |- context [match ?r with Ok _ => _ | Raise _ => _ end] =>
    destruct r as [inds|e] end; simpl; [|done].
  pose proof (fetchArrays_preserves loadFile _ (getCachedFile_NoDup loadFile)
                inds (arrays self) self Hnd) as H1.
  pose proof (fetchArrays_preserves loadFile _ getCachedFile_faithful
                inds (arrays self) self Hf) as H2.
  destruct (fetchArrays loadFile inds (arrays self) self) as [[outs|e] self'];
    simpl in *; [|done].
  pose proof (removeFiles_faithful self' H1 H2) as H3.
  destruct (_removeFiles self') as [[u|e] self'']; simpl in *; done.
Qed.

Lemma reachable_faithful self :
  reachable loadFile self -> cache_faithful loadFile self.
Proof.
  induction 1 as [filelists maxSize probs self Hinit|? ? ? ? self Hr IH].
  - unfold init in Hinit. destruct filelists as [|f0 fl].
    + by injection Hinit as <-.
    + destruct (decide _); [|done]. by injection Hinit as <-.
  - apply dataGen_faithful; [by apply reachable_NoDup|done].
Qed.

End CacheOrder.

(** In every state a file store goes through, from [__init__] on and
    through fetches that return or raise, no path is cached twice, every
    cached image is the one its path decodes to, and the recorded size is
    not negative. *)
Theorem reachable_cache_is_consistent (loadFile : string -> result ndarray)
    (self : FileDataSource.t) :
  FileDataSource.reachable loadFile self ->
  NoDup (FileDataSource.dict_keys (FileDataSource.imageCache self))
  /\ FileDataSource.cache_faithful loadFile self
  /\ (0 <= FileDataSource.currentSize self)%Z.
Proof.
  intros Hreach. split; [by eapply reachable_NoDup|].
  split; [by apply reachable_faithful|].
  rewrite (reachable_size_inv loadFile self Hreach). apply cached_bytes_nonneg.
Qed.

Lemma reachable_cache_is_consistent_witness :
  NoDup (FileDataSource.dict_keys (FileDataSource.imageCache Examples.fetched.2))
  /\ FileDataSource.cache_faithful Examples.loadFile Examples.fetched.2
  /\ (0 <= FileDataSource.currentSize Examples.fetched.2)%Z.
Proof.
  apply (reachable_cache_is_consistent Examples.loadFile).
  apply FileDataSource.reach_fetch.
  by apply (FileDataSource.reach_init Examples.loadFile
              [["a"; "bb"; "ccc"]%string] 8 None).
Defined.

(** Eviction with a positive budget keeps the most recently cached image
    whenever that image alone fits the budget, and takes out the oldest one
    whenever the cache is over the budget. *)
Theorem eviction_keeps_newest_drops_oldest (self : FileDataSource.t)
    (older : FileDataSource.dict) (path : string) (im : ndarray) :
  (0 < FileDataSource.maxSize self)%Z ->
  FileDataSource.size_inv self ->
  FileDataSource.imageCache self = older ++ [(path, im)] ->
  (Z.of_nat (nbytes im) <= FileDataSource.maxSize self)%Z ->
  exists k,
    k <= length older
    /\ FileDataSource.imageCache (FileDataSource._removeFiles self).2
       = drop k older ++ [(path, im)]
    /\ ((FileDataSource.currentSize self > FileDataSource.maxSize self)%Z -> 0 < k).
Proof.
  intros Hmax Hinv Hcache Hfits.
  unfold FileDataSource._removeFiles.
  destruct (decide (FileDataSource.maxSize self <= 0)%Z); [lia|].
  rewrite removeLoop_keys by reflexivity. simpl.
  set (k := FileDataSource.evict_count _ _ _).
  pose proof (evict_count_le (FileDataSource.currentSize self)
                (FileDataSource.maxSize self) (FileDataSource.imageCache self)) as Hle.
  fold k in Hle. rewrite Hcache, length_app in Hle. simpl in Hle.
  assert (Hk : k <= length older).
  { destruct (decide (k <= length older)); [done|].
    pose proof (evict_count_minimal (FileDataSource.maxSize self)
                  (FileDataSource.imageCache self)
                  (FileDataSource.currentSize self) (length older)) as Hmin.
    fold k in Hmin. specialize (Hmin ltac:(lia)).
    rewrite Hinv, Hcache, take_app_length, cached_bytes_app in Hmin.
    unfold FileDataSource.cached_bytes at 2 in Hmin. simpl in Hmin. lia. }
  exists k. split; [done|]. split.
  - rewrite Hcache. by rewrite drop_app_le.
  - intros Hover. subst k. rewrite Hcache. destruct older as [|[k0 v0] older].
    + exfalso. rewrite Hinv, Hcache in Hover.
      unfold FileDataSource.cached_bytes in Hover. simpl in Hover. lia.
    + simpl. destruct (decide _); [lia|done].
Qed.

Lemma eviction_keeps_newest_drops_oldest_witness :
  exists k,
    k <= 2
    /\ FileDataSource.imageCache (FileDataSource._removeFiles Cases.overBudget).2
       = drop k [("a"%string, Cases.image 1); ("bb"%string, Cases.image 2)]
         ++ [("ccc"%string, Cases.image 3)]
    /\ ((FileDataSource.currentSize Cases.overBudget
         > FileDataSource.maxSize Cases.overBudget)%Z -> 0 < k).
Proof.
  apply (eviction_keeps_newest_drops_oldest Cases.overBudget
           [("a"%string, Cases.image 1); ("bb"%string, Cases.image 2)]
           "ccc" (Cases.image 3)).
  - reflexivity.
  - reflexivity.
  - reflexivity.
  - by vm_compute.
Defined.

Section FileFetch.
Import FileDataSource.

Variable loadFile : string -> result ndarray.

Lemma fillRows_images s chosen : forall i out self n,
  cache_faithful loadFile self ->
  Forall (fun c => exists im, loadFile c = Ok im /\ shape im = s /\ wf im) chosen ->
  shape out = n :: s -> wf out -> i + length chosen <= n ->
  exists out' self',
    fillRows loadFile i chosen out self = (Ok out', self')
    /\ cache_faithful loadFile self'
    /\ shape out' = n :: s /\ dtype_of out' = dtype_of out /\ wf out'
    /\ (forall r, r < i -> getitem out' r = getitem out r)
    /\ (forall k c im, chosen !! k = Some c -> loadFile c = Ok im ->
          getitem out' (i + k) = Ok (mkArray (dtype_of out) s (data im))).
Proof.
  induction chosen as [|c chosen IH]; intros i out self n Hf Hall Hs Hwf Hlen.
  - exists out, self. cbn [fillRows]. repeat split; try done.
  - apply Forall_cons in Hall as [(im0 & Hload & Hs0 & Hwf0) Hall].
    cbn [length] in Hlen. cbn [fillRows].
    rewrite (getCachedFile_load loadFile c self im0 Hf Hload).
    pose proof (getCachedFile_faithful loadFile c self Hf) as Hf1.
    set (self1 := (_getCachedFile loadFile c self).2) in *.
    destruct (setitem_Ok out n i im0) as [out1 Hset];
      [by rewrite Hs0|lia|]. rewrite Hset.
    destruct (setitem_keeps _ _ _ _ Hset) as [Hs1 Hd1].
    pose proof (setitem_wf _ _ _ _ Hwf Hwf0 Hset) as Hwf1.
    destruct (IH (S i) out1 self1 n Hf1 Hall) as
      (out' & self' & Hfill & Hf' & Hs' & Hd' & Hwf' & Hlow & Hrows);
      [by rewrite Hs1|done|lia|].
    exists out', self'. split; [done|]. split; [done|]. split; [done|].
    split; [by rewrite Hd'|]. split; [done|]. split.
    + intros r Hr. rewrite Hlow by lia.
      apply (getitem_setitem_ne out i r im0 out1); [done|done|lia|done].
    + intros [|k] c' im Hc Him.
      * injection Hc as <-. rewrite Hload in Him. injection Him as <-.
        rewrite Nat.add_0_r, Hlow by lia.
        destruct (getitem_setitem_eq out i im0 out1 Hwf Hwf0 Hset)
          as (d & Hd & ->).
        rewrite Hs in Hd. cbn [tail] in Hd. rewrite <- Hs0 in Hd.
        rewrite (broadcast_to_id im0 Hwf0) in Hd. injection Hd as <-.
        by rewrite Hs.
      * replace (i + S k) with (S i + k) by lia. rewrite <- Hd1.
        by apply (Hrows k c').
Qed.

Lemma zeros_wf s d : wf (zeros s d).
Proof. unfold wf, zeros. cbn [data shape]. apply length_replicate. Qed.

Lemma fetchArray_images s d inds arr self :
  cache_faithful loadFile self ->
  Forall (fun c => exists im, loadFile c = Ok im /\ shape im = s
                              /\ dtype_of im = d /\ wf im) arr ->
  inds <> [] -> Forall (fun i => i < length arr) inds ->
  exists out self',
    fetchArray loadFile inds arr self = (Ok out, self')
    /\ cache_faithful loadFile self'
    /\ shape out = length inds :: s /\ dtype_of out = d
    /\ forall k i p im, inds !! k = Some i -> arr !! i = Some p ->
         loadFile p = Ok im -> getitem out k = Ok im.
Proof.
  intros Hf Harr Hne Hinds. unfold fetchArray.
  set (f := fun i => match arr !! i with
                     | Some p => Ok p
                     | None => Raise IndexError
                     end).
  destruct (mapR_Ok f inds) as (chosen & Hmap & Hch).
  { eapply Forall_impl; [exact Hinds|]. intros i Hi. unfold f.
    destruct (lookup_lt_is_Some_2 arr i Hi) as [p ->]. eauto. }
  rewrite Hmap.
  assert (Hin : Forall (fun c => c ∈ arr) chosen).
  { clear -Hch. induction Hch as [|i c l l' Hic _ IH]; constructor; [|done].
    unfold f in Hic. destruct (arr !! i) as [p|] eqn:E; [|done].
    injection Hic as <-. by eapply list_elem_of_lookup_2. }
  assert (Hall : Forall (fun c => exists im, loadFile c = Ok im /\ shape im = s
                                              /\ dtype_of im = d /\ wf im) chosen).
  { eapply Forall_impl; [exact Hin|]. intros c Hc.
    by apply (proj1 (Forall_forall _ arr) Harr c). }
  pose proof (Forall2_length _ _ _ Hch) as Hlen.
  destruct chosen as [|c0 chosen'].
  { destruct inds; [done|discriminate Hlen]. }
  pose proof (Forall_inv Hall) as (im0 & Hload0 & Hs0 & Hd0 & Hwf0).
  rewrite (getCachedFile_load loadFile c0 self im0 Hf Hload0).
  pose proof (getCachedFile_faithful loadFile c0 self Hf) as Hf1.
  set (self1 := (_getCachedFile loadFile c0 self).2) in *.
  destruct (fillRows_images s (c0 :: chosen') 0
              (zeros (length inds :: shape im0) (dtype_of im0)) self1
              (length inds) Hf1) as
    (out & self' & Hfill & Hf' & Hs' & Hd' & Hwf' & _ & Hrows).
  { eapply Forall_impl; [exact Hall|]. intros c (im & ? & ? & ? & ?). eauto. }
  { by rewrite Hs0. }
  { apply zeros_wf. }
  { rewrite <- Hlen. lia. }
  exists out, self'. split; [done|]. split; [done|]. split; [done|].
  split; [by rewrite Hd'|].
  intros k i p im Hk Hi Him.
  destruct (Forall2_lookup_l _ _ _ _ _ Hch Hk) as (c & Hc & Hfc).
  unfold f in Hfc. rewrite Hi in Hfc. injection Hfc as <-.
  rewrite <- (Nat.add_0_l k). rewrite (Hrows k p im Hc Him).
  assert (Hp : p ∈ arr) by (by eapply list_elem_of_lookup_2).
  destruct (proj1 (Forall_forall _ arr) Harr p Hp) as (im' & Him' & Hsi & Hdi & _).
  rewrite Him in Him'. injection Him' as <-.
  destruct im as [di si dat]. cbn [zeros dtype_of shape data] in *.
  by subst.
Qed.

Lemma fetchArrays_images s d inds arrs : forall self,
  cache_faithful loadFile self ->
  Forall (Forall (fun c => exists im, loadFile c = Ok im /\ shape im = s
                                      /\ dtype_of im = d /\ wf im)) arrs ->
  inds <> [] -> Forall (fun arr => Forall (fun i => i < length arr) inds) arrs ->
  exists outs self',
    fetchArrays loadFile inds arrs self = (Ok outs, self')
    /\ Forall2 (fun arr out =>
         shape out = length inds :: s /\ dtype_of out = d
         /\ forall k i p im, inds !! k = Some i -> arr !! i = Some p ->
              loadFile p = Ok im -> getitem out k = Ok im) arrs outs.
Proof.
  induction arrs as [|arr arrs IH]; intros self Hf Harrs Hne Hinds.
  - exists [], self. by split.
  - apply Forall_cons in Harrs as [Harr Harrs].
    apply Forall_cons in Hinds as [Hind Hinds].
    destruct (fetchArray_images s d inds arr self Hf Harr Hne Hind)
      as (out & self1 & Hfetch & Hf1 & Hout).
    destruct (IH self1 Hf1 Harrs Hne Hinds) as (outs & self' & Hrest & Houts).
    exists (out :: outs), self'. cbn [fetchArrays]. rewrite Hfetch, Hrest.
    split; [done|]. by constructor.
Qed.

Lemma fetchArray_bad_index inds arr self :
  inds = [] \/ Exists (fun i => length arr <= i) inds ->
  fetchArray loadFile inds arr self = (Raise IndexError, self).
Proof.
  unfold fetchArray. intros [->|Hex]; [done|].
  set (f := fun i => match arr !! i with
                     | Some p => Ok p
                     | None => Raise IndexError
                     end).
  assert (mapR f inds = Raise IndexError) as ->; [|done].
  induction Hex as [i l Hi|i l _ IH]; cbn [mapR].
  - unfold f at 1. by rewrite (lookup_ge_None_2 arr i Hi).
  - unfold f at 1. destruct (arr !! i); [|done]. cbn. by rewrite IH.
Qed.

End FileFetch.

(** Fetching given records from a file store whose files all decode to
    images of one shape and dtype returns one array per file list, of that
    dtype and with one image-shaped row per index; row [k] is the image
    decoded from the path at index [inds[k]] of the list. *)
Theorem file_fetch_returns_chosen_images (loadFile : string -> result ndarray)
    (self : FileDataSource.t) (s : list nat) (d : dtype) (n batchSize : nat)
    (probs : option (list Q)) (inds draw : list nat) :
  FileDataSource.cache_faithful loadFile self ->
  FileDataSource.images_of loadFile s d self ->
  Forall (fun arr => length arr = n) (FileDataSource.arrays self) ->
  inds <> [] -> Forall (fun i => i < n) inds ->
  exists outs self',
    FileDataSource._dataGen loadFile batchSize probs (Some inds) draw self
    = (Ok outs, self')
    /\ length outs = length (FileDataSource.arrays self)
    /\ forall j arr out,
         FileDataSource.arrays self !! j = Some arr -> outs !! j = Some out ->
         shape out = length inds :: s /\ dtype_of out = d
         /\ forall k i p im, inds !! k = Some i -> arr !! i = Some p ->
              loadFile p = Ok im -> getitem out k = Ok im.
Proof.
  intros Hf Him Hlens Hne Hinds.
  destruct (fetchArrays_images loadFile s d inds (FileDataSource.arrays self)
              self Hf) as (outs & mid & Hfetch & Houts).
  - apply Forall_forall. intros arr Harr. apply Forall_forall. intros p Hp.
    by apply (Him arr p).
  - done.
  - eapply Forall_impl; [exact Hlens|]. intros arr ->. done.
  - destruct (removeFiles_cache mid) as (k & Hrm & _).
    exists outs, (FileDataSource._removeFiles mid).2.
    unfold FileDataSource._dataGen. rewrite Hfetch, Hrm.
    split; [done|]. split; [symmetry; by eapply Forall2_length|].
    intros j arr out Harr Hout.
    exact (Forall2_lookup_lr _ _ _ _ _ _ Houts Harr Hout).
Qed.

Lemma file_fetch_returns_chosen_images_witness :
  exists outs self',
    FileDataSource._dataGen Examples.loadFile 2 None (Some [2; 0]) []
      Examples.files = (Ok outs, self')
    /\ length outs = length (FileDataSource.arrays Examples.files)
    /\ forall j arr out,
         FileDataSource.arrays Examples.files !! j = Some arr ->
         outs !! j = Some out ->
         shape out = length [2; 0] :: [2; 2] /\ dtype_of out = uint8
         /\ forall k i p im, [2; 0] !! k = Some i -> arr !! i = Some p ->
              Examples.loadFile p = Ok im -> getitem out k = Ok im.
Proof.
  apply (file_fetch_returns_chosen_images Examples.loadFile Examples.files
           [2; 2] uint8 3 2 None [2; 0] []).
  - intros p im H. discriminate H.
  - intros arr p _ _. eexists. repeat split.
  - repeat constructor.
  - discriminate.
  - repeat constructor.
Defined.

(** A fetch from a file store with no index, or with an index past the end
    of the first file list, raises [IndexError] before any file is read:
    the cache and its recorded size are as before. A store without file
    lists returns the empty tuple for given indices and raises
    [IndexError] for a random fetch. *)
Theorem file_fetch_bad_selection (loadFile : string -> result ndarray)
    (self : FileDataSource.t) (batchSize : nat) (probs : option (list Q))
    (inds draw : list nat) :
  (forall arr rest,
     FileDataSource.arrays self = arr :: rest ->
     inds = [] \/ Exists (fun i => length arr <= i) inds ->
     FileDataSource._dataGen loadFile batchSize probs (Some inds) draw self
     = (Raise IndexError, self))
  /\ (FileDataSource.arrays self = [] ->
      FileDataSource._dataGen loadFile batchSize probs (Some inds) draw self
      = (Ok [], (FileDataSource._removeFiles self).2)
      /\ FileDataSource._dataGen loadFile batchSize probs None draw self
         = (Raise IndexError, self)).
Proof.
  split.
  - intros arr rest Harrs Hbad. unfold FileDataSource._dataGen.
    rewrite Harrs. cbn [FileDataSource.fetchArrays].
    by rewrite (fetchArray_bad_index loadFile inds arr self Hbad).
  - intros Harrs. unfold FileDataSource._dataGen. rewrite Harrs.
    cbn [FileDataSource.fetchArrays]. split; [|done].
    destruct (removeFiles_cache self) as (k & Hrm & _). by rewrite Hrm.
Qed.

Section CacheGrowth.
Import FileDataSource.

Variable loadFile : string -> result ndarray.

Lemma random_choice_Ok n batchSize p draw inds :
  DataSource.random_choice n batchSize p draw = Ok inds -> inds = draw.
Proof.
  unfold DataSource.random_choice. destruct (decide _); [done|].
  destruct p as [ps|]; [destruct (decide _); [|done]|]; by intros [= <-].
Qed.

Lemma fillRows_caches chosen : forall i out self out' self',
  fillRows loadFile i chosen out self = (Ok out', self') ->
  Forall (fun c => is_Some (dict_get c (imageCache self'))) chosen.
Proof.
  induction chosen as [|c chosen IH]; intros i out self out' self' Hfill;
    [constructor|].
  cbn [fillRows] in Hfill.
  destruct (_getCachedFile loadFile c self) as [[im|e] s1] eqn:E; [|done].
  destruct (setitem out i im) as [out1|e]; [|done].
  constructor; [|by eapply IH].
  pose proof (fillRows_preserves loadFile
                (fun st => is_Some (dict_get c (imageCache st)))
                (getCachedFile_cached loadFile c) chosen (S i) out1 s1) as H.
  rewrite Hfill in H. apply H.
  rewrite (getCachedFile_Ok loadFile c self im s1 E). eauto.
Qed.

Lemma fetchArray_caches inds arr self out self' :
  fetchArray loadFile inds arr self = (Ok out, self') ->
  forall i p, i ∈ inds -> arr !! i = Some p ->
    is_Some (dict_get p (imageCache self')).
Proof.
  unfold fetchArray.
  set (f := fun i => match arr !! i with
                     | Some p => Ok p
                     | None => Raise IndexError
                     end).
  destruct (mapR f inds) as [[|c0 chosen]|e] eqn:Hmap; [done| |done].
  apply mapR_Ok_inv in Hmap.
  destruct (_getCachedFile loadFile c0 self) as [[im|e] s1]; [|done].
  intros Hfill i p Hi Hp. apply fillRows_caches in Hfill.
  apply list_elem_of_lookup_1 in Hi as [k Hk].
  destruct (Forall2_lookup_l _ _ _ _ _ Hmap Hk) as (c & Hc & Hfc).
  unfold f in Hfc. rewrite Hp in Hfc. injection Hfc as <-.
  exact (Forall_lookup_1 _ _ _ _ Hfill Hc).
Qed.

Lemma fetchArrays_caches inds arrs : forall self outs self',
  fetchArrays loadFile inds arrs self = (Ok outs, self') ->
  forall arr i p, arr ∈ arrs -> i ∈ inds -> arr !! i = Some p ->
    is_Some (dict_get p (imageCache self')).
Proof.
  induction arrs as [|arr0 arrs IH]; intros self outs self' Hfetch arr i p Harr Hi Hp.
  - by apply elem_of_nil in Harr.
  - cbn [fetchArrays] in Hfetch.
    destruct (fetchArray loadFile inds arr0 self) as [[out|e] s1] eqn:E; [|done].
    destruct (fetchArrays loadFile inds arrs s1) as [[outs'|e] s2] eqn:E2; [|done].
    injection Hfetch as <- <-.
    apply elem_of_cons in Harr as [->|Harr]; [|by eapply IH].
    pose proof (fetchArrays_preserves loadFile
                  (fun st => is_Some (dict_get p (imageCache st)))
                  (getCachedFile_cached loadFile p) inds arrs s1) as H.
    rewrite E2 in H. apply H. by eapply fetchArray_caches.
Qed.

End CacheGrowth.

(** With a budget of zero or less nothing is ever taken out of the cache:
    the entries held before a fetch are, in the same order, the first
    entries held after it, whether the fetch returned or raised; and after
    a fetch that returned, the path of every chosen record of every file
    list is cached. *)
Theorem unbounded_cache_only_grows (loadFile : string -> result ndarray)
    (self : FileDataSource.t) (batchSize : nat) (probs : option (list Q))
    (chosenInds : option (list nat)) (draw : list nat) :
  (FileDataSource.maxSize self <= 0)%Z ->
  let after := FileDataSource._dataGen loadFile batchSize probs chosenInds draw self in
  FileDataSource.imageCache self `prefix_of` FileDataSource.imageCache after.2
  /\ forall outs arr i p,
       after.1 = Ok outs ->
       arr ∈ FileDataSource.arrays self ->
       i ∈ from_option id draw chosenInds -> arr !! i = Some p ->
       is_Some (FileDataSource.dict_get p (FileDataSource.imageCache after.2)).
Proof.
  intros Hmax after. subst after. unfold FileDataSource._dataGen.
  match goal with |- context [match ?r with Ok _ => _ | Raise _ => _ end] =>
    destruct r as [inds|e] eqn:Hinds end; cbn [fst snd]; [|by split].
  assert (Hsel : inds = from_option id draw chosenInds).
  { destruct chosenInds as [c|]; cbn [from_option id].
    - by injection Hinds as <-.
    - destruct (FileDataSource.arrays self); [done|].
      by eapply random_choice_Ok. }
  pose proof (fetchArrays_preserves loadFile
                (fun st => FileDataSource.imageCache self
                           `prefix_of` FileDataSource.imageCache st)
                (getCachedFile_prefix loadFile _) inds
                (FileDataSource.arrays self) self (reflexivity _)) as Hpre.
  pose proof (fetchArrays_preserves loadFile
                (fun st => FileDataSource.maxSize st = FileDataSource.maxSize self)
                (getCachedFile_maxSize loadFile _) inds
                (FileDataSource.arrays self) self eq_refl) as Hm.
  pose proof (fetchArrays_caches loadFile inds (FileDataSource.arrays self) self)
    as Hcached.
  destruct (FileDataSource.fetchArrays loadFile inds (FileDataSource.arrays self) self)
    as [[outs|e] mid]; cbn [fst snd] in *; [|by split].
  unfold FileDataSource._removeFiles.
  destruct (decide (FileDataSource.maxSize mid <= 0)%Z); [|lia].
  cbn [fst snd]. split; [done|].
  intros outs' arr i p _ Harr Hi Hp. rewrite <- Hsel in Hi.
  exact (Hcached outs mid eq_refl arr i p Harr Hi Hp).
Qed.

Lemma unbounded_cache_only_grows_witness :
  let after := FileDataSource._dataGen Examples.loadFile 2 None (Some [2; 0]) []
                 Cases.unbounded in
  FileDataSource.imageCache Cases.unbounded
    `prefix_of` FileDataSource.imageCache after.2
  /\ forall outs arr i p,
       after.1 = Ok outs ->
       arr ∈ FileDataSource.arrays Cases.unbounded ->
       i ∈ from_option id [] (Some [2; 0]) -> arr !! i = Some p ->
       is_Some (FileDataSource.dict_get p (FileDataSource.imageCache after.2)).
Proof.
  apply (unbounded_cache_only_grows Examples.loadFile Cases.unbounded 2 None
           (Some [2; 0]) []).
  simpl. lia.
Defined.

(** *** The [augment] decorator *)

Section Tuple.
Import Augments.
Context {R : Type}.

Lemma mapR_id_Ok (l : list R) : mapR (fun r => r) (Ok <$> l) = Ok l.
Proof. induction l as [|x l IH]; [done|]. cbn. by rewrite IH. Qed.

(** When the tuple is built, it has the length of the arguments, and every
    position holds the transform's result or the argument. *)
Lemma applyAt_Ok (op : R -> result R) indices args out :
  applyAt op indices args = Ok out ->
  length out = length args
  /\ forall i im, args !! i = Some im ->
       exists o, out !! i = Some o
                 /\ if decide (Z.of_nat i ∈ indices) then op im = Ok o else o = im.
Proof.
  unfold applyAt. intros H. apply mapR_Ok_inv in H.
  pose proof (Forall2_length _ _ _ H) as Hlen. rewrite length_imap in Hlen.
  split; [done|]. intros i im Him.
  assert (Hi : imap (fun i im => if decide (Z.of_nat i ∈ indices)
                                 then op im else Ok im) args !! i
               = Some (if decide (Z.of_nat i ∈ indices) then op im else Ok im)).
  { by rewrite list_lookup_imap, Him. }
  destruct (Forall2_lookup_l _ _ _ i _ H Hi) as (o & Ho & Hr).
  exists o. split; [done|]. destruct (decide (Z.of_nat i ∈ indices)); [done|].
  by injection Hr.
Qed.

(** A transform that returns on every targeted argument gives the tuple. *)
Lemma applyAt_total (op : R -> R) indices args :
  applyAt (fun im => Ok (op im)) indices args
  = Ok (imap (fun i im => if decide (Z.of_nat i ∈ indices) then op im else im) args).
Proof.
  unfold applyAt. rewrite <- mapR_id_Ok. f_equal.
  change (Ok <$> imap ?f args) with (fmap (M := list) Ok (imap f args)).
  rewrite fmap_imap. apply imap_ext. intros i im _. cbn.
  by destruct (decide (Z.of_nat i ∈ indices)).
Qed.

Lemma applyAt_ext (op : R -> result R) (l l' : list Z) args :
  (forall i, i < length args -> Z.of_nat i ∈ l <-> Z.of_nat i ∈ l') ->
  applyAt op l args = applyAt op l' args.
Proof.
  intros Hsame. unfold applyAt. f_equal. apply imap_ext. intros i im Him.
  apply lookup_lt_Some in Him. specialize (Hsame i Him).
  destruct (decide (Z.of_nat i ∈ l)), (decide (Z.of_nat i ∈ l')); tauto.
Qed.

Lemma applyAt_none (op : R -> result R) (l : list Z) args :
  (forall i, i < length args -> Z.of_nat i ∉ l) ->
  applyAt op l args = Ok args.
Proof.
  intros Hnone. unfold applyAt. rewrite <- mapR_id_Ok. f_equal.
  rewrite <- (imap_const Ok args).
  apply imap_ext. intros i im Him. apply lookup_lt_Some in Him.
  specialize (Hnone i Him). by destruct (decide (Z.of_nat i ∈ l)).
Qed.

Lemma indices_or_all_given (l : list Z) n :
  l <> [] -> indices_or_all (Some l) n = l.
Proof. by destruct l. Qed.

End Tuple.

Section AugmentStage.
Import Augments.
Context {R K G : Type}.
Variable randChoice : Q -> G -> bool * G.
Variable func : list R -> K -> G -> result (R -> result R) * G.

(** The three ways a call of [_func] can go. *)
Lemma run_func_always prob applyIndices args kw g :
  (1 <= pop (kw_prob kw) prob)%Q ->
  run randChoice func (_func prob applyIndices args kw) g
  = applied func applyIndices args kw g.
Proof.
  intros Hp. unfold _func, applied.
  destruct (Qlt_le_dec _ 1) as [Hlt|_]; [exfalso; eapply Qlt_not_le; eauto|].
  cbn [run]. destruct (func args (kw_rest kw) g) as [[op|e] g2]; [|done].
  by destruct (applyAt op _ args).
Qed.

Lemma run_func_skipped prob applyIndices args kw g :
  (pop (kw_prob kw) prob < 1)%Q ->
  (randChoice (pop (kw_prob kw) prob) g).1 = false ->
  run randChoice func (_func prob applyIndices args kw) g =
    (Ok args, [RandChoiceCalled (pop (kw_prob kw) prob) false],
     (randChoice (pop (kw_prob kw) prob) g).2).
Proof.
  intros Hp Hflip. unfold _func.
  destruct (Qlt_le_dec _ 1) as [_|Hle]; [|exfalso; eapply Qlt_not_le; eauto].
  cbn [run]. destruct (randChoice _ g) as [b g1]. cbn in Hflip. by subst b.
Qed.

Lemma run_func_chosen prob applyIndices args kw g :
  (pop (kw_prob kw) prob < 1)%Q ->
  (randChoice (pop (kw_prob kw) prob) g).1 = true ->
  run randChoice func (_func prob applyIndices args kw) g =
    let out := applied func applyIndices args kw
                 (randChoice (pop (kw_prob kw) prob) g).2 in
    (out.1.1, RandChoiceCalled (pop (kw_prob kw) prob) true :: out.1.2, out.2).
Proof.
  intros Hp Hflip. unfold _func, applied.
  destruct (Qlt_le_dec _ 1) as [_|Hle]; [|exfalso; eapply Qlt_not_le; eauto].
  cbn [run]. destruct (randChoice _ g) as [b g1]. cbn in *. subst b. cbn.
  destruct (func args (kw_rest kw) g1) as [[op|e] g2]; [|done].
  by destruct (applyAt op _ args).
Qed.

(** The index list decides through the tuple only: lists that target the
    same positions give the same call. *)
Lemma run_func_targets prob applyIndices applyIndices' args kw g :
  indices_or_all (pop (kw_applyIndices kw) applyIndices) (length args)
  = indices_or_all (pop (kw_applyIndices kw) applyIndices') (length args)
  \/ (forall op,
        applyAt op (indices_or_all (pop (kw_applyIndices kw) applyIndices)
                      (length args)) args
        = applyAt op (indices_or_all (pop (kw_applyIndices kw) applyIndices')
                        (length args)) args) ->
  run randChoice func (_func prob applyIndices args kw) g
  = run randChoice func (_func prob applyIndices' args kw) g.
Proof.
  intros Hsame.
  assert (Hop : forall op,
            applyAt op (indices_or_all (pop (kw_applyIndices kw) applyIndices)
                          (length args)) args
            = applyAt op (indices_or_all (pop (kw_applyIndices kw) applyIndices')
                            (length args)) args).
  { destruct Hsame as [->|H]; [done|exact H]. }
  assert (Happ : forall g1, applied func applyIndices args kw g1
                            = applied func applyIndices' args kw g1).
  { intros g1. unfold applied.
    destruct (func args (kw_rest kw) g1) as [[op|e] g2]; [|done].
    by rewrite Hop. }
  destruct (Qlt_le_dec (pop (kw_prob kw) prob) 1) as [Hlt|Hle].
  - destruct ((randChoice (pop (kw_prob kw) prob) g).1) eqn:Hflip.
    + by rewrite !(run_func_chosen _ _ _ _ _ Hlt Hflip), Happ.
    + by rewrite !(run_func_skipped _ _ _ _ _ Hlt Hflip).
  - by rewrite !(run_func_always _ _ _ _ _ Hle), Happ.
Qed.

End AugmentStage.

(** C5. An empty index list is taken for no index list. Whatever the
    decorated function, the probability and the arguments, a stage built
    with [applyIndices=[]] behaves as the one built with
    [applyIndices=None]; so a stage of probability 1 built with the empty
    list replaces every position by the transform, where the positions the
    specification and the decorator's documentation name as targeted, the
    members of the index set, are none and every position would be left
    as it is. *)
Theorem augment_empty_index_list_targets_all :
  (forall (R K G : Type) (randChoice : Q -> G -> bool * G)
          (func : list R -> K -> G -> result (R -> result R) * G)
          (prob : Q) (args : list R) (rest : K) (g : G),
     Augments.run randChoice func
       (Augments._func prob (Some []) args (Augments.mkKwargs None None rest)) g
     = Augments.run randChoice func
         (Augments._func prob None args (Augments.mkKwargs None None rest)) g)
  /\ (Augments.run Examples.coin Examples.succ_func
        (Augments._func 1 (Some []) [1; 2]%Z (Augments.mkKwargs None None ())) []).1.1
     = Ok [2; 3]%Z
  /\ Augments.applyAt (fun z => Ok (Z.succ z)) (Augments.spec_targets (Some []) 2)
       [1; 2]%Z
     = Ok [1; 2]%Z.
Proof.
  split; [|split; reflexivity].
  intros R K G randChoice func prob args rest g. apply run_func_targets. by left.
Qed.

(** One call of a stage the decorator built. With [p] the probability in
    force, the call either asks [randChoice(p)] once, is answered no and
    returns its argument tuple as it is, which needs [p < 1]; or it calls
    [func] exactly once, after the one [randChoice(p)] answered yes when
    [p < 1] and with no [randChoice] at all otherwise. What [func] raises,
    the call raises. When [func] returns a transform, the call returns a
    tuple of the length of the arguments in which a position holds the
    transform's result on the argument when it is targeted and the
    argument itself when it is not, or it raises what the transform raised
    on a targeted argument. The targeted positions are the given index set,
    and all positions when the set is [None] or empty. *)
Theorem augment_stage_call {R K G : Type} (randChoice : Q -> G -> bool * G)
    (func : list R -> K -> G -> result (R -> result R) * G) (prob : Q)
    (applyIndices : option (list Z)) (args : list R) (kw : Augments.kwargs K)
    (g : G) :
  let p := Augments.pop (Augments.kw_prob kw) prob in
  let targets :=
    Augments.indices_or_all
      (Augments.pop (Augments.kw_applyIndices kw) applyIndices) (length args) in
  let flip := randChoice p g in
  let out := Augments.run randChoice func (Augments._func prob applyIndices args kw) g in
  ((p < 1)%Q /\ flip.1 = false
   /\ out.1.1 = Ok args
   /\ out.1.2 = [Augments.RandChoiceCalled p false])
  \/
  (exists (asked : list (Augments.event R K)) (g1 : G),
     ((p < 1)%Q /\ flip.1 = true
      /\ asked = [Augments.RandChoiceCalled p true] /\ g1 = flip.2
      \/ (1 <= p)%Q /\ asked = [] /\ g1 = g)
     /\ out.1.2 = asked ++ [Augments.FuncCalled args (Augments.kw_rest kw)]
     /\ match (func args (Augments.kw_rest kw) g1).1 with
        | Raise e => out.1.1 = Raise e
        | Ok op =>
            match out.1.1 with
            | Raise e =>
                exists i im, args !! i = Some im /\ Z.of_nat i ∈ targets
                             /\ op im = Raise e
            | Ok tuple =>
                length tuple = length args
                /\ forall i im, args !! i = Some im ->
                     exists o, tuple !! i = Some o
                               /\ if decide (Z.of_nat i ∈ targets)
                                  then op im = Ok o else o = im
            end
        end).
Proof.
  intros p targets flip out.
  assert (Happ : forall g1,
            match (func args (Augments.kw_rest kw) g1).1 with
            | Raise e => (Augments.applied func applyIndices args kw g1).1.1 = Raise e
            | Ok op =>
                match (Augments.applied func applyIndices args kw g1).1.1 with
                | Raise e =>
                    exists i im, args !! i = Some im /\ Z.of_nat i ∈ targets
                                 /\ op im = Raise e
                | Ok tuple =>
                    length tuple = length args
                    /\ forall i im, args !! i = Some im ->
                         exists o, tuple !! i = Some o
                                   /\ if decide (Z.of_nat i ∈ targets)
                                      then op im = Ok o else o = im
                end
            end
            /\ (Augments.applied func applyIndices args kw g1).1.2
               = [Augments.FuncCalled args (Augments.kw_rest kw)]).
  { intros g1. unfold Augments.applied.
    destruct (func args (Augments.kw_rest kw) g1) as [[op|e] g2]; cbn [fst snd];
      [|done]. split; [|done]. fold targets.
    destruct (Augments.applyAt op targets args) as [tuple|e] eqn:E.
    - by apply applyAt_Ok.
    - unfold Augments.applyAt in E.
      refine (mapR_raises _ (fun e => exists i im, args !! i = Some im
                                       /\ Z.of_nat i ∈ targets /\ op im = Raise e)
                _ e E _).
      intros r e' Hr Hre. apply list_elem_of_lookup_1 in Hr as [i Hi].
      rewrite list_lookup_imap in Hi.
      destruct (args !! i) as [im|] eqn:Him; [|done]. cbn in Hi.
      injection Hi as <-. exists i, im. split; [done|].
      destruct (decide (Z.of_nat i ∈ targets)); [done|discriminate Hre]. }
  destruct (Qlt_le_dec p 1) as [Hlt|Hle].
  - destruct (flip.1) eqn:Hflip.
    + right. subst out. unfold flip in Hflip.
      rewrite (run_func_chosen randChoice func _ _ _ _ _ Hlt Hflip).
      cbn [fst snd]. destruct (Happ (randChoice p g).2) as [H1 H2].
      exists [Augments.RandChoiceCalled p true], (randChoice p g).2.
      split; [left; eauto|]. fold p. rewrite H2. split; [done|exact H1].
    + left. subst out. unfold flip in Hflip.
      rewrite (run_func_skipped randChoice func _ _ _ _ _ Hlt Hflip). done.
  - right. subst out.
    rewrite (run_func_always randChoice func _ _ _ _ _ Hle).
    destruct (Happ g) as [H1 H2]. exists [], g.
    split; [right; eauto|]. rewrite H2. split; [done|exact H1].
Qed.

Example augment_skips_on_no :
  Augments.run Examples.coin Examples.succ_func
    (Augments._func (1 # 2) None [1; 2]%Z (Augments.mkKwargs None None ())) [false]
  = (Ok [1; 2]%Z, [Augments.RandChoiceCalled (1 # 2) false], []).
Proof. reflexivity. Qed.

Example augment_targets_second :
  Augments.run Examples.coin Examples.succ_func
    (Augments._func (1 # 2) None [1; 2]%Z
       (Augments.mkKwargs None (Some (Some [1%Z])) ())) [true]
  = (Ok [1; 3]%Z,
     [Augments.RandChoiceCalled (1 # 2) true; Augments.FuncCalled [1; 2]%Z ()], []).
Proof. reflexivity. Qed.

Example augment_func_raises :
  Augments.run Examples.coin Examples.failing_func
    (Augments._func 1 None [1; 2]%Z (Augments.mkKwargs None None ())) []
  = (Raise ValueError, [Augments.FuncCalled [1; 2]%Z ()], []).
Proof. reflexivity. Qed.

Example augment_transform_raises :
  Augments.run Examples.coin Examples.sqrt_func
    (Augments._func 1 None [4; -1; 9]%Z (Augments.mkKwargs None None ())) []
  = (Raise ValueError, [Augments.FuncCalled [4; -1; 9]%Z ()], []).
Proof. reflexivity. Qed.

(** A call of a stage picks its targets by position only. Two non-empty
    index lists that have the same members among the positions of the
    arguments give the same call, in result, calls made and generator
    state, whatever their order, their repeats and their other members,
    and whether the call is skipped, applied, or raises. With no member
    among those positions (a negative index such as -1 is none) the result
    is the argument tuple as it is, unless [func] raised; [func] is still
    called whenever the call is applied, but its transform is not. *)
Theorem augment_targets_by_position {R K G : Type}
    (randChoice : Q -> G -> bool * G)
    (func : list R -> K -> G -> result (R -> result R) * G) (prob : Q)
    (applyIndices applyIndices' : option (list Z)) (l l' : list Z)
    (args : list R) (kw : Augments.kwargs K) (g : G) :
  Augments.pop (Augments.kw_applyIndices kw) applyIndices = Some l ->
  Augments.pop (Augments.kw_applyIndices kw) applyIndices' = Some l' ->
  l <> [] -> l' <> [] ->
  (forall i, i < length args -> Z.of_nat i ∈ l <-> Z.of_nat i ∈ l') ->
  let p := Augments.pop (Augments.kw_prob kw) prob in
  let out := Augments.run randChoice func (Augments._func prob applyIndices args kw) g in
  out = Augments.run randChoice func (Augments._func prob applyIndices' args kw) g
  /\ ((forall i, i < length args -> Z.of_nat i ∉ l) ->
      (out.1.1 = Ok args
       \/ exists e g1, (func args (Augments.kw_rest kw) g1).1 = Raise e
                       /\ out.1.1 = Raise e)
      /\ ((1 <= p)%Q \/ (randChoice p g).1 = true ->
          Augments.FuncCalled args (Augments.kw_rest kw) ∈ out.1.2)).
Proof.
  intros Hl Hl' Hne Hne' Hsame p out. split.
  - subst out. apply run_func_targets. right. intros op.
    rewrite Hl, Hl', !indices_or_all_given by done. by apply applyAt_ext.
  - intros Hnone.
    assert (Happ : forall g1,
              ((Augments.applied func applyIndices args kw g1).1.1 = Ok args
               \/ exists e g2, (func args (Augments.kw_rest kw) g2).1 = Raise e
                               /\ (Augments.applied func applyIndices args kw g1).1.1 = Raise e)
              /\ Augments.FuncCalled args (Augments.kw_rest kw)
                 ∈ (Augments.applied func applyIndices args kw g1).1.2).
    { intros g1. unfold Augments.applied.
      destruct (func args (Augments.kw_rest kw) g1) as [[op|e] g2] eqn:E;
        cbn [fst snd].
      - split; [left|apply list_elem_of_here].
        rewrite Hl, indices_or_all_given by done. by apply applyAt_none.
      - split; [right|apply list_elem_of_here].
        exists e, g1. by rewrite E. }
    subst out. destruct (Qlt_le_dec p 1) as [Hlt|Hle].
    + destruct ((randChoice p g).1) eqn:Hflip.
      * rewrite (run_func_chosen randChoice func _ _ _ _ _ Hlt Hflip).
        cbn [fst snd]. destruct (Happ (randChoice p g).2) as [H1 H2].
        split; [exact H1|]. intros _. by apply list_elem_of_further.
      * rewrite (run_func_skipped randChoice func _ _ _ _ _ Hlt Hflip).
        cbn [fst snd]. split; [by left|].
        intros [Hle|?]; [|done]. exfalso. eapply Qlt_not_le; eauto.
    + rewrite (run_func_always randChoice func _ _ _ _ _ Hle).
      destruct (Happ g) as [H1 H2]. split; [exact H1|]. by intros _.
Qed.

Lemma augment_targets_by_position_witness :
  let out := Augments.run Examples.coin Examples.sqrt_func
               (Augments._func (1 # 2) (Some [-1]%Z) [4; -9]%Z
                  (Augments.mkKwargs None None ())) [true] in
  out = Augments.run Examples.coin Examples.sqrt_func
          (Augments._func (1 # 2) (Some [2; 2]%Z) [4; -9]%Z
             (Augments.mkKwargs None None ())) [true]
  /\ ((forall i, i < length [4; -9]%Z -> Z.of_nat i ∉ [-1]%Z) ->
      (out.1.1 = Ok [4; -9]%Z
       \/ exists e g1, (Examples.sqrt_func [4; -9]%Z () g1).1 = Raise e
                       /\ out.1.1 = Raise e)
      /\ ((1 <= 1 # 2)%Q \/ (Examples.coin (1 # 2) [true]).1 = true ->
          Augments.FuncCalled [4; -9]%Z () ∈ out.1.2)).
Proof.
  apply (augment_targets_by_position Examples.coin Examples.sqrt_func (1 # 2)
           (Some [-1]%Z) (Some [2; 2]%Z) [-1]%Z [2; 2]%Z [4; -9]%Z
           (Augments.mkKwargs None None ()) [true]).
  - reflexivity.
  - reflexivity.
  - discriminate.
  - discriminate.
  - intros i Hi. simpl in Hi. rewrite !elem_of_cons, !elem_of_nil. lia.
Defined.

Section Patch.
Import Transforms.

Lemma chunks_lookup n k : forall d i,
  i < n -> chunks n k d !! i = Some (take k (drop (i * k) d)).
Proof.
  induction n as [|n IH]; intros d i Hi; [lia|].
  cbn [chunks]. destruct i as [|i]; [done|].
  rewrite lookup_cons_ne_0 by done. cbn [pred].
  rewrite IH by lia. rewrite drop_drop. done.
Qed.

Lemma getitem_data a n s i :
  shape a = n :: s -> i < n ->
  getitem a i = Ok (mkArray (dtype_of a) s
                      (take (size_of s) (drop (i * size_of s) (data a)))).
Proof. intros Hs Hi. unfold getitem. rewrite Hs. by rewrite decide_True. Qed.

Lemma getpatch_Ok im h w s ry ph rx pw :
  shape im = h :: w :: s -> wf im -> ry + ph <= h -> rx + pw <= w ->
  exists patch,
    getpatch im ry ph rx pw = Ok patch
    /\ shape patch = ph :: pw :: s /\ dtype_of patch = dtype_of im /\ wf patch
    /\ forall r c, r < ph -> c < pw ->
         at2 patch r c = at2 im (ry + r) (rx + c).
Proof.
  intros Hs Hwf Hr Hc. unfold getpatch. rewrite Hs.
  set (sz := size_of s). set (W := w * sz).
  set (rows := take ph (drop ry (chunks h W (data im)))).
  set (f := fun row : list Z => take (pw * sz) (drop (rx * sz) row)).
  assert (Hdata : length (data im) = h * W).
  { unfold wf in Hwf. rewrite Hwf, Hs. reflexivity. }
  assert (Hrows : forall r, r < ph ->
            rows !! r = Some (take W (drop ((ry + r) * W) (data im)))).
  { intros r Hr'. unfold rows. rewrite lookup_take_lt by done.
    rewrite lookup_drop. apply chunks_lookup. lia. }
  assert (Hrowlen : Forall (fun row => length row = W) rows).
  { unfold rows. apply Forall_take, Forall_drop. by apply chunks_lengths. }
  assert (Hlenrows : length rows = ph).
  { unfold rows. rewrite length_take, length_drop, chunks_length. lia. }
  assert (Hcut : Forall (fun row => length row = pw * sz) (map f rows)).
  { apply Forall_fmap. eapply Forall_impl; [exact Hrowlen|].
    intros row Hrow. unfold f. cbn. rewrite length_take, length_drop, Hrow.
    unfold W. nia. }
  replace (ph `min` (h - ry)) with ph by lia.
  replace (pw `min` (w - rx)) with pw by lia.
  set (patch := mkArray (dtype_of im) (ph :: pw :: s) (concat (map f rows))).
  exists patch. split; [done|]. split; [done|]. split; [done|]. split.
  - unfold wf, patch. cbn [data shape].
    rewrite (concat_length_same _ (pw * sz) Hcut), length_map, Hlenrows.
    reflexivity.
  - intros r c Hr' Hc'. unfold at2.
    rewrite (getitem_data patch ph (pw :: s) r eq_refl Hr').
    rewrite (getitem_data im h (w :: s) (ry + r) Hs) by lia.
    cbn [mbind result_bind Py.bind].
    rewrite (getitem_data (mkArray _ (pw :: s) _) pw s c eq_refl Hc').
    rewrite (getitem_data (mkArray _ (w :: s) _) w s (rx + c) eq_refl) by lia.
    cbn [dtype_of data shape]. f_equal. f_equal.
    change (size_of (pw :: s)) with (pw * sz).
    change (size_of (w :: s)) with W. fold sz.
    change (data patch) with (concat (map f rows)).
    rewrite (concat_row (map f rows) (pw * sz) r
               (f (take W (drop ((ry + r) * W) (data im)))) Hcut).
    2:{ change (map f rows) with (f <$> rows).
        by rewrite list_lookup_fmap, (Hrows r Hr'). }
    unfold f. set (R := take W (drop ((ry + r) * W) (data im))).
    replace (pw * sz) with (c * sz + (pw * sz - c * sz)) by nia.
    rewrite <- take_drop_commute, take_take, drop_drop.
    replace (sz `min` (pw * sz - c * sz)) with sz by nia.
    by replace (rx * sz + c * sz) with ((rx + c) * sz) by nia.
Qed.

Lemma offsets_Ok h w ph pw (draw : nat * nat) :
  draw.1 < h - ph -> draw.2 < w - pw ->
  offsets h w ph pw draw = Ok (draw.1, draw.2).
Proof.
  intros H1 H2. unfold offsets, randint.
  rewrite !decide_True by lia. done.
Qed.

Lemma offsets_no_room h w ph pw draw :
  h <= ph \/ w <= pw -> offsets h w ph pw draw = Raise ValueError.
Proof.
  intros Hroom. unfold offsets, randint.
  destruct (decide (0 < Z.of_nat h - Z.of_nat ph)%Z); [|done]. cbn.
  by rewrite decide_False by lia.
Qed.

Lemma amax_Ok a : 0 < length (data a) -> exists m, amax a = Ok m.
Proof. unfold amax. destruct (data a); cbn; [lia|eauto]. Qed.

Lemma search_first testim h w s ph pw draws :
  shape testim = h :: w :: s -> wf testim ->
  valid_draws h w ph pw draws ->
  forall count j,
    count = 0 \/ (0 < ph /\ 0 < pw /\ 0 < size_of s) ->
    exists i,
      j <= i <= j + count
      /\ search testim h w ph pw draws (S j) count (draws j).1 (draws j).2
         = Ok ((draws i).1, (draws i).2)
      /\ (i < j + count -> lit testim ph pw draws i)
      /\ forall i', j <= i' < i -> ~ lit testim ph pw draws i'.
Proof.
  intros Hs Hwf Hvalid. induction count as [|count IH]; intros j Hpos.
  - exists j. split; [lia|]. split; [done|]. split; intros; lia.
  - destruct Hpos as [|(Hph & Hpw & Hsz)]; [done|].
    destruct (Hvalid j) as [Hry Hrx].
    destruct (getpatch_Ok testim h w s (draws j).1 ph (draws j).2 pw Hs Hwf)
      as (patch & Hpatch & Hps & _ & Hpwf & _); [lia|lia|].
    destruct (amax_Ok patch) as [m Hm].
    { unfold wf in Hpwf. rewrite Hpwf, Hps. cbn [size_of foldr].
      fold (size_of s). nia. }
    cbn [search]. rewrite Hpatch. cbn [mbind result_bind Py.bind]. rewrite Hm.
    cbn [mbind result_bind Py.bind]. destruct (decide (m > 0)%Z) as [Hlit|Hdark].
    + exists j. split; [lia|]. split; [done|]. split; [|intros; lia].
      intros _. by exists patch, m.
    + destruct (Hvalid (S j)) as [Hry' Hrx'].
      rewrite (offsets_Ok h w ph pw (draws (S j)) Hry' Hrx').
      cbn [mbind result_bind Py.bind fst snd].
      destruct (IH (S j)) as (i & Hi & Hres & Hlit & Hfirst); [by right|].
      exists i. split; [lia|]. split; [done|]. split.
      * intros Hlt. apply Hlit. lia.
      * intros i' Hi'. destruct (decide (i' = j)) as [->|Hne].
        -- intros (patch' & m' & Hp' & Hm' & Hpos').
           rewrite Hpatch in Hp'. injection Hp' as <-.
           rewrite Hm in Hm'. injection Hm' as <-. lia.
        -- apply Hfirst. lia.
Qed.

Lemma getpatch_empty im ry ph rx pw patch :
  ph = 0 \/ pw = 0 -> getpatch im ry ph rx pw = Ok patch -> data patch = [].
Proof.
  unfold getpatch. intros Hz. destruct (shape im) as [|h [|w s]]; try done.
  intros [= <-]. cbn [data]. destruct Hz as [->| ->]; [done|].
  cbn [Nat.mul]. induction (take ph _) as [|row rows IH]; [done|].
  cbn [map concat]. by rewrite take_0, IH.
Qed.

Lemma randPatch_offsets_Ok arrs patchSize maxcount nonzeroIndex draws yx :
  randPatch_offsets arrs patchSize maxcount nonzeroIndex draws = Ok yx ->
  randPatch arrs patchSize maxcount nonzeroIndex draws
  = Ok (fun im => getpatch im yx.1 patchSize.1 yx.2 patchSize.2).
Proof. intros H. unfold randPatch. by rewrite H. Qed.

End Patch.

(** [randPatch] raises [ValueError] unless the tested image is strictly
    larger than the patch in both directions: a patch of the size of the
    image cannot be cut. With a test for a positive element switched on
    and at least one round, it raises [ValueError] for a patch without
    rows or without columns as well. *)
Theorem randPatch_needs_room (arrs : list ndarray) (testim : ndarray)
    (h w ph pw : nat) (s : list nat) (maxcount : nat) (nonzeroIndex : Z)
    (draws : nat -> nat * nat) :
  Transforms.tuple_getitem arrs nonzeroIndex = Ok testim ->
  shape testim = h :: w :: s ->
  (h <= ph \/ w <= pw ->
   Transforms.randPatch arrs (ph, pw) maxcount nonzeroIndex draws
   = Raise ValueError)
  /\ (Transforms.valid_draws h w ph pw draws ->
      nonzeroIndex <> (-1)%Z -> 0 < maxcount -> ph = 0 \/ pw = 0 ->
      Transforms.randPatch arrs (ph, pw) maxcount nonzeroIndex draws
      = Raise ValueError).
Proof.
  intros Htest Hs. unfold Transforms.randPatch, Transforms.randPatch_offsets.
  rewrite Htest. cbn [mbind result_bind Py.bind]. unfold Transforms.shape2.
  rewrite Hs. cbn [mbind result_bind Py.bind fst snd]. split.
  - intros Hroom. by rewrite (offsets_no_room h w ph pw (draws 0) Hroom).
  - intros Hvalid Hne Hcount Hzero. destruct (Hvalid 0) as [Hry Hrx].
    rewrite (offsets_Ok h w ph pw (draws 0) Hry Hrx).
    cbn [mbind result_bind Py.bind fst snd]. rewrite decide_True by done.
    destruct maxcount as [|count]; [lia|]. cbn [Transforms.search].
    destruct (getpatch testim (draws 0).1 ph (draws 0).2 pw) as [patch|e]
      eqn:Hpatch.
    + cbn [mbind result_bind Py.bind]. unfold amax.
      by rewrite (getpatch_empty _ _ _ _ _ _ Hzero Hpatch).
    + unfold getpatch in Hpatch. by rewrite Hs in Hpatch.
Qed.

Lemma randPatch_needs_room_witness :
  (3 <= 3 \/ 3 <= 3 ->
   Transforms.randPatch [Cases.dot] (3, 3) 10 0 Cases.origin = Raise ValueError)
  /\ (Transforms.valid_draws 3 3 3 3 Cases.origin ->
      (0 <> -1)%Z -> 0 < 10 -> 3 = 0 \/ 3 = 0 ->
      Transforms.randPatch [Cases.dot] (3, 3) 10 0 Cases.origin
      = Raise ValueError).
Proof.
  apply (randPatch_needs_room [Cases.dot] Cases.dot 3 3 3 3 [] 10 0 Cases.origin).
  - reflexivity.
  - reflexivity.
Defined.

(** With the test for a positive element switched on, [randPatch] takes the
    first of the first [maxcount] drawn offsets whose patch of the tested
    image has a positive element. When none of them has one, it takes the
    next drawn offsets without looking at that patch. *)
Theorem randPatch_takes_first_lit (arrs : list ndarray) (testim : ndarray)
    (h w ph pw : nat) (s : list nat) (maxcount : nat) (nonzeroIndex : Z)
    (draws : nat -> nat * nat) :
  Transforms.tuple_getitem arrs nonzeroIndex = Ok testim ->
  shape testim = h :: w :: s -> wf testim ->
  Transforms.valid_draws h w ph pw draws ->
  nonzeroIndex <> (-1)%Z ->
  maxcount = 0 \/ (0 < ph /\ 0 < pw /\ 0 < size_of s) ->
  exists i,
    i <= maxcount
    /\ Transforms.randPatch_offsets arrs (ph, pw) maxcount nonzeroIndex draws
       = Ok ((draws i).1, (draws i).2)
    /\ (i < maxcount -> Transforms.lit testim ph pw draws i)
    /\ forall i', i' < i -> ~ Transforms.lit testim ph pw draws i'.
Proof.
  intros Htest Hs Hwf Hvalid Hne Hpos.
  destruct (search_first testim h w s ph pw draws Hs Hwf Hvalid maxcount 0 Hpos)
    as (i & Hi & Hres & Hlit & Hfirst).
  exists i. split; [lia|]. split; [|split].
  - unfold Transforms.randPatch_offsets. rewrite Htest.
    cbn [mbind result_bind Py.bind]. unfold Transforms.shape2. rewrite Hs.
    cbn [mbind result_bind Py.bind fst snd]. destruct (Hvalid 0) as [Hry Hrx].
    rewrite (offsets_Ok h w ph pw (draws 0) Hry Hrx).
    cbn [mbind result_bind Py.bind fst snd]. by rewrite decide_True by done.
  - intros Hlt. apply Hlit. lia.
  - intros i' Hi'. apply Hfirst. lia.
Qed.

Lemma randPatch_takes_first_lit_witness :
  exists i,
    i <= 10
    /\ Transforms.randPatch_offsets [Cases.dot] (2, 2) 10 0 Cases.origin
       = Ok ((Cases.origin i).1, (Cases.origin i).2)
    /\ (i < 10 -> Transforms.lit Cases.dot 2 2 Cases.origin i)
    /\ forall i', i' < i -> ~ Transforms.lit Cases.dot 2 2 Cases.origin i'.
Proof.
  apply (randPatch_takes_first_lit [Cases.dot] Cases.dot 3 3 2 2 [] 10 0
           Cases.origin).
  - reflexivity.
  - reflexivity.
  - reflexivity.
  - intros k. simpl. lia.
  - discriminate.
  - right. simpl. lia.
Defined.

(** When [randPatch] returns, under numpy's guarantees of the offsets it
    draws, the patch lies inside the tested image and stops short of its
    last row and last column. The transform it returns cuts from any
    array of the same height and width an array of the patch size and of
    the same dtype, whose element at row [r] and column [c] is the one at
    row [ry+r] and column [rx+c] of the array. *)
Theorem randPatch_cuts_inside (arrs : list ndarray) (testim : ndarray)
    (h w ph pw : nat) (s : list nat) (maxcount : nat) (nonzeroIndex : Z)
    (draws : nat -> nat * nat) :
  Transforms.tuple_getitem arrs nonzeroIndex = Ok testim ->
  shape testim = h :: w :: s -> wf testim ->
  Transforms.valid_draws h w ph pw draws ->
  nonzeroIndex = (-1)%Z \/ maxcount = 0 \/ (0 < ph /\ 0 < pw /\ 0 < size_of s) ->
  exists ry rx op,
    Transforms.randPatch arrs (ph, pw) maxcount nonzeroIndex draws = Ok op
    /\ ry + ph < h /\ rx + pw < w
    /\ forall im s',
         shape im = h :: w :: s' -> wf im ->
         exists patch,
           op im = Ok patch
           /\ shape patch = ph :: pw :: s' /\ dtype_of patch = dtype_of im
           /\ forall r c, r < ph -> c < pw ->
                Transforms.at2 patch r c = Transforms.at2 im (ry + r) (rx + c).
Proof.
  intros Htest Hs Hwf Hvalid Hpos.
  assert (Hoff : exists i,
            Transforms.randPatch_offsets arrs (ph, pw) maxcount nonzeroIndex draws
            = Ok ((draws i).1, (draws i).2)).
  { unfold Transforms.randPatch_offsets. rewrite Htest.
    cbn [mbind result_bind Py.bind]. unfold Transforms.shape2. rewrite Hs.
    cbn [mbind result_bind Py.bind fst snd]. destruct (Hvalid 0) as [Hry Hrx].
    rewrite (offsets_Ok h w ph pw (draws 0) Hry Hrx).
    cbn [mbind result_bind Py.bind fst snd].
    destruct (decide (nonzeroIndex <> (-1)%Z)) as [Hne|_]; [|by exists 0].
    destruct Hpos as [?|Hpos]; [done|].
    destruct (search_first testim h w s ph pw draws Hs Hwf Hvalid maxcount 0 Hpos)
      as (i & _ & Hres & _). by exists i. }
  destruct Hoff as [i Hoff]. destruct (Hvalid i) as [Hry Hrx].
  exists (draws i).1, (draws i).2. eexists.
  split; [exact (randPatch_offsets_Ok _ _ _ _ _ _ Hoff)|].
  split; [lia|]. split; [lia|].
  intros im s' Him Himwf. cbn [fst snd].
  destruct (getpatch_Ok im h w s' (draws i).1 ph (draws i).2 pw Him Himwf)
    as (patch & Hpatch & Hps & Hpd & _ & Hat); [lia|lia|].
  by exists patch.
Qed.

Lemma randPatch_cuts_inside_witness :
  exists ry rx op,
    Transforms.randPatch [Cases.dot] (2, 2) 10 (-1) Cases.origin = Ok op
    /\ ry + 2 < 3 /\ rx + 2 < 3
    /\ forall im s',
         shape im = 3 :: 3 :: s' -> wf im ->
         exists patch,
           op im = Ok patch
           /\ shape patch = 2 :: 2 :: s' /\ dtype_of patch = dtype_of im
           /\ forall r c, r < 2 -> c < 2 ->
                Transforms.at2 patch r c = Transforms.at2 im (ry + r) (rx + c).
Proof.
  apply (randPatch_cuts_inside [Cases.dot] Cases.dot 3 3 2 2 [] 10 (-1)
           Cases.origin).
  - reflexivity.
  - reflexivity.
  - reflexivity.
  - intros k. simpl. lia.
  - by left.
Defined.
